(** * advanced-vector: RawMemory<T> and Vector<T> of vector.h

    The two class templates are embedded over an explicit memory of raw
    blocks.  A block is a list of slots; a slot is either uninitialized
    storage or holds a live object of the element type.  Every function of
    the header becomes a function on that memory which returns a value,
    throws, or has undefined behaviour.

    Conventions of the model.
    - [operator new] always succeeds, so sizes and capacities (which count
      allocated slots) stay far below 2^64 and [+ 1], [* 2] on them do not
      wrap; they are [nat].  A [size_t] difference can wrap and is written
      out ([size_sub]); counts handed to the [std::..._n] algorithms are [N].
    - [Allocate] computes the byte count [n * sizeof (T)] in [size_t].  For
      a count the vector derives from its own size the product is within
      [size_t]; for a count chosen by the caller ([Vector (n)],
      [RawMemory (n)], [Reserve (n)], [Resize (n)]) it need not be, and the
      block would then be shorter than [n].  The model gives [n] slots, and
      a statement that a call with a count chosen by the caller returns, or
      about the block such a call leaves, assumes [fits_size_t n].
    - The element type is generic with a non-trivial destructor: destroying
      or reading a slot which holds no live object, and touching storage
      outside a block, is undefined behaviour.
    - Of the element type's operations only the construction of a new
      element from an argument pack may throw. *)

From Stdlib Require Import ZArith NArith Lia List Bool.
From stdpp Require Import base list.

Set Default Proof Using "Type".

(** ** Raw blocks *)

Inductive slot (T : Type) : Type :=
| Uninit : slot T
| Live (v : T) : slot T.
Arguments Uninit {T}.
Arguments Live {T} v.

Abbreviation block T := (list (slot T)) (only parsing).

(** A [T*]: [nullptr] has no base block. *)
Record ptr : Type := Ptr { base : option nat; off : nat }.

Definition nullptr : ptr := Ptr None 0.

Definition ptr_add (p : ptr) (k : nat) : ptr := Ptr (base p) (off p + k).

(** What the migration routines and the allocator did, oldest first. *)
Inductive event (T : Type) : Type :=
| EvAlloc (a n : nat) : event T
| EvFree (a : nat) : event T
| EvCopy (v : T) : event T
| EvMove (v : T) : event T.
Arguments EvAlloc {T} a n.
Arguments EvFree {T} a.
Arguments EvCopy {T} v.
Arguments EvMove {T} v.

(** The free store: cell [a] is [Some blk] while block [a] is allocated and
    [None] once it has been released. *)
Record mem (T : Type) : Type := Mem {
  cells : list (option (block T));
  trace : list (event T)
}.
Arguments Mem {T} cells trace.
Arguments cells {T} m.
Arguments trace {T} m.

Definition empty_mem {T : Type} : mem T := Mem [] [].

(** ** Outcomes *)

Inductive result (T A : Type) : Type :=
| Ret (a : A) (m : mem T) : result T A
| Throw (m : mem T) : result T A
| Undef : result T A.
Arguments Ret {T A} a m.
Arguments Throw {T A} m.
Arguments Undef {T A}.

Definition M (T A : Type) : Type := mem T -> result T A.

Definition ret {T A : Type} (a : A) : M T A := fun m => Ret a m.

Definition bind {T A B : Type} (c : M T A) (k : A -> M T B) : M T B :=
  fun m =>
    match c m with
    | Ret a m' => k a m'
    | Throw m' => Throw m'
    | Undef => Undef
    end.

Definition undefined {T A : Type} : M T A := fun _ => Undef.

Definition throw {T A : Type} : M T A := fun m => Throw m.

(** [on_unwind c cleanup]: stack unwinding.  When [c] throws, the
    destructors of the locals in scope ([cleanup]) run on the memory left by
    [c] and the exception travels on; a destructor which itself throws then
    ends the program, which is no outcome a caller can observe. *)
Definition on_unwind {T A : Type} (c : M T A) (cleanup : M T unit) : M T A :=
  fun m =>
    match c m with
    | Ret a m' => Ret a m'
    | Throw m' =>
        match cleanup m' with
        | Ret _ m'' => Throw m''
        | Throw _ => Undef
        | Undef => Undef
        end
    | Undef => Undef
    end.

Declare Scope cpp_scope.
Delimit Scope cpp_scope with cpp.
Notation "x <- c ;; k" := (bind c (fun x => k))
  (at level 100, c at next level, right associativity) : cpp_scope.
Notation "c ;;; k" := (bind c (fun _ => k))
  (at level 100, right associativity) : cpp_scope.
Open Scope cpp_scope.

(** [size_t] subtraction [a - b] for [a], [b] below 2^64. *)
Definition size_sub (a b : nat) : N :=
  if (b <=? a)%nat then N.of_nat (a - b)
  else (2 ^ 64 - N.of_nat (b - a))%N.

(** An element type for the examples: natural numbers whose moved-from
    value is 0, built from an optional number; [None] stands for arguments
    on which the constructor throws. *)
Definition nat_moved_from (x : nat) : nat := 0.

Definition nat_construct (args : option nat) : option nat := args.

Section Element.

Context {T : Type}.

(** The element type: the value a moved-from object is left with, the value
    of [T()], and the two traits the header asks for. *)
Variable moved_from : T -> T.
Variable value_init : T.
Variable is_nothrow_move_constructible : bool.
Variable is_copy_constructible : bool.

(** Argument packs, and what [T(args...)] does with one: [None] when the
    constructor throws. *)
Variable Args : Type.
Variable construct_from : Args -> option T.

(** [sizeof (T)], in bytes. *)
Variable sizeof_T : N.

Local Abbreviation M := (M T).

(** ** Slot primitives *)

Definition add_trace (es : list (event T)) (m : mem T) : mem T :=
  Mem (cells m) (trace m ++ es).

Definition log (e : event T) : M unit :=
  fun m => Ret tt (add_trace [e] m).

Definition block_at (m : mem T) (p : ptr) : option (nat * block T) :=
  match base p with
  | Some a =>
      match cells m !! a with
      | Some (Some blk) => Some (a, blk)
      | _ => None
      end
  | None => None
  end.

Definition store (a : nat) (blk : block T) (m : mem T) : mem T :=
  Mem (<[a := Some blk]> (cells m)) (trace m).

Definition blk_at (m : mem T) (a : nat) (blk : block T) : Prop :=
  cells m !! a = Some (Some blk).

(** Placement new of an object with value [v] into raw storage. *)
Definition construct_at (p : ptr) (v : T) : M unit :=
  fun m =>
    match block_at m p with
    | Some (a, blk) =>
        match blk !! off p with
        | Some Uninit => Ret tt (store a (<[off p := Live v]> blk) m)
        | _ => Undef
        end
    | None => Undef
    end.

(** The destructor call on the object at [p]. *)
Definition destroy_at (p : ptr) : M unit :=
  fun m =>
    match block_at m p with
    | Some (a, blk) =>
        match blk !! off p with
        | Some (Live _) => Ret tt (store a (<[off p := Uninit]> blk) m)
        | _ => Undef
        end
    | None => Undef
    end.

(** Reading the object at [p]. *)
Definition read (p : ptr) : M T :=
  fun m =>
    match block_at m p with
    | Some (_, blk) =>
        match blk !! off p with
        | Some (Live v) => Ret v m
        | _ => Undef
        end
    | None => Undef
    end.

(** Assigning [v] to the object at [p]. *)
Definition write (p : ptr) (v : T) : M unit :=
  fun m =>
    match block_at m p with
    | Some (a, blk) =>
        match blk !! off p with
        | Some (Live _) => Ret tt (store a (<[off p := Live v]> blk) m)
        | _ => Undef
        end
    | None => Undef
    end.

(** Move construction of the object at [dst] from the one at [src], and
    copy construction. *)
Definition move_construct (src dst : ptr) : M unit :=
  v <- read src ;; construct_at dst v ;;; write src (moved_from v).

Definition copy_construct (src dst : ptr) : M unit :=
  v <- read src ;; construct_at dst v.

(** Move assignment of the object at [src] to the one at [dst], and copy
    assignment. *)
Definition move_assign (src dst : ptr) : M unit :=
  v <- read src ;; write dst v ;;; write src (moved_from v).

Definition copy_assign (src dst : ptr) : M unit :=
  v <- read src ;; write dst v.

(** ** The library algorithms of <memory> and <algorithm> *)

Definition assert (b : bool) : M unit :=
  fun m => if b then Ret tt m else Undef.

(** Does a range of [n] objects starting at [p] lie inside [p]'s block? *)
Definition in_block (m : mem T) (p : ptr) (n : N) : bool :=
  match block_at m p with
  | Some (_, blk) => (N.of_nat (off p) + n <=? N.of_nat (length blk))%N
  | None => false
  end.

(** A loop over [n] objects.  With [n = 0] nothing is touched, whatever the
    pointers are.  Otherwise every range must lie inside a block: a loop
    that runs off its block has undefined behaviour at the first object
    outside of it. *)
Definition for_n (n : N) (ranges : list ptr) (loop : nat -> M unit) : M unit :=
  fun m =>
    if (n =? 0)%N then Ret tt m
    else if forallb (fun p => in_block m p n) ranges then loop (N.to_nat n) m
    else Undef.

Fixpoint destroy_loop (p : ptr) (n : nat) : M unit :=
  match n with
  | 0 => ret tt
  | S k => destroy_at p ;;; destroy_loop (ptr_add p 1) k
  end.

Definition destroy_n (p : ptr) (n : N) : M unit :=
  for_n n [p] (destroy_loop p).

Fixpoint value_construct_loop (p : ptr) (n : nat) : M unit :=
  match n with
  | 0 => ret tt
  | S k => construct_at p value_init ;;; value_construct_loop (ptr_add p 1) k
  end.

Definition uninitialized_value_construct_n (p : ptr) (n : N) : M unit :=
  for_n n [p] (value_construct_loop p).

Fixpoint copy_loop (src dst : ptr) (n : nat) : M unit :=
  match n with
  | 0 => ret tt
  | S k =>
      v <- read src ;; construct_at dst v ;;; log (EvCopy v) ;;;
      copy_loop (ptr_add src 1) (ptr_add dst 1) k
  end.

Definition uninitialized_copy_n (src : ptr) (n : N) (dst : ptr) : M unit :=
  for_n n [src; dst] (copy_loop src dst).

Fixpoint move_loop (src dst : ptr) (n : nat) : M unit :=
  match n with
  | 0 => ret tt
  | S k =>
      v <- read src ;; construct_at dst v ;;; write src (moved_from v) ;;;
      log (EvMove v) ;;;
      move_loop (ptr_add src 1) (ptr_add dst 1) k
  end.

Definition uninitialized_move_n (src : ptr) (n : N) (dst : ptr) : M unit :=
  for_n n [src; dst] (move_loop src dst).

(** [last - first] for two pointers into one array; anything else is
    undefined. *)
Definition ptr_diff (last first : ptr) : M nat :=
  fun m =>
    match base last, base first with
    | Some a, Some b =>
        if (a =? b)%nat && (off first <=? off last)%nat
        then Ret (off last - off first) m else Undef
    | None, None =>
        if (off first <=? off last)%nat
        then Ret (off last - off first) m else Undef
    | _, _ => Undef
    end.

(** [p - k]; a pointer before the start of its array cannot be formed. *)
Definition ptr_sub (p : ptr) (k : nat) : M ptr :=
  fun m =>
    if (k <=? off p)%nat then Ret (Ptr (base p) (off p - k)) m else Undef.

Definition ptr_eqb (p q : ptr) : bool :=
  match base p, base q with
  | Some a, Some b => (a =? b)%nat && (off p =? off q)%nat
  | None, None => (off p =? off q)%nat
  | _, _ => false
  end.

(** [std::move (first, last, d_first)]: move assignment, front to back. *)
Fixpoint move_assign_loop (src dst : ptr) (n : nat) : M unit :=
  match n with
  | 0 => ret tt
  | S k =>
      move_assign src dst ;;;
      move_assign_loop (ptr_add src 1) (ptr_add dst 1) k
  end.

Definition std_move (first last d_first : ptr) : M unit :=
  n <- ptr_diff last first ;;
  for_n (N.of_nat n) [first; d_first] (move_assign_loop first d_first).

(** [std::move_backward (first, last, d_last)]: move assignment, back to
    front; object [k] of the source goes to [d_last - n + k]. *)
Fixpoint move_backward_loop (first d_first : ptr) (n : nat) : M unit :=
  match n with
  | 0 => ret tt
  | S k =>
      move_assign (ptr_add first k) (ptr_add d_first k) ;;;
      move_backward_loop first d_first k
  end.

Definition std_move_backward (first last d_last : ptr) : M unit :=
  n <- ptr_diff last first ;;
  d_first <- ptr_sub d_last n ;;
  for_n (N.of_nat n) [first; d_first] (move_backward_loop first d_first).

(** ** RawMemory<T> *)

Record RawMemory : Type := MkRaw { buffer_ : option nat; capacity_ : nat }.

(** [Allocate] asks [operator new] for [n * sizeof (T)] bytes, a product
    computed in [size_t]: the block has room for [n] elements when the
    product does not wrap. *)
Definition fits_size_t (n : nat) : Prop :=
  (N.of_nat n * sizeof_T < 2 ^ 64)%N.

(** [Allocate]: raw storage for [n] elements, [nullptr] for [n = 0]; the
    block has [n] slots, which is what [operator new] gives for
    [fits_size_t n]. *)
Definition allocated (n : nat) (m : mem T) : mem T :=
  Mem (cells m ++ [Some (replicate n Uninit)])
      (trace m ++ [EvAlloc (length (cells m)) n]).

Definition Allocate (n : nat) : M (option nat) :=
  fun m =>
    if (n =? 0)%nat then Ret None m
    else Ret (Some (length (cells m))) (allocated n m).

(** [Deallocate]: [operator delete]; nothing happens for [nullptr], and a
    block can be released once. *)
Definition freed (a : nat) (m : mem T) : mem T :=
  Mem (<[a := None]> (cells m)) (trace m ++ [EvFree a]).

Definition Deallocate (buf : option nat) : M unit :=
  fun m =>
    match buf with
    | None => Ret tt m
    | Some a =>
        match cells m !! a with
        | Some (Some _) => Ret tt (freed a m)
        | _ => Undef
        end
    end.

Definition RawMemory_default : RawMemory := MkRaw None 0.

Definition RawMemory_new (capacity : nat) : M RawMemory :=
  buf <- Allocate capacity ;; ret (MkRaw buf capacity).

Definition RawMemory_dtor (r : RawMemory) : M unit :=
  Deallocate (buffer_ r).

(** The move constructor: the new object and what is left of [other]. *)
Definition RawMemory_move (other : RawMemory) : RawMemory * RawMemory :=
  (MkRaw (buffer_ other) (capacity_ other), MkRaw None 0).

(** The statements of the move assignment operator which follow its
    self-assignment test.  [~RawMemory ();] is taken for the destructor call
    on the object assigned to which it stands for; the four stores follow.
    As C++ reads the statement it is [operator~] applied to a temporary,
    which the class does not declare, so the release and the transfer are
    the model's reading only; what is proved of the operator rests on the
    missing [return], not on this body. *)
Definition RawMemory_move_assign_body (this rhs : RawMemory)
  : M (RawMemory * RawMemory) :=
  RawMemory_dtor this ;;;
  let this := MkRaw (buffer_ rhs) (capacity_ this) in
  let this := MkRaw (buffer_ this) (capacity_ rhs) in
  let rhs := MkRaw None (capacity_ rhs) in
  let rhs := MkRaw (buffer_ rhs) 0 in
  ret (this, rhs).

(** [operator= (RawMemory&&)].  [self] says whether [this == &rhs].  On the
    other path control reaches the closing brace of a function which
    returns [RawMemory&] without a [return] statement. *)
Definition RawMemory_move_assign (self : bool) (this rhs : RawMemory)
  : M (RawMemory * RawMemory) :=
  if self then ret (this, this)
  else
    _ <- RawMemory_move_assign_body this rhs ;;
    undefined.

(** [operator+], with its assertion. *)
Definition RawMemory_plus (r : RawMemory) (offset : nat) : M ptr :=
  assert (offset <=? capacity_ r)%nat ;;;
  ret (Ptr (buffer_ r) offset).

(** [operator[]], with its assertion; the result is the reference. *)
Definition RawMemory_index (r : RawMemory) (index : nat) : M ptr :=
  assert (index <? capacity_ r)%nat ;;;
  ret (Ptr (buffer_ r) index).

Definition RawMemory_Swap (this other : RawMemory) : RawMemory * RawMemory :=
  (MkRaw (buffer_ other) (capacity_ other),
   MkRaw (buffer_ this) (capacity_ this)).

Definition GetAddress (r : RawMemory) : ptr := Ptr (buffer_ r) 0.

(** ** Vector<T> *)

Record Vector : Type := MkVec { data_ : RawMemory; size_ : nat }.

Definition Capacity (v : Vector) : nat := capacity_ (data_ v).

Definition Size (v : Vector) : nat := size_ v.

Definition begin (v : Vector) : ptr := GetAddress (data_ v).

Definition end_ (v : Vector) : M ptr := RawMemory_plus (data_ v) (size_ v).

Definition Vector_default : Vector := MkVec RawMemory_default 0.

(** [explicit Vector (size_t size)]. *)
Definition Vector_new (size : nat) : M Vector :=
  d <- RawMemory_new size ;;
  uninitialized_value_construct_n (GetAddress d) (N.of_nat size) ;;;
  ret (MkVec d size).

(** The copy constructor. *)
Definition Vector_copy (other : Vector) : M Vector :=
  d <- RawMemory_new (size_ other) ;;
  uninitialized_copy_n (GetAddress (data_ other)) (N.of_nat (size_ other))
                       (GetAddress d) ;;;
  ret (MkVec d (size_ other)).

(** The move constructor: the new vector and what is left of [other]. *)
Definition Vector_move (other : Vector) : Vector * Vector :=
  let '(d, od) := RawMemory_move (data_ other) in
  (MkVec d (size_ other), MkVec od 0).

(** The destructor, followed by the destructor of the member [data_]. *)
Definition Vector_dtor (v : Vector) : M unit :=
  destroy_n (GetAddress (data_ v)) (N.of_nat (size_ v)) ;;;
  RawMemory_dtor (data_ v).

Definition Swap (this other : Vector) : Vector * Vector :=
  let '(d, od) := RawMemory_Swap (data_ this) (data_ other) in
  (MkVec d (size_ other), MkVec od (size_ this)).

(** The condition of the three [if constexpr] statements. *)
Definition relocate_by_move : bool :=
  is_nothrow_move_constructible || negb is_copy_constructible.

Definition Reserve (this : Vector) (new_capacity : nat) : M Vector :=
  if (new_capacity <=? Capacity this)%nat then ret this
  else
    new_data <- RawMemory_new new_capacity ;;
    (if relocate_by_move
     then uninitialized_move_n (GetAddress (data_ this))
            (N.of_nat (size_ this)) (GetAddress new_data)
     else uninitialized_copy_n (GetAddress (data_ this))
            (N.of_nat (size_ this)) (GetAddress new_data)) ;;;
    destroy_n (GetAddress (data_ this)) (N.of_nat (size_ this)) ;;;
    let '(d, new_data) := RawMemory_Swap (data_ this) new_data in
    RawMemory_dtor new_data ;;;
    ret (MkVec d (size_ this)).

(** [operator[]] of the vector, with its assertion. *)
Definition Vector_index (this : Vector) (index : nat) : M ptr :=
  assert (index <? size_ this)%nat ;;;
  RawMemory_index (data_ this) index.

Definition Resize (this : Vector) (new_size : nat) : M Vector :=
  if (new_size <? size_ this)%nat then
    destroy_n (ptr_add (GetAddress (data_ this)) new_size)
              (size_sub (size_ this) new_size) ;;;
    ret (MkVec (data_ this) new_size)
  else if (size_ this <? new_size)%nat then
    this <- Reserve this new_size ;;
    uninitialized_value_construct_n
      (ptr_add (GetAddress (data_ this)) (size_ this))
      (size_sub new_size (size_ this)) ;;;
    ret (MkVec (data_ this) new_size)
  else ret this.

(** [--size_] is a [size_t] decrement; it is reached with a positive
    [size_] only, since forming [GetAddress () + size_ - 1] comes first. *)
Definition PopBack (this : Vector) : M Vector :=
  p <- ptr_sub (ptr_add (GetAddress (data_ this)) (size_ this)) 1 ;;
  destroy_n p 1 ;;;
  ret (MkVec (data_ this) (size_ this - 1)).

(** [new (p) T (T (args...))]: the constructor runs, and may throw, before
    anything is written to the slot. *)
Definition emplace_at (p : ptr) (r : option T) : M unit :=
  match r with
  | Some v => construct_at p v
  | None => throw
  end.

(** [EmplaceBack], on the outcome [r] of [T (args...)].  [new_vector] is a
    local of the growth branch: when the constructor throws its destructor
    runs, with the [size_] it has been given by then. *)
Definition EmplaceBack_with (this : Vector) (r : option T)
  : M (Vector * ptr) :=
  if (size_ this =? Capacity this)%nat then
    new_vector <- Reserve Vector_default
                    (if (size_ this =? 0)%nat then 1 else size_ this * 2) ;;
    let new_vector := MkVec (data_ new_vector) (size_ this) in
    elem_pointer <-
      on_unwind
        (p <- RawMemory_plus (data_ new_vector) (size_ this) ;;
         emplace_at p r ;;;
         (if relocate_by_move
          then uninitialized_move_n (GetAddress (data_ this))
                 (N.of_nat (size_ this)) (GetAddress (data_ new_vector))
          else uninitialized_copy_n (GetAddress (data_ this))
                 (N.of_nat (size_ this)) (GetAddress (data_ new_vector))) ;;;
         ret p)
        (Vector_dtor new_vector) ;;
    let '(this, new_vector) := Swap this new_vector in
    Vector_dtor new_vector ;;;
    ret (MkVec (data_ this) (size_ this + 1), elem_pointer)
  else
    p <- RawMemory_plus (data_ this) (size_ this) ;;
    emplace_at p r ;;;
    ret (MkVec (data_ this) (size_ this + 1), p).

Definition EmplaceBack (this : Vector) (args : Args) : M (Vector * ptr) :=
  EmplaceBack_with this (construct_from args).

(** Both [PushBack] overloads: the new element is copy or move constructed
    from [value]; nothing is returned. *)
Definition PushBack (this : Vector) (value : T) : M Vector :=
  r <- EmplaceBack_with this (Some value) ;; ret (fst r).

(** [new T (T (args...))]: storage for one object from the free store.  When
    the constructor throws, the new-expression releases the storage. *)
Definition new_object (r : option T) : M ptr :=
  buf <- Allocate 1 ;;
  match r with
  | Some v => construct_at (Ptr buf 0) v ;;; ret (Ptr buf 0)
  | None => Deallocate buf ;;; throw
  end.

Definition Emplace_with (this : Vector) (pos : ptr) (r : option T)
  : M (Vector * ptr) :=
  index <- ptr_diff pos (GetAddress (data_ this)) ;;
  e <- end_ this ;;
  this <-
    (if ptr_eqb pos e then
       res <- EmplaceBack_with this r ;; ret (fst res)
     else
       this <-
         (if (size_ this =? Capacity this)%nat then
            new_vector <- Reserve Vector_default
                            (if (size_ this =? 0)%nat then 1
                             else size_ this * 2) ;;
            let new_vector := MkVec (data_ new_vector) (size_ this) in
            on_unwind
              (emplace_at (ptr_add (begin new_vector) index) r ;;;
               if relocate_by_move then
                 uninitialized_move_n (begin this) (N.of_nat index)
                                      (begin new_vector) ;;;
                 uninitialized_move_n (ptr_add (begin this) index)
                   (size_sub (size_ this) index)
                   (ptr_add (ptr_add (begin new_vector) index) 1)
               else
                 uninitialized_copy_n (begin this) (N.of_nat index)
                                      (begin new_vector) ;;;
                 uninitialized_copy_n (ptr_add (begin this) index)
                   (size_sub (size_ this) index)
                   (ptr_add (ptr_add (begin new_vector) index) 1))
              (Vector_dtor new_vector) ;;;
            let '(this, new_vector) := Swap this new_vector in
            Vector_dtor new_vector ;;;
            ret this
          else
            elem_pointer <- new_object r ;;
            e <- end_ this ;;
            last <- ptr_sub e 1 ;;
            move_construct last e ;;;
            std_move_backward (ptr_add (begin this) index) last e ;;;
            std_move elem_pointer (ptr_add elem_pointer 1)
                     (ptr_add (begin this) index) ;;;
            destroy_n elem_pointer 1 ;;;
            ret this) ;;
       ret (MkVec (data_ this) (size_ this + 1))) ;;
  ret (this, ptr_add (begin this) index).

Definition Emplace (this : Vector) (pos : ptr) (args : Args)
  : M (Vector * ptr) :=
  Emplace_with this pos (construct_from args).

(** Both [Insert] overloads. *)
Definition Insert (this : Vector) (pos : ptr) (value : T)
  : M (Vector * ptr) :=
  Emplace_with this pos (Some value).

Definition Erase (this : Vector) (pos : ptr) : M (Vector * ptr) :=
  index <- ptr_diff pos (GetAddress (data_ this)) ;;
  e <- end_ this ;;
  std_move (ptr_add (ptr_add (begin this) index) 1) e
           (ptr_add (begin this) index) ;;;
  this <- PopBack this ;;
  ret (this, ptr_add (begin this) index).

(** [for (size_t i = 0; i != n; ++i) data_[i] = rhs.data_[i];], from
    index [i] on. *)
Fixpoint assign_elements (this rhs : Vector) (i n : nat) : M unit :=
  match n with
  | 0 => ret tt
  | S k =>
      dst <- RawMemory_index (data_ this) i ;;
      src <- RawMemory_index (data_ rhs) i ;;
      copy_assign src dst ;;;
      assign_elements this rhs (S i) k
  end.

(** [operator= (const Vector&)]; [self] says whether [this == &rhs]. *)
Definition Vector_copy_assign (self : bool) (this rhs : Vector) : M Vector :=
  if negb self then
    if (Capacity this <? size_ rhs)%nat then
      rhs_copy <- Vector_copy rhs ;;
      let '(this, rhs_copy) := Swap this rhs_copy in
      Vector_dtor rhs_copy ;;;
      ret this
    else if (size_ rhs <? size_ this)%nat then
      assign_elements this rhs 0 (size_ rhs) ;;;
      destroy_n (ptr_add (GetAddress (data_ this)) (size_ rhs))
                (size_sub (size_ this) (size_ rhs)) ;;;
      ret (MkVec (data_ this) (size_ rhs))
    else
      assign_elements this rhs 0 (size_ this) ;;;
      uninitialized_copy_n
        (ptr_add (GetAddress (data_ rhs)) (size_ this))
        (size_sub (size_ rhs) (size_ this))
        (ptr_add (GetAddress (data_ this)) (size_ this)) ;;;
      ret (MkVec (data_ this) (size_ rhs))
  else ret this.

(** [operator= (Vector&&)]: the vector assigned to and what is left of
    [rhs].  In the second branch [Swap] has run when the arguments of
    [destroy_n] are evaluated. *)
Definition Vector_move_assign (self : bool) (this rhs : Vector)
  : M (Vector * Vector) :=
  if negb self then
    if (Capacity this <? size_ rhs)%nat then
      let '(rhs_copy, rhs) := Vector_move rhs in
      let '(this, rhs_copy) := Swap this rhs_copy in
      Vector_dtor rhs_copy ;;;
      ret (this, rhs)
    else if (size_ rhs <? size_ this)%nat then
      let '(this, rhs) := Swap this rhs in
      destroy_n (ptr_add (GetAddress (data_ this)) (size_ rhs))
                (size_sub (size_ this) (size_ rhs)) ;;;
      ret (this, rhs)
    else
      let '(this, rhs) := Swap this rhs in
      ret (this, rhs)
  else ret (this, this).

(** ** Observing a vector *)

(** The live elements [v[0]], ..., [v[Size () - 1]], read in index order;
    [None] when one of them is not a live object. *)
Fixpoint live_prefix (n : nat) (blk : block T) : option (list T) :=
  match n with
  | 0 => Some []
  | S k =>
      match blk with
      | Live x :: rest =>
          match live_prefix k rest with
          | Some xs => Some (x :: xs)
          | None => None
          end
      | _ => None
      end
  end.

Definition elements (m : mem T) (v : Vector) : option (list T) :=
  match size_ v with
  | 0 => Some []
  | S _ =>
      match block_at m (begin v) with
      | Some (_, blk) => live_prefix (size_ v) blk
      | None => None
      end
  end.

(** [v] is a well-formed vector holding [xs]: its block has [Capacity ()]
    slots, the first [Size ()] of them live with the values [xs], the others
    raw; a vector without a block has capacity 0. *)
Definition owns (m : mem T) (v : Vector) (xs : list T) : Prop :=
  size_ v = length xs /\
  length xs <= Capacity v /\
  match buffer_ (data_ v) with
  | Some a =>
      cells m !! a =
      Some (Some (map Live xs ++ replicate (Capacity v - length xs) Uninit))
  | None => Capacity v = 0
  end.

(** ** Programs over several vectors *)

(** The public interface.  Vectors are named by their index in the list of
    the objects constructed so far; positions are offsets from [begin ()]. *)
Inductive op : Type :=
| OpDefault
| OpNew (n : nat)
| OpCopy (j : nat)
| OpMove (j : nat)
| OpCopyAssign (i j : nat)
| OpMoveAssign (i j : nat)
| OpSwap (i j : nat)
| OpReserve (i n : nat)
| OpResize (i n : nat)
| OpPushBack (i : nat) (value : T)
| OpEmplaceBack (i : nat) (args : Args)
| OpPopBack (i : nat)
| OpInsert (i pos : nat) (value : T)
| OpEmplace (i pos : nat) (args : Args)
| OpErase (i pos : nat).

(** What a call hands back: nothing, a [T&], an iterator, or [*this]. *)
Inductive returned : Type :=
| RetVoid
| RetRef (p : ptr)
| RetIter (p : ptr)
| RetThis (i : nat).

Definition object (vs : list Vector) (i : nat) : M Vector :=
  match vs !! i with
  | Some v => ret v
  | None => undefined
  end.

(** One call.  A call which throws leaves the objects as they were: the
    only throwing step, the construction of the new element, comes before
    any member of [*this] is assigned. *)
Definition step (vs : list Vector) (o : op) : M (list Vector * returned) :=
  match o with
  | OpDefault => ret (vs ++ [Vector_default], RetVoid)
  | OpNew n => v <- Vector_new n ;; ret (vs ++ [v], RetVoid)
  | OpCopy j =>
      other <- object vs j ;; v <- Vector_copy other ;;
      ret (vs ++ [v], RetVoid)
  | OpMove j =>
      other <- object vs j ;;
      let '(v, other) := Vector_move other in
      ret (<[j := other]> vs ++ [v], RetVoid)
  | OpCopyAssign i j =>
      this <- object vs i ;; rhs <- object vs j ;;
      this <- Vector_copy_assign (i =? j)%nat this rhs ;;
      ret (<[i := this]> vs, RetThis i)
  | OpMoveAssign i j =>
      this <- object vs i ;; rhs <- object vs j ;;
      r <- Vector_move_assign (i =? j)%nat this rhs ;;
      ret (<[i := fst r]> (<[j := snd r]> vs), RetThis i)
  | OpSwap i j =>
      this <- object vs i ;; other <- object vs j ;;
      let '(this, other) := Swap this other in
      ret (<[i := this]> (<[j := other]> vs), RetVoid)
  | OpReserve i n =>
      this <- object vs i ;; this <- Reserve this n ;;
      ret (<[i := this]> vs, RetVoid)
  | OpResize i n =>
      this <- object vs i ;; this <- Resize this n ;;
      ret (<[i := this]> vs, RetVoid)
  | OpPushBack i value =>
      this <- object vs i ;; this <- PushBack this value ;;
      ret (<[i := this]> vs, RetVoid)
  | OpEmplaceBack i args =>
      this <- object vs i ;; r <- EmplaceBack this args ;;
      ret (<[i := fst r]> vs, RetRef (snd r))
  | OpPopBack i =>
      this <- object vs i ;; this <- PopBack this ;;
      ret (<[i := this]> vs, RetVoid)
  | OpInsert i pos value =>
      this <- object vs i ;;
      r <- Insert this (ptr_add (begin this) pos) value ;;
      ret (<[i := fst r]> vs, RetIter (snd r))
  | OpEmplace i pos args =>
      this <- object vs i ;;
      r <- Emplace this (ptr_add (begin this) pos) args ;;
      ret (<[i := fst r]> vs, RetIter (snd r))
  | OpErase i pos =>
      this <- object vs i ;;
      r <- Erase this (ptr_add (begin this) pos) ;;
      ret (<[i := fst r]> vs, RetIter (snd r))
  end.

(** The states a program can be in: after any number of calls which
    returned or threw. *)
Inductive reachable : list Vector -> mem T -> Prop :=
| reach_start : reachable [] empty_mem
| reach_return vs m o vs' r m' :
    reachable vs m -> step vs o m = Ret (vs', r) m' -> reachable vs' m'
| reach_throw vs m o m' :
    reachable vs m -> step vs o m = Throw m' -> reachable vs m'.

(** ** Auxiliary values for the statements below *)

(** What is left in the last slot of a run after [std::move] has shifted
    it one slot to the left: the moved-from last element, or [x0] when
    nothing moved. *)
Fixpoint left_gap (x0 : T) (xs : list T) : T :=
  match xs with
  | [] => x0
  | x :: rest => left_gap (moved_from x) rest
  end.

(** What is left in the first slot of a run after [std::move_backward] has
    shifted it one slot to the right. *)
Definition right_gap (xs : list T) (z : T) : T :=
  match xs with
  | [] => z
  | x :: _ => moved_from x
  end.

(** The events of relocating [xs] under the element type's traits. *)
Definition relocation_events (xs : list T) : list (event T) :=
  map (if relocate_by_move then EvMove else EvCopy) xs.

(** A program of appends and removals on one vector. *)
Inductive stack_op : Type :=
| Push (value : T)
| Pop.

Fixpoint run_ops (this : Vector) (ops : list stack_op) : M Vector :=
  match ops with
  | [] => ret this
  | Push value :: rest => this <- PushBack this value ;; run_ops this rest
  | Pop :: rest => this <- PopBack this ;; run_ops this rest
  end.

(** [PopBack] is only called on a vector of positive size, [size] being
    the size before the program. *)
Fixpoint pops_allowed (size : nat) (ops : list stack_op) : bool :=
  match ops with
  | [] => true
  | Push _ :: rest => pops_allowed (S size) rest
  | Pop :: rest =>
      match size with
      | 0 => false
      | S k => pops_allowed k rest
      end
  end.

Fixpoint pushes (ops : list stack_op) : nat :=
  match ops with
  | [] => 0
  | Push _ :: rest => S (pushes rest)
  | Pop :: rest => pushes rest
  end.

Fixpoint pops (ops : list stack_op) : nat :=
  match ops with
  | [] => 0
  | Push _ :: rest => pops rest
  | Pop :: rest => S (pops rest)
  end.

(** The values pushed and not popped, in the order of their pushes, when
    [acc] are those of the calls made so far: a pop takes away the latest
    push that is still there. *)
Fixpoint survivors (acc : list T) (ops : list stack_op) : list T :=
  match ops with
  | [] => acc
  | Push value :: rest => survivors (acc ++ [value]) rest
  | Pop :: rest => survivors (removelast acc) rest
  end.

(** What a relocation routine does between two distinct blocks: the run
    [xs] of block [a] is constructed into raw slots of block [b], every
    source object is left as [lb] says, and one event per object is
    recorded. *)
Definition relocates (reloc : ptr -> N -> ptr -> M unit)
    (ev : T -> event T) (lb : T -> T) : Prop :=
  forall (m : mem T) a b i j n xs la1 la2 lb1 lb2,
    a <> b ->
    blk_at m a (la1 ++ map Live xs ++ la2) -> i = length la1 ->
    blk_at m b (lb1 ++ replicate (length xs) Uninit ++ lb2) ->
    j = length lb1 ->
    n = N.of_nat (length xs) ->
    reloc (Ptr (Some a) i) n (Ptr (Some b) j) m =
    Ret tt (add_trace (map ev xs)
              (store a (la1 ++ map Live (map lb xs) ++ la2)
                 (store b (lb1 ++ map Live xs ++ lb2) m))).

(** A program is a list of calls; [run_program] is the state it ends in,
    if no call has undefined behaviour.  A call which throws leaves the
    objects as they are and the program goes on. *)
Fixpoint run_program (prog : list op) (vs : list Vector) (m : mem T)
  : option (list Vector * mem T) :=
  match prog with
  | [] => Some (vs, m)
  | o :: rest =>
      match step vs o m with
      | Ret (vs', _) m' => run_program rest vs' m'
      | Throw m' => run_program rest vs m'
      | Undef => None
      end
  end.

(** The count a call takes from its caller, if it takes one, fits. *)
Definition op_fits (o : op) : Prop :=
  match o with
  | OpNew n | OpReserve _ n | OpResize _ n => fits_size_t n
  | _ => True
  end.

(** ** Which blocks a computation may touch *)

(** A buffer a computation may use: the block [a] it was given, or a block
    allocated after the first [n0]. *)
Definition own_buf (a : option nat) (n0 : nat) (buf : option nat) : Prop :=
  buf = a \/ forall c, buf = Some c -> n0 <= c.

(** [m'] has the blocks of [m], and the first [n0] of them other than [a]
    unchanged. *)
Definition same_elsewhere (a : option nat) (n0 : nat) (m m' : mem T) : Prop :=
  length (cells m) <= length (cells m') /\
  forall b, b < n0 -> a <> Some b -> cells m' !! b = cells m !! b.

(** Whatever [c] does on a memory of at least [n0] blocks, when it returns
    or throws it has left the first [n0] blocks other than [a] alone, and
    what it returns satisfies [Q]. *)
Definition confined {A : Type} (a : option nat) (n0 : nat) (c : M A)
    (Q : A -> Prop) : Prop :=
  forall m, n0 <= length (cells m) ->
    match c m with
    | Ret r m' => Q r /\ same_elsewhere a n0 m m'
    | Throw m' => same_elsewhere a n0 m m'
    | Undef => True
    end.

(** The object whose block a call may write to.  The constructors, the move
    constructor and [Swap] write to no block that exists; move assignment
    works on the blocks of two objects and is told apart by
    [is_move_assign]. *)
Definition written_by (o : op) : option nat :=
  match o with
  | OpDefault | OpNew _ | OpCopy _ | OpMove _ | OpSwap _ _ => None
  | OpCopyAssign i _ | OpMoveAssign i _ => Some i
  | OpReserve i _ | OpResize i _ | OpPushBack i _ | OpEmplaceBack i _
  | OpPopBack i | OpInsert i _ _ | OpEmplace i _ _ | OpErase i _ => Some i
  end.

Definition is_move_assign (o : op) : bool :=
  match o with
  | OpMoveAssign _ _ => true
  | _ => false
  end.


(** Distinct vectors of [vs] have distinct blocks. *)
Definition distinct_blocks (vs : list Vector) : Prop :=
  forall i j v w a, i <> j -> vs !! i = Some v -> vs !! j = Some w ->
    buffer_ (data_ v) = Some a -> buffer_ (data_ w) <> Some a.

(** Every vector of [vs] owns its elements in [m], in a block of its own. *)
Definition well_formed (vs : list Vector) (m : mem T) : Prop :=
  (forall i v, vs !! i = Some v -> exists xs, owns m v xs) /\
  distinct_blocks vs.

(** [c] does not throw on [m], and what it returns satisfies [Q]. *)
Definition outcome {A : Type} (c : M A) (m : mem T)
    (Q : A -> mem T -> Prop) : Prop :=
  match c m with
  | Ret r m' => Q r m'
  | Throw _ => False
  | Undef => True
  end.

(** * Facts *)

(** ** Memory and slots *)

Lemma insert_middle {A : Type} (l1 l2 : list A) (x y : A) (i : nat) :
  i = length l1 -> <[i := y]> (l1 ++ x :: l2) = l1 ++ y :: l2.
Proof.
  intros ->. rewrite insert_app_r_alt by lia.
  now rewrite Nat.sub_diag.
Qed.

Lemma blk_at_lt (m : mem T) a blk : blk_at m a blk -> a < length (cells m).
Proof. intros H. eapply lookup_lt_Some, H. Qed.

Lemma blk_at_store_eq (m : mem T) a blk blk' :
  blk_at m a blk -> blk_at (store a blk' m) a blk'.
Proof.
  intros H. unfold blk_at, store; simpl.
  apply list_lookup_insert_eq. eapply blk_at_lt, H.
Qed.

Lemma blk_at_store_ne (m : mem T) a b blk blk' :
  a <> b -> blk_at m b blk -> blk_at (store a blk' m) b blk.
Proof.
  intros Hne H. unfold blk_at, store; simpl.
  now rewrite list_lookup_insert_ne.
Qed.

Lemma blk_at_eq (m : mem T) a blk blk' :
  blk_at m a blk -> blk = blk' -> blk_at m a blk'.
Proof. now intros H <-. Qed.

Lemma blk_at_add_trace (m : mem T) es a blk :
  blk_at m a blk -> blk_at (add_trace es m) a blk.
Proof. exact id. Qed.

Lemma store_store (m : mem T) a b1 b2 :
  store a b2 (store a b1 m) = store a b2 m.
Proof. unfold store; simpl. now rewrite list_insert_insert_eq. Qed.

Lemma store_comm (m : mem T) a b ba bb :
  a <> b -> store a ba (store b bb m) = store b bb (store a ba m).
Proof.
  intros Hne. unfold store; simpl. f_equal.
  now apply list_insert_insert_ne.
Qed.

Lemma add_trace_add_trace (m : mem T) es1 es2 :
  add_trace es2 (add_trace es1 m) = add_trace (es1 ++ es2) m.
Proof. unfold add_trace; simpl. now rewrite app_assoc. Qed.

Lemma add_trace_nil (m : mem T) : add_trace [] m = m.
Proof. destruct m; unfold add_trace; simpl. now rewrite app_nil_r. Qed.

Lemma block_at_blk (m : mem T) a i blk :
  blk_at m a blk -> block_at m (Ptr (Some a) i) = Some (a, blk).
Proof. unfold blk_at, block_at; cbn [base]. now intros ->. Qed.

Lemma read_live (m : mem T) a i l1 v l2 :
  blk_at m a (l1 ++ Live v :: l2) -> i = length l1 ->
  read (Ptr (Some a) i) m = Ret v m.
Proof.
  intros H ->. unfold read. rewrite (block_at_blk _ _ _ _ H); cbn [off].
  now rewrite list_lookup_middle by reflexivity.
Qed.

Lemma construct_at_raw (m : mem T) a i l1 l2 v :
  blk_at m a (l1 ++ Uninit :: l2) -> i = length l1 ->
  construct_at (Ptr (Some a) i) v m = Ret tt (store a (l1 ++ Live v :: l2) m).
Proof.
  intros H ->. unfold construct_at. rewrite (block_at_blk _ _ _ _ H); cbn [off].
  rewrite list_lookup_middle by reflexivity.
  now rewrite insert_middle.
Qed.

Lemma destroy_at_live (m : mem T) a i l1 v l2 :
  blk_at m a (l1 ++ Live v :: l2) -> i = length l1 ->
  destroy_at (Ptr (Some a) i) m = Ret tt (store a (l1 ++ Uninit :: l2) m).
Proof.
  intros H ->. unfold destroy_at. rewrite (block_at_blk _ _ _ _ H); cbn [off].
  rewrite list_lookup_middle by reflexivity.
  now rewrite insert_middle.
Qed.

Lemma write_live (m : mem T) a i l1 w l2 v :
  blk_at m a (l1 ++ Live w :: l2) -> i = length l1 ->
  write (Ptr (Some a) i) v m = Ret tt (store a (l1 ++ Live v :: l2) m).
Proof.
  intros H ->. unfold write. rewrite (block_at_blk _ _ _ _ H); cbn [off].
  rewrite list_lookup_middle by reflexivity.
  now rewrite insert_middle.
Qed.

Lemma store_id (m : mem T) a blk : blk_at m a blk -> store a blk m = m.
Proof.
  intros H. destruct m as [cs tr]. unfold store; simpl in *.
  f_equal. now apply list_insert_id.
Qed.

Lemma bind_Ret {A B : Type} (c : M A) (k : A -> M B) (m m' : mem T) a :
  c m = Ret a m' -> bind c k m = k a m'.
Proof. unfold bind. now intros ->. Qed.

Lemma in_block_blk (m : mem T) a i k blk :
  blk_at m a blk -> i + k <= length blk ->
  in_block m (Ptr (Some a) i) (N.of_nat k) = true.
Proof.
  intros H Hle. unfold in_block. rewrite (block_at_blk _ _ _ _ H); cbn [off].
  apply N.leb_le. lia.
Qed.

Lemma for_n_zero ps loop (m : mem T) : for_n 0 ps loop m = Ret tt m.
Proof. reflexivity. Qed.

Lemma for_n_run n k ps loop (m : mem T) :
  n = N.of_nat k -> 0 < k ->
  Forall (fun p => in_block m p n = true) ps ->
  for_n n ps loop m = loop k m.
Proof.
  intros -> Hk Hin. unfold for_n.
  destruct (N.eqb_spec (N.of_nat k) 0) as [E|_]; [lia|].
  replace (forallb _ ps) with true.
  - now rewrite Nat2N.id.
  - symmetry. apply forallb_forall. intros p Hp.
    rewrite Forall_forall in Hin. apply Hin. now apply list_elem_of_In.
Qed.

(** ** The loops *)

Lemma destroy_loop_live xs : forall (m : mem T) a i l1 l2,
  blk_at m a (l1 ++ map Live xs ++ l2) -> i = length l1 ->
  destroy_loop (Ptr (Some a) i) (length xs) m =
  Ret tt (store a (l1 ++ replicate (length xs) Uninit ++ l2) m).
Proof.
  induction xs as [|x xs IH]; intros m a i l1 l2 H ->; simpl.
  - unfold ret. now rewrite store_id.
  - erewrite bind_Ret by (eapply destroy_at_live; [exact H|reflexivity]).
    unfold ptr_add; cbn [base off].
    erewrite (IH _ a _ (l1 ++ [Uninit]) l2).
    + rewrite store_store. now rewrite <- app_assoc.
    + eapply blk_at_store_eq in H. rewrite <- app_assoc. exact H.
    + rewrite length_app; simpl; lia.
Qed.

Lemma value_construct_loop_raw n : forall (m : mem T) a i l1 l2,
  blk_at m a (l1 ++ replicate n Uninit ++ l2) -> i = length l1 ->
  value_construct_loop (Ptr (Some a) i) n m =
  Ret tt (store a (l1 ++ replicate n (Live value_init) ++ l2) m).
Proof.
  induction n as [|n IH]; intros m a i l1 l2 H ->; simpl.
  - unfold ret. now rewrite store_id.
  - erewrite bind_Ret by (eapply construct_at_raw; [exact H|reflexivity]).
    unfold ptr_add; cbn [base off].
    erewrite (IH _ a _ (l1 ++ [Live value_init]) l2).
    + rewrite store_store. now rewrite <- app_assoc.
    + eapply blk_at_store_eq in H. rewrite <- app_assoc. exact H.
    + rewrite length_app; simpl; lia.
Qed.

Lemma copy_loop_blocks xs : forall (m : mem T) a b i j la1 la2 lb1 lb2,
  a <> b ->
  blk_at m a (la1 ++ map Live xs ++ la2) -> i = length la1 ->
  blk_at m b (lb1 ++ replicate (length xs) Uninit ++ lb2) -> j = length lb1 ->
  copy_loop (Ptr (Some a) i) (Ptr (Some b) j) (length xs) m =
  Ret tt (add_trace (map EvCopy xs)
            (store b (lb1 ++ map Live xs ++ lb2) m)).
Proof.
  induction xs as [|x xs IH]; intros m a b i j la1 la2 lb1 lb2 Hab Ha -> Hb ->;
    simpl.
  - unfold ret. now rewrite store_id, add_trace_nil.
  - erewrite bind_Ret by (eapply read_live; [exact Ha|reflexivity]).
    erewrite bind_Ret by (eapply construct_at_raw; [exact Hb|reflexivity]).
    erewrite bind_Ret by reflexivity.
    unfold ptr_add; cbn [base off].
    erewrite (IH _ a b _ _ (la1 ++ [Live x]) la2 (lb1 ++ [Live x]) lb2 Hab).
    + change (store ?c ?blk (add_trace ?es' ?m0))
        with (add_trace es' (store c blk m0)).
      rewrite add_trace_add_trace, store_store, <- app_assoc. reflexivity.
    + apply blk_at_add_trace, blk_at_store_ne; [congruence|].
      now rewrite <- app_assoc.
    + rewrite length_app; simpl; lia.
    + apply blk_at_add_trace. eapply blk_at_store_eq in Hb.
      rewrite <- app_assoc. exact Hb.
    + rewrite length_app; simpl; lia.
Qed.

Lemma store_over (m : mem T) a b A1 A2 B1 B2 :
  a <> b ->
  store a A2 (store b B2 (store a A1 (store b B1 m))) =
  store a A2 (store b B2 m).
Proof.
  intros Hab. unfold store; simpl. f_equal.
  rewrite (list_insert_insert_ne _ b a) by congruence.
  now rewrite !list_insert_insert_eq.
Qed.

Lemma move_loop_blocks xs : forall (m : mem T) a b i j la1 la2 lb1 lb2,
  a <> b ->
  blk_at m a (la1 ++ map Live xs ++ la2) -> i = length la1 ->
  blk_at m b (lb1 ++ replicate (length xs) Uninit ++ lb2) -> j = length lb1 ->
  move_loop (Ptr (Some a) i) (Ptr (Some b) j) (length xs) m =
  Ret tt (add_trace (map EvMove xs)
            (store a (la1 ++ map Live (map moved_from xs) ++ la2)
               (store b (lb1 ++ map Live xs ++ lb2) m))).
Proof.
  induction xs as [|x xs IH]; intros m a b i j la1 la2 lb1 lb2 Hab Ha -> Hb ->;
    simpl.
  - unfold ret. rewrite add_trace_nil.
    rewrite (store_id _ b) by exact Hb. now rewrite store_id.
  - erewrite bind_Ret by (eapply read_live; [exact Ha|reflexivity]).
    erewrite bind_Ret by (eapply construct_at_raw; [exact Hb|reflexivity]).
    erewrite bind_Ret
      by (eapply write_live;
          [apply blk_at_store_ne; [congruence|exact Ha]|reflexivity]).
    erewrite bind_Ret by reflexivity.
    unfold ptr_add; cbn [base off].
    erewrite (IH _ a b _ _ (la1 ++ [Live (moved_from x)]) la2
                (lb1 ++ [Live x]) lb2 Hab).
    + change (store ?c ?blk (add_trace ?es' ?m0))
        with (add_trace es' (store c blk m0)).
      change (store ?c ?blk (add_trace ?es' ?m0))
        with (add_trace es' (store c blk m0)).
      rewrite add_trace_add_trace, store_over by exact Hab.
      now rewrite <- !app_assoc.
    + apply blk_at_add_trace. rewrite <- app_assoc.
      eapply blk_at_store_eq, blk_at_store_ne; [congruence|exact Ha].
    + rewrite length_app; simpl; lia.
    + apply blk_at_add_trace, blk_at_store_ne; [congruence|].
      eapply blk_at_store_eq in Hb. rewrite <- app_assoc. exact Hb.
    + rewrite length_app; simpl; lia.
Qed.

(** ** Shifting a run of live objects inside one block *)

Lemma move_assign_left (m : mem T) a i l1 d x l2 :
  blk_at m a (l1 ++ Live d :: Live x :: l2) -> i = length l1 ->
  move_assign (Ptr (Some a) (S i)) (Ptr (Some a) i) m =
  Ret tt (store a (l1 ++ Live x :: Live (moved_from x) :: l2) m).
Proof.
  intros H ->. unfold move_assign.
  erewrite bind_Ret
    by (eapply read_live with (l1 := l1 ++ [Live d]);
        [rewrite <- app_assoc; exact H|rewrite length_app; simpl; lia]).
  erewrite bind_Ret by (eapply write_live; [exact H|reflexivity]).
  erewrite write_live with (l1 := l1 ++ [Live x]) (w := x) (l2 := l2).
  - now rewrite store_store, <- app_assoc.
  - rewrite <- app_assoc. eapply blk_at_store_eq, H.
  - rewrite length_app; simpl; lia.
Qed.

Lemma move_assign_right (m : mem T) a i l1 x d l2 :
  blk_at m a (l1 ++ Live x :: Live d :: l2) -> i = length l1 ->
  move_assign (Ptr (Some a) i) (Ptr (Some a) (S i)) m =
  Ret tt (store a (l1 ++ Live (moved_from x) :: Live x :: l2) m).
Proof.
  intros H ->. unfold move_assign.
  erewrite bind_Ret by (eapply read_live; [exact H|reflexivity]).
  erewrite bind_Ret
    by (eapply write_live with (l1 := l1 ++ [Live x]);
        [rewrite <- app_assoc; exact H|rewrite length_app; simpl; lia]).
  erewrite write_live with (l1 := l1) (w := x) (l2 := Live x :: l2).
  - now rewrite store_store.
  - rewrite <- app_assoc. eapply blk_at_store_eq, H.
  - reflexivity.
Qed.

Lemma move_assign_loop_left xs : forall (m : mem T) a i l1 x0 l2,
  blk_at m a (l1 ++ Live x0 :: map Live xs ++ l2) -> i = length l1 ->
  move_assign_loop (Ptr (Some a) (S i)) (Ptr (Some a) i) (length xs) m =
  Ret tt (store a (l1 ++ map Live xs ++ Live (left_gap x0 xs) :: l2) m).
Proof.
  induction xs as [|x xs IH]; intros m a i l1 x0 l2 H ->; simpl.
  - unfold ret. now rewrite store_id.
  - erewrite bind_Ret by (eapply move_assign_left; [exact H|reflexivity]).
    unfold ptr_add; cbn [base off].
    replace (S (length l1) + 1) with (S (length l1 + 1)) by lia.
    erewrite (IH _ a _ (l1 ++ [Live x]) (moved_from x) l2).
    + now rewrite store_store, <- app_assoc.
    + rewrite <- app_assoc. eapply blk_at_store_eq, H.
    + rewrite length_app; simpl; lia.
Qed.

Lemma move_backward_loop_right xs : forall (m : mem T) a i l1 z l2,
  blk_at m a (l1 ++ map Live xs ++ Live z :: l2) -> i = length l1 ->
  move_backward_loop (Ptr (Some a) i) (Ptr (Some a) (S i)) (length xs) m =
  Ret tt (store a (l1 ++ Live (right_gap xs z) :: map Live xs ++ l2) m).
Proof.
  induction xs as [|x xs IH] using rev_ind; intros m a i l1 z l2 H ->.
  - simpl. unfold ret. now rewrite store_id.
  - rewrite length_app, Nat.add_comm. simpl.
    rewrite map_app, <- app_assoc in H. simpl in H.
    erewrite bind_Ret.
    2:{ unfold ptr_add; cbn [base off].
        replace (S (length l1) + length xs) with (S (length l1 + length xs))
          by lia.
        eapply move_assign_right with (l1 := l1 ++ map Live xs).
        - rewrite <- app_assoc. exact H.
        - rewrite length_app, length_map. reflexivity. }
    erewrite (IH _ a _ l1 (moved_from x) (Live x :: l2)).
    + rewrite store_store. f_equal. f_equal. f_equal.
      rewrite map_app, <- app_assoc. simpl.
      f_equal. destruct xs; reflexivity.
    + rewrite <- app_assoc. eapply blk_at_store_eq, H.
    + reflexivity.
Qed.

(** ** The algorithms *)

Lemma in_block_range (m : mem T) a i k l1 mid l2 :
  blk_at m a (l1 ++ mid ++ l2) -> i = length l1 -> k = length mid ->
  in_block m (Ptr (Some a) i) (N.of_nat k) = true.
Proof.
  intros H -> ->. eapply in_block_blk; [exact H|].
  rewrite !length_app. lia.
Qed.

Lemma destroy_n_live (m : mem T) a i n xs l1 l2 :
  blk_at m a (l1 ++ map Live xs ++ l2) -> i = length l1 ->
  n = N.of_nat (length xs) ->
  destroy_n (Ptr (Some a) i) n m =
  Ret tt (store a (l1 ++ replicate (length xs) Uninit ++ l2) m).
Proof.
  intros H -> ->. unfold destroy_n. destruct xs as [|x xs].
  - rewrite for_n_zero. now rewrite store_id.
  - erewrite for_n_run; [|reflexivity|simpl; lia|].
    + eapply destroy_loop_live; [exact H|reflexivity].
    + repeat constructor. eapply in_block_range; [exact H|reflexivity|].
      now rewrite length_map.
Qed.

Lemma uninitialized_value_construct_n_raw (m : mem T) a i n k l1 l2 :
  blk_at m a (l1 ++ replicate k Uninit ++ l2) -> i = length l1 ->
  n = N.of_nat k ->
  uninitialized_value_construct_n (Ptr (Some a) i) n m =
  Ret tt (store a (l1 ++ replicate k (Live value_init) ++ l2) m).
Proof.
  intros H -> ->. unfold uninitialized_value_construct_n.
  destruct k as [|k].
  - rewrite for_n_zero. now rewrite store_id.
  - erewrite for_n_run; [|reflexivity|lia|].
    + eapply value_construct_loop_raw; [exact H|reflexivity].
    + repeat constructor. eapply in_block_range; [exact H|reflexivity|].
      now rewrite length_replicate.
Qed.

Lemma uninitialized_copy_n_blocks (m : mem T) a b i j n xs la1 la2 lb1 lb2 :
  a <> b ->
  blk_at m a (la1 ++ map Live xs ++ la2) -> i = length la1 ->
  blk_at m b (lb1 ++ replicate (length xs) Uninit ++ lb2) -> j = length lb1 ->
  n = N.of_nat (length xs) ->
  uninitialized_copy_n (Ptr (Some a) i) n (Ptr (Some b) j) m =
  Ret tt (add_trace (map EvCopy xs) (store b (lb1 ++ map Live xs ++ lb2) m)).
Proof.
  intros Hab Ha -> Hb -> ->. unfold uninitialized_copy_n.
  destruct xs as [|x xs].
  - rewrite for_n_zero. now rewrite store_id, add_trace_nil.
  - erewrite for_n_run; [|reflexivity|simpl; lia|].
    + eapply copy_loop_blocks; [exact Hab|exact Ha|reflexivity|exact Hb|reflexivity].
    + repeat constructor.
      * eapply in_block_range; [exact Ha|reflexivity|].
        now rewrite length_map.
      * eapply in_block_range; [exact Hb|reflexivity|].
        now rewrite length_replicate.
Qed.

Lemma uninitialized_move_n_blocks (m : mem T) a b i j n xs la1 la2 lb1 lb2 :
  a <> b ->
  blk_at m a (la1 ++ map Live xs ++ la2) -> i = length la1 ->
  blk_at m b (lb1 ++ replicate (length xs) Uninit ++ lb2) -> j = length lb1 ->
  n = N.of_nat (length xs) ->
  uninitialized_move_n (Ptr (Some a) i) n (Ptr (Some b) j) m =
  Ret tt (add_trace (map EvMove xs)
            (store a (la1 ++ map Live (map moved_from xs) ++ la2)
               (store b (lb1 ++ map Live xs ++ lb2) m))).
Proof.
  intros Hab Ha -> Hb -> ->. unfold uninitialized_move_n.
  destruct xs as [|x xs].
  - rewrite for_n_zero. rewrite add_trace_nil.
    rewrite (store_id _ b) by exact Hb. now rewrite store_id.
  - erewrite for_n_run; [|reflexivity|simpl; lia|].
    + eapply move_loop_blocks; [exact Hab|exact Ha|reflexivity|exact Hb|reflexivity].
    + repeat constructor.
      * eapply in_block_range; [exact Ha|reflexivity|].
        now rewrite length_map.
      * eapply in_block_range; [exact Hb|reflexivity|].
        now rewrite length_replicate.
Qed.

(** ** Allocation *)

Lemma Allocate_pos (m : mem T) n :
  0 < n -> Allocate n m = Ret (Some (length (cells m))) (allocated n m).
Proof.
  intros Hn. unfold Allocate.
  destruct (Nat.eqb_spec n 0); [lia|reflexivity].
Qed.

Lemma blk_at_allocated_new (m : mem T) n :
  blk_at (allocated n m) (length (cells m)) (replicate n Uninit).
Proof.
  unfold blk_at, allocated; simpl.
  now rewrite list_lookup_middle.
Qed.

Lemma blk_at_allocated_old (m : mem T) n a blk :
  blk_at m a blk -> blk_at (allocated n m) a blk.
Proof.
  intros H. unfold blk_at, allocated; simpl.
  now apply lookup_app_l_Some.
Qed.

Lemma Deallocate_blk (m : mem T) a blk :
  blk_at m a blk -> Deallocate (Some a) m = Ret tt (freed a m).
Proof. unfold blk_at, Deallocate. now intros ->. Qed.

Lemma blk_at_freed_ne (m : mem T) a b blk :
  a <> b -> blk_at m b blk -> blk_at (freed a m) b blk.
Proof.
  intros Hne H. unfold blk_at, freed; simpl.
  now rewrite list_lookup_insert_ne.
Qed.

Lemma replicate_split {A : Type} (x : A) k n :
  k <= n -> replicate n x = replicate k x ++ replicate (n - k) x.
Proof.
  intros Hle. rewrite <- replicate_add. f_equal. lia.
Qed.

Lemma RawMemory_new_pos (m : mem T) n :
  0 < n ->
  RawMemory_new n m = Ret (MkRaw (Some (length (cells m))) n) (allocated n m).
Proof.
  intros Hn. unfold RawMemory_new.
  now erewrite bind_Ret by (apply Allocate_pos, Hn).
Qed.

Lemma Reserve_default (m : mem T) k :
  0 < k ->
  Reserve Vector_default k m =
  Ret (MkVec (MkRaw (Some (length (cells m))) k) 0) (allocated k m).
Proof.
  intros Hk. unfold Reserve, Capacity; simpl.
  destruct (Nat.leb_spec k 0); [lia|].
  erewrite bind_Ret by (apply RawMemory_new_pos, Hk).
  unfold bind, ret. simpl.
  now destruct relocate_by_move.
Qed.

(** ** Reserve *)

Lemma Reserve_noop (m : mem T) v n :
  n <= Capacity v -> Reserve v n m = Ret v m.
Proof.
  intros Hle. unfold Reserve.
  destruct (Nat.leb_spec n (Capacity v)); [reflexivity|lia].
Qed.

Lemma owns_null (m : mem T) d sz xs :
  owns m (MkVec (MkRaw None d) sz) xs -> d = 0 /\ sz = 0 /\ xs = [].
Proof.
  unfold owns, Capacity; simpl. intros (Hsz & Hle & Hd). subst d.
  destruct xs; simpl in *; [auto|lia].
Qed.

Lemma owns_block (m : mem T) a cap sz xs :
  sz = length xs -> length xs <= cap ->
  blk_at m a (map Live xs ++ replicate (cap - length xs) Uninit) ->
  owns m (MkVec (MkRaw (Some a) cap) sz) xs.
Proof. intros -> Hle H. repeat split; assumption. Qed.

Lemma Reserve_grow (m : mem T) v xs n :
  owns m v xs -> Capacity v < n ->
  exists m',
    Reserve v n m =
      Ret (MkVec (MkRaw (Some (length (cells m))) n) (size_ v)) m' /\
    owns m' (MkVec (MkRaw (Some (length (cells m))) n) (size_ v)) xs /\
    trace m' =
      trace m ++ EvAlloc (length (cells m)) n :: relocation_events xs ++
      match buffer_ (data_ v) with Some a => [EvFree a] | None => [] end.
Proof.
  intros Hown Hlt. destruct v as [[[a|] cap] sz].
  - destruct Hown as (Hsz & Hle & Hb). unfold Capacity in *. simpl in *.
    subst sz.
    assert (Hn : 0 < n) by lia.
    assert (Ha : a < length (cells m)) by (eapply blk_at_lt, Hb).
    set (a' := length (cells m)) in *.
    assert (Haa : a <> a') by lia.
    assert (Hb1 : blk_at (allocated n m) a
                    ([] ++ map Live xs ++ replicate (cap - length xs) Uninit))
      by (apply blk_at_allocated_old, Hb).
    assert (Hb2 : blk_at (allocated n m) a'
                    ([] ++ replicate (length xs) Uninit ++
                     replicate (n - length xs) Uninit)).
    { simpl. rewrite <- replicate_split by lia. apply blk_at_allocated_new. }
    unfold Reserve, Capacity; simpl.
    destruct (Nat.leb_spec n cap); [lia|].
    erewrite bind_Ret by (apply RawMemory_new_pos, Hn).
    fold a'. unfold GetAddress; simpl.
    unfold relocation_events. destruct relocate_by_move.
    + erewrite bind_Ret
        by (eapply uninitialized_move_n_blocks;
            [exact Haa|exact Hb1|reflexivity|exact Hb2|reflexivity
            |reflexivity]).
      erewrite bind_Ret.
      2:{ eapply destroy_n_live with (l1 := []) (xs := map moved_from xs).
          - apply blk_at_add_trace. eapply blk_at_store_eq.
            apply blk_at_store_ne; [congruence|exact Hb1].
          - reflexivity.
          - now rewrite length_map. }
      erewrite bind_Ret.
      2:{ eapply Deallocate_blk. eapply blk_at_store_eq.
          apply blk_at_add_trace. eapply blk_at_store_eq.
          apply blk_at_store_ne; [congruence|exact Hb1]. }
      eexists. split; [reflexivity|]. split.
      * apply owns_block; [reflexivity|lia|].
        apply blk_at_freed_ne; [exact Haa|].
        apply blk_at_store_ne; [exact Haa|].
        apply blk_at_add_trace.
        apply blk_at_store_ne; [exact Haa|].
        eapply blk_at_store_eq, Hb2.
      * simpl. now rewrite <- !app_assoc.
    + erewrite bind_Ret
        by (eapply uninitialized_copy_n_blocks;
            [exact Haa|exact Hb1|reflexivity|exact Hb2|reflexivity
            |reflexivity]).
      erewrite bind_Ret.
      2:{ eapply destroy_n_live with (l1 := []) (xs := xs).
          - apply blk_at_add_trace.
            apply blk_at_store_ne; [congruence|exact Hb1].
          - reflexivity.
          - reflexivity. }
      erewrite bind_Ret.
      2:{ eapply Deallocate_blk. eapply blk_at_store_eq.
          apply blk_at_add_trace.
          apply blk_at_store_ne; [congruence|exact Hb1]. }
      eexists. split; [reflexivity|]. split.
      * apply owns_block; [reflexivity|lia|].
        apply blk_at_freed_ne; [exact Haa|].
        apply blk_at_store_ne; [exact Haa|].
        apply blk_at_add_trace.
        eapply blk_at_store_eq, Hb2.
      * simpl. now rewrite <- !app_assoc.
  - apply owns_null in Hown as (-> & -> & ->).
    unfold Capacity in Hlt; simpl in Hlt.
    exists (allocated n m). split; [|split].
    + now apply Reserve_default.
    + apply owns_block; [reflexivity|simpl; lia|]. simpl.
      rewrite Nat.sub_0_r. apply blk_at_allocated_new.
    + reflexivity.
Qed.

(** ** EmplaceBack *)

Ltac solve_blk :=
  first
    [ eassumption
    | apply blk_at_allocated_new
    | apply blk_at_add_trace; solve_blk
    | apply blk_at_store_ne; [congruence|solve_blk]
    | apply blk_at_freed_ne; [congruence|solve_blk]
    | eapply blk_at_store_eq; solve_blk
    | apply blk_at_allocated_old; solve_blk ].

Lemma RawMemory_plus_ok (m : mem T) r offset :
  offset <= capacity_ r ->
  RawMemory_plus r offset m = Ret (Ptr (buffer_ r) offset) m.
Proof.
  intros Hle. unfold RawMemory_plus, assert, bind, ret.
  destruct (Nat.leb_spec offset (capacity_ r)); [reflexivity|lia].
Qed.

Lemma on_unwind_Ret {A : Type} (c : M A) cleanup (m m' : mem T) a :
  c m = Ret a m' -> on_unwind c cleanup m = Ret a m'.
Proof. unfold on_unwind. now intros ->. Qed.

Lemma raw_tail k len :
  len < k ->
  replicate k (@Uninit T) =
  replicate len Uninit ++ Uninit :: replicate (k - len - 1) Uninit.
Proof.
  intros Hlt. rewrite (replicate_split _ len k) by lia.
  f_equal. destruct (k - len) as [|d] eqn:E; [lia|].
  simpl. now rewrite Nat.sub_0_r.
Qed.

Lemma owns_snoc (m : mem T) a cap sz xs x :
  sz = length xs + 1 -> length xs < cap ->
  blk_at m a (map Live xs ++ Live x :: replicate (cap - length xs - 1) Uninit) ->
  owns m (MkVec (MkRaw (Some a) cap) sz) (xs ++ [x]).
Proof.
  intros -> Hlt H. apply owns_block.
  - now rewrite length_app.
  - rewrite length_app; simpl; lia.
  - rewrite map_app, <- app_assoc, length_app. simpl.
    now replace (cap - (length xs + 1)) with (cap - length xs - 1) by lia.
Qed.

Lemma EmplaceBack_room (m : mem T) v xs x :
  owns m v xs -> size_ v < Capacity v ->
  exists m',
    EmplaceBack_with v (Some x) m =
      Ret (MkVec (data_ v) (size_ v + 1), Ptr (buffer_ (data_ v)) (size_ v)) m'
    /\ owns m' (MkVec (data_ v) (size_ v + 1)) (xs ++ [x])
    /\ trace m' = trace m.
Proof.
  intros Hown Hlt. destruct v as [[[a|] cap] sz].
  - destruct Hown as (Hsz & Hle & Hb). unfold Capacity in *. simpl in *.
    subst sz. change (blk_at m a
      (map Live xs ++ replicate (cap - length xs) Uninit)) in Hb.
    rewrite (raw_tail (cap - length xs) 0) in Hb by lia.
    simpl in Hb. rewrite Nat.sub_0_r in Hb.
    unfold EmplaceBack_with, Capacity; simpl.
    destruct (Nat.eqb_spec (length xs) cap); [lia|].
    erewrite bind_Ret by (apply RawMemory_plus_ok; simpl; lia).
    simpl.
    erewrite bind_Ret
      by (eapply construct_at_raw; [exact Hb|now rewrite length_map]).
    eexists. split; [reflexivity|]. split; [|reflexivity].
    apply owns_snoc; [reflexivity|lia|]. solve_blk.
  - apply owns_null in Hown as (-> & -> & ->).
    unfold Capacity in Hlt; simpl in Hlt. lia.
Qed.

Lemma EmplaceBack_room_throw (m : mem T) v :
  size_ v < Capacity v -> EmplaceBack_with v None m = Throw m.
Proof.
  intros Hlt. unfold EmplaceBack_with.
  destruct (Nat.eqb_spec (size_ v) (Capacity v)); [lia|].
  erewrite bind_Ret by (apply RawMemory_plus_ok; unfold Capacity in Hlt; lia).
  reflexivity.
Qed.

Lemma Vector_dtor_live (m : mem T) a cap n xs l2 :
  blk_at m a (map Live xs ++ l2) -> n = length xs ->
  Vector_dtor (MkVec (MkRaw (Some a) cap) n) m =
  Ret tt (freed a (store a (replicate n Uninit ++ l2) m)).
Proof.
  intros H ->. unfold Vector_dtor, GetAddress; cbn [data_ size_ buffer_].
  erewrite bind_Ret
    by (eapply destroy_n_live with (l1 := []); [exact H|reflexivity..]).
  unfold RawMemory_dtor; cbn [data_ buffer_].
  eapply Deallocate_blk. solve_blk.
Qed.

Lemma EmplaceBack_grow (m : mem T) v xs x :
  owns m v xs -> size_ v = Capacity v ->
  exists m',
    let k := if (size_ v =? 0)%nat then 1 else size_ v * 2 in
    let v' := MkVec (MkRaw (Some (length (cells m))) k) (size_ v + 1) in
    EmplaceBack_with v (Some x) m =
      Ret (v', Ptr (Some (length (cells m))) (size_ v)) m'
    /\ owns m' v' (xs ++ [x])
    /\ trace m' =
         trace m ++ EvAlloc (length (cells m)) k :: relocation_events xs ++
         match buffer_ (data_ v) with Some a => [EvFree a] | None => [] end.
Proof.
  intros Hown Hfull. destruct v as [[[a|] cap] sz].
  - destruct Hown as (Hsz & Hle & Hb). unfold Capacity in *. simpl in *.
    subst sz. subst cap.
    change (blk_at m a
      (map Live xs ++ replicate (length xs - length xs) Uninit)) in Hb.
    set (k := if (length xs =? 0)%nat then 1 else length xs * 2).
    assert (Hk : length xs < k)
      by (subst k; destruct (Nat.eqb_spec (length xs) 0); lia).
    assert (Ha : a < length (cells m)) by (eapply blk_at_lt, Hb).
    set (a' := length (cells m)) in *.
    assert (Haa : a <> a') by lia.
    assert (Hb1 : blk_at (allocated k m) a
              ([] ++ map Live xs ++ replicate (length xs - length xs) Uninit))
      by (apply blk_at_allocated_old, Hb).
    assert (Hb2 : blk_at (allocated k m) a'
              (replicate (length xs) Uninit ++
               Uninit :: replicate (k - length xs - 1) Uninit)).
    { rewrite <- raw_tail by lia. apply blk_at_allocated_new. }
    unfold EmplaceBack_with, Capacity; simpl.
    rewrite Nat.eqb_refl. fold k.
    erewrite bind_Ret by (apply Reserve_default; lia).
    fold a'. cbn [data_ size_].
    unfold relocation_events. destruct relocate_by_move.
    + erewrite bind_Ret.
      2:{ apply on_unwind_Ret.
          erewrite bind_Ret by (apply RawMemory_plus_ok; simpl; lia).
          cbn [buffer_].
          erewrite bind_Ret
            by (eapply construct_at_raw;
                [exact Hb2|now rewrite length_replicate]).
          erewrite bind_Ret.
          2:{ eapply uninitialized_move_n_blocks with (la1 := []) (lb1 := []);
                [exact Haa|solve_blk|reflexivity|solve_blk|reflexivity
                |reflexivity]. }
          reflexivity. }
      cbn [Swap RawMemory_Swap data_ size_ buffer_ capacity_].
      erewrite bind_Ret
        by (eapply Vector_dtor_live with (xs := map moved_from xs);
            [solve_blk|now rewrite length_map]).
      eexists. split; [reflexivity|]. split.
      * apply owns_snoc; [reflexivity|lia|]. solve_blk.
      * simpl. now rewrite <- !app_assoc.
    + erewrite bind_Ret.
      2:{ apply on_unwind_Ret.
          erewrite bind_Ret by (apply RawMemory_plus_ok; simpl; lia).
          cbn [buffer_].
          erewrite bind_Ret
            by (eapply construct_at_raw;
                [exact Hb2|now rewrite length_replicate]).
          erewrite bind_Ret.
          2:{ eapply uninitialized_copy_n_blocks with (la1 := []) (lb1 := []);
                [exact Haa|solve_blk|reflexivity|solve_blk|reflexivity
                |reflexivity]. }
          reflexivity. }
      cbn [Swap RawMemory_Swap data_ size_ buffer_ capacity_].
      erewrite bind_Ret
        by (eapply Vector_dtor_live with (xs := xs);
            [solve_blk|reflexivity]).
      eexists. split; [reflexivity|]. split.
      * apply owns_snoc; [reflexivity|lia|]. solve_blk.
      * simpl. now rewrite <- !app_assoc.
  - apply owns_null in Hown as (-> & -> & ->).
    eexists. cbn zeta. split; [|split].
    + unfold EmplaceBack_with, Capacity; simpl.
      erewrite bind_Ret by (apply Reserve_default; lia).
      cbn [data_ size_].
      erewrite bind_Ret.
      2:{ apply on_unwind_Ret.
          erewrite bind_Ret by (apply RawMemory_plus_ok; simpl; lia).
          cbn [buffer_].
          erewrite bind_Ret
            by (eapply construct_at_raw with (l1 := []) (l2 := []);
                [apply blk_at_allocated_new|reflexivity]).
          unfold bind, ret. simpl. now destruct relocate_by_move. }
      reflexivity.
    + apply (owns_snoc _ _ _ _ []); [reflexivity|simpl; lia|].
      simpl. eapply blk_at_store_eq, blk_at_allocated_new.
    + simpl. reflexivity.
Qed.

Lemma PushBack_owns (m : mem T) v xs x :
  owns m v xs ->
  exists v' m',
    PushBack v x m = Ret v' m' /\ owns m' v' (xs ++ [x]) /\
    size_ v' = size_ v + 1.
Proof.
  intros Hown. unfold PushBack.
  assert (Hle : size_ v <= Capacity v)
    by (destruct Hown as (-> & ? & _); assumption).
  destruct (Nat.eq_dec (size_ v) (Capacity v)) as [E|E].
  - destruct (EmplaceBack_grow m v xs x Hown E) as (m' & Hrun & Hown' & _).
    cbn zeta in *. erewrite bind_Ret by exact Hrun.
    eexists _, m'. split; [reflexivity|]. split; [exact Hown'|reflexivity].
  - destruct (EmplaceBack_room m v xs x Hown) as (m' & Hrun & Hown' & _);
      [lia|].
    erewrite bind_Ret by exact Hrun.
    eexists _, m'. split; [reflexivity|]. split; [exact Hown'|reflexivity].
Qed.

(** ** PopBack *)

Lemma PopBack_owns (m : mem T) v xs x :
  owns m v (xs ++ [x]) ->
  exists m',
    PopBack v m = Ret (MkVec (data_ v) (size_ v - 1)) m' /\
    owns m' (MkVec (data_ v) (size_ v - 1)) xs /\
    trace m' = trace m.
Proof.
  intros Hown. destruct v as [[[a|] cap] sz].
  - destruct Hown as (Hsz & Hle & Hb). unfold Capacity in *.
    cbn [data_ size_ buffer_ capacity_] in *.
    rewrite length_app in *. cbn [length] in *. subst sz.
    change (blk_at m a (map Live (xs ++ [x]) ++
              replicate (cap - (length xs + 1)) Uninit)) in Hb.
    rewrite map_app, <- app_assoc in Hb.
    unfold PopBack, GetAddress, ptr_add, ptr_sub.
    cbn [data_ size_ buffer_ base off].
    unfold bind at 1.
    destruct (Nat.leb_spec 1 (0 + (length xs + 1))); [|lia].
    replace (0 + (length xs + 1) - 1) with (length xs) by lia.
    erewrite bind_Ret
      by (eapply destroy_n_live with (xs := [x]);
          [exact Hb|now rewrite length_map|reflexivity]).
    eexists. split; [unfold ret; do 3 f_equal; lia|]. split; [|reflexivity].
    apply owns_block; [lia|lia|].
    eapply blk_at_store_eq in Hb.
    rewrite (raw_tail (cap - length xs) 0) by lia.
    cbn [replicate app length] in *. rewrite Nat.sub_0_r.
    replace (cap - length xs - 1) with (cap - (length xs + 1)) by lia.
    exact Hb.
  - apply owns_null in Hown as (_ & _ & Hnil).
    destruct xs; discriminate.
Qed.

(** ** Reading a vector back *)

Lemma live_prefix_app xs (rest : list (slot T)) :
  live_prefix (length xs) (map Live xs ++ rest) = Some xs.
Proof.
  induction xs as [|x xs IH]; simpl; [reflexivity|]. now rewrite IH.
Qed.

Lemma elements_owns (m : mem T) v xs : owns m v xs -> elements m v = Some xs.
Proof.
  intros (Hsz & Hle & Hb). unfold elements. rewrite Hsz.
  destruct xs as [|x xs]; [reflexivity|].
  cbn [length]. change (S (length xs)) with (length (x :: xs)).
  unfold block_at, begin, GetAddress; cbn [base].
  destruct (buffer_ (data_ v)) as [a|].
  - rewrite Hb. apply live_prefix_app.
  - simpl in Hle. lia.
Qed.

Lemma owns_default (m : mem T) : owns m Vector_default [].
Proof. repeat split. simpl. lia. Qed.

(** ** Programs of appends and removals *)

Lemma removelast_snoc {A : Type} (l : list A) x : removelast (l ++ [x]) = l.
Proof. now rewrite removelast_app, app_nil_r. Qed.

Lemma run_ops_owns ops : forall (m : mem T) v xs,
  owns m v xs -> pops_allowed (length xs) ops = true ->
  exists v' m',
    run_ops v ops m = Ret v' m' /\
    owns m' v' (survivors xs ops) /\
    length (survivors xs ops) + pops ops = length xs + pushes ops.
Proof.
  induction ops as [|[x|] ops IH]; intros m v xs Hown Hok; simpl in *.
  - exists v, m. split; [reflexivity|]. split; [assumption|lia].
  - destruct (PushBack_owns m v xs x Hown) as (v1 & m1 & Hrun & Hown1 & _).
    erewrite bind_Ret by exact Hrun.
    destruct (IH m1 v1 (xs ++ [x]) Hown1) as (v' & m' & Hrun' & Hown' & Hlen).
    + rewrite length_app, Nat.add_comm. exact Hok.
    + exists v', m'. split; [assumption|]. split; [assumption|].
      rewrite length_app in Hlen. simpl in Hlen. lia.
  - destruct xs as [|x0 xs0] using rev_ind; [discriminate|clear IHxs0].
    rewrite length_app, Nat.add_comm in Hok. simpl in Hok.
    destruct (PopBack_owns m v xs0 x0 Hown) as (m1 & Hrun & Hown1 & _).
    erewrite bind_Ret by exact Hrun.
    rewrite removelast_snoc.
    destruct (IH m1 _ xs0 Hown1 Hok) as (v' & m' & Hrun' & Hown' & Hlen).
    exists v', m'. split; [assumption|]. split; [assumption|].
    rewrite length_app. simpl. lia.
Qed.

(** ** Erase *)

Lemma ptr_diff_same (m : mem T) buf i j :
  i <= j -> ptr_diff (Ptr buf j) (Ptr buf i) m = Ret (j - i) m.
Proof.
  intros Hle. unfold ptr_diff; cbn [base off].
  destruct buf as [a|].
  - rewrite Nat.eqb_refl.
    destruct (Nat.leb_spec i j); [reflexivity|lia].
  - destruct (Nat.leb_spec i j); [reflexivity|lia].
Qed.

Lemma std_move_left (m : mem T) a i j xs l1 x0 l2 :
  blk_at m a (l1 ++ Live x0 :: map Live xs ++ l2) -> i = length l1 ->
  j = S i + length xs ->
  std_move (Ptr (Some a) (S i)) (Ptr (Some a) j) (Ptr (Some a) i) m =
  Ret tt (store a (l1 ++ map Live xs ++ Live (left_gap x0 xs) :: l2) m).
Proof.
  intros H -> ->. unfold std_move.
  erewrite bind_Ret by (apply ptr_diff_same; lia).
  replace (S (length l1) + length xs - S (length l1)) with (length xs) by lia.
  destruct xs as [|x xs].
  - rewrite for_n_zero. now rewrite store_id.
  - erewrite for_n_run; [|reflexivity|simpl; lia|].
    + eapply move_assign_loop_left; [exact H|reflexivity].
    + repeat constructor.
      * eapply in_block_blk; [exact H|].
        rewrite length_app; cbn [length]. rewrite length_app, length_map.
        cbn [length]. lia.
      * eapply in_block_blk; [exact H|].
        rewrite length_app; cbn [length]. rewrite length_app, length_map.
        cbn [length]. lia.
Qed.

Lemma Erase_owns (m : mem T) v pre x post :
  owns m v (pre ++ x :: post) ->
  exists m',
    Erase v (Ptr (buffer_ (data_ v)) (length pre)) m =
      Ret (MkVec (data_ v) (size_ v - 1),
           Ptr (buffer_ (data_ v)) (length pre)) m' /\
    owns m' (MkVec (data_ v) (size_ v - 1)) (pre ++ post).
Proof.
  intros Hown. destruct v as [[[a|] cap] sz].
  - pose proof Hown as (Hsz & Hle & Hb). unfold Capacity in *.
    cbn [data_ size_ buffer_ capacity_] in *.
    rewrite length_app in *. cbn [length] in *.
    change (blk_at m a (map Live (pre ++ x :: post) ++
              replicate (cap - (length pre + S (length post))) Uninit)) in Hb.
    rewrite map_app, <- app_assoc in Hb. cbn [map app] in Hb.
    unfold Erase, GetAddress, begin, GetAddress, end_.
    cbn [data_ size_ buffer_].
    erewrite bind_Ret by (apply ptr_diff_same; lia).
    rewrite Nat.sub_0_r.
    erewrite bind_Ret by (apply RawMemory_plus_ok; cbn [capacity_]; lia).
    unfold ptr_add; cbn [base off buffer_].
    replace (0 + length pre + 1) with (S (length pre)) by lia.
    replace (0 + length pre) with (length pre) by lia.
    erewrite bind_Ret
      by (eapply std_move_left;
          [exact Hb|now rewrite length_map|lia]).
    edestruct (PopBack_owns
                 (store a (map Live pre ++ map Live post ++
                             Live (left_gap x post) ::
                             replicate (cap - (length pre + S (length post)))
                               Uninit) m)
                 (MkVec (MkRaw (Some a) cap) sz) (pre ++ post)
                 (left_gap x post)) as (m' & Hrun & Hown' & _).
    { apply owns_block.
      - rewrite !length_app. cbn [length]. lia.
      - rewrite !length_app. cbn [length]. lia.
      - eapply blk_at_store_eq in Hb.
        eapply blk_at_eq; [exact Hb|].
        rewrite !map_app, <- !app_assoc, !length_app. cbn [map app length].
        do 4 f_equal; lia. }
    erewrite bind_Ret by exact Hrun.
    exists m'. split; [|exact Hown'].
    unfold ret. cbn [data_ size_ buffer_ base off]. reflexivity.
  - apply owns_null in Hown as (_ & _ & Hnil).
    destruct pre; discriminate.
Qed.

(** ** Emplace and Insert *)

Lemma EmplaceBack_owns (m : mem T) v xs x :
  owns m v xs ->
  exists v' m',
    EmplaceBack_with v (Some x) m =
      Ret (v', Ptr (buffer_ (data_ v')) (size_ v)) m' /\
    owns m' v' (xs ++ [x]) /\
    size_ v' = size_ v + 1.
Proof.
  intros Hown.
  assert (Hle : size_ v <= Capacity v)
    by (destruct Hown as (-> & ? & _); assumption).
  destruct (Nat.eq_dec (size_ v) (Capacity v)) as [E|E].
  - destruct (EmplaceBack_grow m v xs x Hown E) as (m' & Hrun & Hown' & _).
    cbn zeta in *. eexists _, m'.
    split; [exact Hrun|]. split; [exact Hown'|reflexivity].
  - destruct (EmplaceBack_room m v xs x Hown) as (m' & Hrun & Hown' & _);
      [lia|].
    eexists _, m'. split; [exact Hrun|]. split; [exact Hown'|reflexivity].
Qed.

Lemma ptr_eqb_same buf i j : ptr_eqb (Ptr buf i) (Ptr buf j) = (i =? j)%nat.
Proof.
  unfold ptr_eqb; cbn [base off]. destruct buf; [|reflexivity].
  now rewrite Nat.eqb_refl.
Qed.

Lemma Insert_end (m : mem T) v xs x :
  owns m v xs ->
  exists v' m',
    Insert v (Ptr (buffer_ (data_ v)) (length xs)) x m =
      Ret (v', Ptr (buffer_ (data_ v')) (length xs)) m' /\
    owns m' v' (xs ++ [x]) /\
    size_ v' = size_ v + 1.
Proof.
  intros Hown. pose proof Hown as (Hsz & Hle & _).
  destruct (EmplaceBack_owns m v xs x Hown) as (v' & m' & Hrun & Hown' & Hsz').
  exists v', m'. split; [|split; assumption].
  unfold Insert, Emplace_with, GetAddress.
  erewrite bind_Ret by (apply ptr_diff_same; lia).
  rewrite Nat.sub_0_r. unfold end_.
  erewrite bind_Ret by (apply RawMemory_plus_ok; unfold Capacity in Hle; lia).
  rewrite ptr_eqb_same, Hsz, Nat.eqb_refl.
  erewrite bind_Ret.
  2:{ erewrite bind_Ret by exact Hrun. reflexivity. }
  reflexivity.
Qed.

Lemma move_relocates : relocates uninitialized_move_n EvMove moved_from.
Proof.
  intros m a b i j n xs la1 la2 lb1 lb2 Hab Ha Hi Hb Hj Hn.
  now eapply uninitialized_move_n_blocks.
Qed.

Lemma copy_relocates : relocates uninitialized_copy_n EvCopy (fun x => x).
Proof.
  intros m a b i j n xs la1 la2 lb1 lb2 Hab Ha Hi Hb Hj Hn.
  erewrite uninitialized_copy_n_blocks by eassumption.
  rewrite map_id. do 2 f_equal.
  symmetry. apply store_id. apply blk_at_store_ne; [congruence|exact Ha].
Qed.

Lemma size_sub_le a b : b <= a -> size_sub a b = N.of_nat (a - b).
Proof.
  intros Hle. unfold size_sub.
  destruct (Nat.leb_spec b a); [reflexivity|lia].
Qed.

Lemma store_add_trace (m : mem T) a blk es :
  store a blk (add_trace es m) = add_trace es (store a blk m).
Proof. reflexivity. Qed.

Lemma emplace_grow_body reloc ev lb (m1 : mem T) a a' cap k pre post x R :
  relocates reloc ev lb ->
  a <> a' ->
  blk_at m1 a (map Live (pre ++ post) ++ R) ->
  blk_at m1 a' (replicate k Uninit) ->
  length pre + length post < k ->
  (emplace_at (ptr_add (begin (MkVec (MkRaw (Some a') k)
                                 (length pre + length post))) (length pre))
              (Some x) ;;;
   reloc (begin (MkVec (MkRaw (Some a) cap) (length pre + length post)))
         (N.of_nat (length pre))
         (begin (MkVec (MkRaw (Some a') k) (length pre + length post))) ;;;
   reloc (ptr_add (begin (MkVec (MkRaw (Some a) cap)
                            (length pre + length post))) (length pre))
         (size_sub (length pre + length post) (length pre))
         (ptr_add (ptr_add (begin (MkVec (MkRaw (Some a') k)
                                     (length pre + length post)))
                           (length pre)) 1)) m1 =
  Ret tt
    (add_trace (map ev (pre ++ post))
       (store a (map Live (map lb (pre ++ post)) ++ R)
          (store a'
             (map Live (pre ++ x :: post) ++
              replicate (k - (length pre + length post) - 1) Uninit) m1))).
Proof.
  intros Hrel Haa Ha Ha' Hk.
  unfold begin, GetAddress, ptr_add; cbn [data_ buffer_ base off].
  rewrite map_app, <- app_assoc in Ha.
  set (R' := replicate (k - (length pre + length post) - 1) (@Uninit T)).
  assert (E0 : replicate k (@Uninit T) =
               replicate (length pre) Uninit ++
               Uninit :: replicate (length post) Uninit ++ R').
  { rewrite (raw_tail k (length pre)) by lia. do 2 f_equal.
    subst R'. rewrite <- replicate_add. f_equal. lia. }
  rewrite E0 in Ha'.
  erewrite bind_Ret
    by (eapply construct_at_raw; [exact Ha'|now rewrite length_replicate]).
  erewrite bind_Ret.
  2:{ eapply (Hrel _ a a' _ _ _ pre [] _ []);
        [exact Haa|solve_blk|reflexivity|solve_blk|reflexivity|reflexivity]. }
  rewrite size_sub_le by lia.
  replace (length pre + length post - length pre) with (length post) by lia.
  erewrite (Hrel _ a a' _ _ _ post (map Live (map lb pre)) R
              (map Live pre ++ [Live x]) R').
  - rewrite !store_add_trace, add_trace_add_trace, store_over by exact Haa.
    rewrite store_store, <- map_app.
    f_equal.
    replace (map Live (map lb pre) ++ map Live (map lb post) ++ R)
      with (map Live (map lb (pre ++ post)) ++ R)
      by now rewrite !map_app, <- app_assoc.
    replace ((map Live pre ++ [Live x]) ++ map Live post ++ R')
      with (map Live (pre ++ x :: post) ++ R')
      by now rewrite !map_app, <- !app_assoc.
    reflexivity.
  - exact Haa.
  - solve_blk.
  - now rewrite !length_map.
  - eapply blk_at_eq; [solve_blk|]. now rewrite <- app_assoc.
  - rewrite length_app, length_map. simpl. lia.
  - reflexivity.
Qed.

Lemma Insert_grow (m : mem T) v pre post x :
  owns m v (pre ++ post) -> post <> [] -> size_ v = Capacity v ->
  exists m',
    let k := if (size_ v =? 0)%nat then 1 else size_ v * 2 in
    let v' := MkVec (MkRaw (Some (length (cells m))) k) (size_ v + 1) in
    Insert v (Ptr (buffer_ (data_ v)) (length pre)) x m =
      Ret (v', Ptr (Some (length (cells m))) (length pre)) m' /\
    owns m' v' (pre ++ x :: post) /\
    trace m' =
      trace m ++ EvAlloc (length (cells m)) k ::
      relocation_events (pre ++ post) ++
      match buffer_ (data_ v) with Some a => [EvFree a] | None => [] end.
Proof.
  intros Hown Hpost Hfull. destruct v as [[[a|] cap] sz].
  2:{ apply owns_null in Hown as (_ & _ & Hnil).
      destruct pre, post; try discriminate. congruence. }
  destruct Hown as (Hsz & Hle & Hb). unfold Capacity in *.
  cbn [data_ size_ buffer_ capacity_] in *.
  assert (Hp : 0 < length post) by (destruct post; [congruence|simpl; lia]).
  rewrite length_app in *. subst sz. subst cap.
  change (blk_at m a (map Live (pre ++ post) ++
            replicate (length pre + length post -
                       (length pre + length post)) Uninit)) in Hb.
  set (R := replicate (length pre + length post -
                       (length pre + length post)) (@Uninit T)) in *.
  set (n := length pre + length post) in *.
  set (k := if (n =? 0)%nat then 1 else n * 2).
  assert (Hk : n < k) by (subst k; destruct (Nat.eqb_spec n 0); lia).
  assert (Ha : a < length (cells m)) by (eapply blk_at_lt, Hb).
  set (a' := length (cells m)) in *.
  assert (Haa : a <> a') by lia.
  assert (Hrun : forall reloc ev lb, relocates reloc ev lb ->
    on_unwind
      (emplace_at (ptr_add (begin (MkVec (MkRaw (Some a') k) n)) (length pre))
                  (Some x) ;;;
       reloc (begin (MkVec (MkRaw (Some a) n) n)) (N.of_nat (length pre))
             (begin (MkVec (MkRaw (Some a') k) n)) ;;;
       reloc (ptr_add (begin (MkVec (MkRaw (Some a) n) n)) (length pre))
             (size_sub n (length pre))
             (ptr_add (ptr_add (begin (MkVec (MkRaw (Some a') k) n))
                               (length pre)) 1))
      (Vector_dtor (MkVec (MkRaw (Some a') k) n)) (allocated k m) =
    Ret tt
      (add_trace (map ev (pre ++ post))
         (store a (map Live (map lb (pre ++ post)) ++ R)
            (store a'
               (map Live (pre ++ x :: post) ++ replicate (k - n - 1) Uninit)
               (allocated k m))))).
  { intros reloc ev lb Hrel. apply on_unwind_Ret.
    eapply emplace_grow_body; [exact Hrel|exact Haa|solve_blk|solve_blk|].
    exact Hk. }
  assert (Hfin : forall ev lb,
    exists m',
      (Vector_dtor (MkVec (MkRaw (Some a) n) n) ;;;
       ret (MkVec (MkRaw (Some a') k) n))
        (add_trace (map ev (pre ++ post))
           (store a (map Live (map lb (pre ++ post)) ++ R)
              (store a'
                 (map Live (pre ++ x :: post) ++
                  replicate (k - n - 1) Uninit)
                 (allocated k m)))) = Ret (MkVec (MkRaw (Some a') k) n) m' /\
      owns m' (MkVec (MkRaw (Some a') k) (n + 1)) (pre ++ x :: post) /\
      trace m' = trace m ++ EvAlloc a' k :: map ev (pre ++ post) ++ [EvFree a]).
  { intros ev lb.
    erewrite bind_Ret
      by (eapply Vector_dtor_live with (xs := map lb (pre ++ post));
          [solve_blk|rewrite length_map, length_app; reflexivity]).
    eexists. split; [reflexivity|]. split.
    - apply owns_block.
      + rewrite !length_app. simpl. lia.
      + rewrite !length_app. simpl. lia.
      + eapply blk_at_eq; [solve_blk|].
        f_equal. f_equal. rewrite !length_app. simpl. lia.
    - simpl. now rewrite <- !app_assoc. }
  unfold Insert, Emplace_with, GetAddress, end_.
  cbn [data_ size_ buffer_ capacity_].
  erewrite bind_Ret by (apply ptr_diff_same; lia).
  rewrite Nat.sub_0_r.
  erewrite bind_Ret by (apply RawMemory_plus_ok; cbn [capacity_]; lia).
  cbn [data_ size_ buffer_]. rewrite ptr_eqb_same.
  destruct (Nat.eqb_spec (length pre) n) as [E|_]; [lia|].
  unfold Capacity; cbn [data_ capacity_]. rewrite Nat.eqb_refl. fold k.
  unfold relocation_events.
  destruct relocate_by_move.
  - destruct (Hfin EvMove moved_from) as (m' & Hd & Hown' & Htr).
    exists m'. cbn zeta. split; [|split; assumption].
    erewrite bind_Ret.
    2:{ erewrite bind_Ret.
        2:{ erewrite bind_Ret by (apply Reserve_default; lia).
            cbn [data_ size_].
            erewrite bind_Ret by (apply (Hrun _ _ _ move_relocates)).
            cbn [Swap RawMemory_Swap data_ size_ buffer_ capacity_].
            exact Hd. }
        reflexivity. }
    reflexivity.
  - destruct (Hfin EvCopy (fun y => y)) as (m' & Hd & Hown' & Htr).
    exists m'. cbn zeta. split; [|split; assumption].
    erewrite bind_Ret.
    2:{ erewrite bind_Ret.
        2:{ erewrite bind_Ret by (apply Reserve_default; lia).
            cbn [data_ size_].
            erewrite bind_Ret by (apply (Hrun _ _ _ copy_relocates)).
            cbn [Swap RawMemory_Swap data_ size_ buffer_ capacity_].
            exact Hd. }
        reflexivity. }
    reflexivity.
Qed.

Lemma new_object_value (m : mem T) x :
  new_object (Some x) m =
  Ret (Ptr (Some (length (cells m))) 0)
      (store (length (cells m)) [Live x] (allocated 1 m)).
Proof.
  unfold new_object.
  erewrite bind_Ret by (apply Allocate_pos; lia).
  erewrite bind_Ret
    by (eapply construct_at_raw with (l1 := []) (l2 := []);
        [apply blk_at_allocated_new|reflexivity]).
  reflexivity.
Qed.

Lemma move_construct_right (m : mem T) a i l1 z l2 :
  blk_at m a (l1 ++ Live z :: Uninit :: l2) -> i = length l1 ->
  move_construct (Ptr (Some a) i) (Ptr (Some a) (S i)) m =
  Ret tt (store a (l1 ++ Live (moved_from z) :: Live z :: l2) m).
Proof.
  intros H ->. unfold move_construct.
  erewrite bind_Ret by (eapply read_live; [exact H|reflexivity]).
  erewrite bind_Ret
    by (eapply construct_at_raw with (l1 := l1 ++ [Live z]);
        [rewrite <- app_assoc; exact H|rewrite length_app; simpl; lia]).
  erewrite write_live with (l1 := l1) (w := z) (l2 := Live z :: l2).
  - now rewrite store_store.
  - rewrite <- app_assoc. eapply blk_at_store_eq, H.
  - reflexivity.
Qed.

Lemma std_move_backward_right (m : mem T) a i j e xs l1 z l2 :
  blk_at m a (l1 ++ map Live xs ++ Live z :: l2) -> i = length l1 ->
  j = i + length xs -> e = S j ->
  std_move_backward (Ptr (Some a) i) (Ptr (Some a) j) (Ptr (Some a) e) m =
  Ret tt (store a (l1 ++ Live (right_gap xs z) :: map Live xs ++ l2) m).
Proof.
  intros H -> -> ->. unfold std_move_backward.
  erewrite bind_Ret by (apply ptr_diff_same; lia).
  replace (length l1 + length xs - length l1) with (length xs) by lia.
  unfold ptr_sub; cbn [base off]. unfold bind at 1.
  destruct (Nat.leb_spec (length xs) (S (length l1 + length xs))); [|lia].
  replace (S (length l1 + length xs) - length xs) with (S (length l1)) by lia.
  destruct xs as [|x xs].
  - rewrite for_n_zero. now rewrite store_id.
  - erewrite for_n_run; [|reflexivity|simpl; lia|].
    + eapply move_backward_loop_right; [exact H|reflexivity].
    + repeat constructor.
      * eapply in_block_blk; [exact H|].
        rewrite !length_app, length_map. cbn [length]. lia.
      * eapply in_block_blk; [exact H|].
        rewrite !length_app, length_map. cbn [length]. lia.
Qed.

Lemma std_move_one (m : mem T) c a i x l1 w l2 :
  c <> a ->
  blk_at m c [Live x] ->
  blk_at m a (l1 ++ Live w :: l2) -> i = length l1 ->
  std_move (Ptr (Some c) 0) (ptr_add (Ptr (Some c) 0) 1) (Ptr (Some a) i) m =
  Ret tt (store c [Live (moved_from x)] (store a (l1 ++ Live x :: l2) m)).
Proof.
  intros Hca Hc Ha ->. unfold std_move, ptr_add; cbn [base off].
  erewrite bind_Ret by (apply ptr_diff_same; lia).
  erewrite for_n_run; [|reflexivity|simpl; lia|].
  - cbn [move_assign_loop Nat.sub Nat.add]. unfold move_assign.
    erewrite bind_Ret.
    2:{ erewrite bind_Ret
          by (eapply read_live with (l1 := []) (l2 := []);
              [exact Hc|reflexivity]).
        erewrite bind_Ret by (eapply write_live; [exact Ha|reflexivity]).
        eapply write_live with (l1 := []) (l2 := []); [|reflexivity].
        apply blk_at_store_ne; [congruence|exact Hc]. }
    reflexivity.
  - repeat constructor.
    + eapply in_block_blk; [exact Hc|simpl; lia].
    + eapply in_block_blk; [exact Ha|].
      rewrite length_app. cbn [length]. lia.
Qed.

Lemma Insert_inplace (m : mem T) v pre mid z x :
  owns m v (pre ++ mid ++ [z]) -> size_ v < Capacity v ->
  exists m',
    Insert v (Ptr (buffer_ (data_ v)) (length pre)) x m =
      Ret (MkVec (data_ v) (size_ v + 1),
           Ptr (buffer_ (data_ v)) (length pre)) m' /\
    owns m' (MkVec (data_ v) (size_ v + 1)) (pre ++ x :: mid ++ [z]) /\
    trace m' = trace m ++ [EvAlloc (length (cells m)) 1] /\
    blk_at m' (length (cells m)) [Uninit].
Proof.
  intros Hown Hroom. destruct v as [[[a|] cap] sz].
  2:{ apply owns_null in Hown as (_ & _ & Hnil).
      destruct pre, mid; discriminate. }
  destruct Hown as (Hsz & Hle & Hb). unfold Capacity in *.
  cbn [data_ size_ buffer_ capacity_] in *.
  rewrite !length_app in *. cbn [length] in *. subst sz.
  set (n := length pre + (length mid + 1)) in *.
  set (R := replicate (cap - n - 1) (@Uninit T)).
  assert (Hb0 : blk_at m a
            ((map Live pre ++ map Live mid) ++ Live z :: Uninit :: R)).
  { eapply blk_at_eq; [exact Hb|].
    rewrite (raw_tail (cap - n) 0) by lia.
    rewrite !map_app, <- !app_assoc. cbn [map app replicate].
    now rewrite Nat.sub_0_r. }
  clear Hb.
  assert (Ha : a < length (cells m)) by (eapply blk_at_lt, Hb0).
  set (c := length (cells m)) in *.
  assert (Hca : c <> a) by lia.
  unfold Insert, Emplace_with, GetAddress, end_, begin, GetAddress.
  cbn [data_ size_ buffer_ capacity_].
  erewrite bind_Ret by (apply ptr_diff_same; lia).
  rewrite Nat.sub_0_r.
  erewrite bind_Ret by (apply RawMemory_plus_ok; cbn [capacity_]; lia).
  cbn [data_ size_ buffer_]. rewrite ptr_eqb_same.
  destruct (Nat.eqb_spec (length pre) n) as [E|_]; [lia|].
  unfold Capacity; cbn [data_ capacity_].
  destruct (Nat.eqb_spec n cap) as [E|_]; [lia|].
  eexists. split; [|split; [|split]].
  - erewrite bind_Ret.
    2:{ erewrite bind_Ret.
        2:{ erewrite bind_Ret by apply new_object_value.
            fold c.
            erewrite bind_Ret
              by (apply RawMemory_plus_ok; cbn [capacity_]; lia).
            cbn [buffer_]. unfold ptr_sub at 1; cbn [base off].
            unfold bind at 1.
            destruct (Nat.leb_spec 1 n); [|lia].
            replace (n - 1) with (length (map Live pre ++ map Live mid))
              by (rewrite length_app, !length_map; lia).
            replace n with (S (length (map Live pre ++ map Live mid))) at 1
              by (rewrite length_app, !length_map; lia).
            erewrite bind_Ret
              by (eapply move_construct_right; [solve_blk|reflexivity]).
            unfold ptr_add; cbn [base off].
            erewrite bind_Ret.
            2:{ eapply std_move_backward_right
                  with (l1 := map Live pre) (xs := mid).
                - eapply blk_at_eq; [solve_blk|].
                  rewrite <- app_assoc. reflexivity.
                - now rewrite length_map.
                - rewrite length_app, !length_map. lia.
                - rewrite length_app, !length_map. lia. }
            erewrite bind_Ret.
            2:{ eapply (std_move_one _ c a); [exact Hca| | |].
                - solve_blk.
                - solve_blk.
                - now rewrite length_map. }
            erewrite bind_Ret.
            2:{ eapply destroy_n_live with (l1 := []) (xs := [moved_from x])
                                          (l2 := []);
                  [solve_blk|reflexivity|reflexivity]. }
            reflexivity. }
        reflexivity. }
    unfold ret. cbn [data_ size_ buffer_]. unfold ptr_add; cbn [base off].
    reflexivity.
  - apply owns_block.
    + rewrite !length_app. cbn [length]. rewrite length_app. cbn [length]. lia.
    + rewrite !length_app. cbn [length]. rewrite length_app. cbn [length]. lia.
    + eapply blk_at_eq; [solve_blk|].
      replace (replicate (cap - length (pre ++ x :: mid ++ [z])) Uninit)
        with R.
      * rewrite !map_app. cbn [map app]. rewrite !map_app, <- !app_assoc.
        cbn [map app]. rewrite <- !app_assoc. reflexivity.
      * subst R n. f_equal.
        rewrite !length_app. cbn [length]. rewrite length_app. cbn [length].
        lia.
  - reflexivity.
  - fold c. eapply blk_at_eq; [solve_blk|reflexivity].
Qed.

Lemma Insert_owns (m : mem T) v pre post x :
  owns m v (pre ++ post) ->
  exists v' m',
    Insert v (Ptr (buffer_ (data_ v)) (length pre)) x m =
      Ret (v', Ptr (buffer_ (data_ v')) (length pre)) m' /\
    owns m' v' (pre ++ x :: post) /\
    size_ v' = size_ v + 1.
Proof.
  intros Hown.
  assert (Hle : size_ v <= Capacity v)
    by (destruct Hown as (-> & ? & _); assumption).
  destruct post as [|z mid] using rev_ind; [|clear IHmid].
  - rewrite app_nil_r in Hown.
    destruct (Insert_end m v pre x Hown) as (v' & m' & Hrun & Hown' & Hsz).
    now exists v', m'.
  - destruct (Nat.eq_dec (size_ v) (Capacity v)) as [E|E].
    + destruct (Insert_grow m v pre (mid ++ [z]) x Hown) as (m' & H);
        [now destruct mid|exact E|].
      cbn zeta in H. destruct H as (Hrun & Hown' & _).
      eexists _, m'. split; [exact Hrun|]. split; [exact Hown'|reflexivity].
    + destruct (Insert_inplace m v pre mid z x Hown) as (m' & Hrun & Hown' & _);
        [lia|].
      eexists _, m'. split; [exact Hrun|]. split; [exact Hown'|reflexivity].
Qed.

(** ** What a call which returns has done to [size_] and the capacity *)

Lemma bind_Ret_inv {A B : Type} (c : M A) (k : A -> M B) (m m' : mem T) b :
  bind c k m = Ret b m' ->
  exists a m1, c m = Ret a m1 /\ k a m1 = Ret b m'.
Proof.
  unfold bind. destruct (c m) as [a m1| |]; [|discriminate..].
  intros H. now exists a, m1.
Qed.

Lemma ret_inv {A : Type} (a b : A) (m m' : mem T) :
  ret a m = Ret b m' -> a = b /\ m = m'.
Proof. unfold ret. intros H. now injection H. Qed.

Lemma on_unwind_Ret_inv {A : Type} (c : M A) cl (m m' : mem T) a :
  on_unwind c cl m = Ret a m' -> c m = Ret a m'.
Proof.
  unfold on_unwind. destruct (c m) as [a1 m1|m1|]; [easy| |easy].
  now destruct (cl m1).
Qed.

Ltac inv_bind H :=
  let a := fresh "r" in
  let m1 := fresh "m" in
  let H1 := fresh "Hrun" in
  apply bind_Ret_inv in H as (a & m1 & H1 & H).

Tactic Notation "inv_bind_as" hyp(H) ident(a) ident(m1) ident(H1) :=
  apply bind_Ret_inv in H as (a & m1 & H1 & H).

Lemma RawMemory_new_Ret (m m' : mem T) n d :
  RawMemory_new n m = Ret d m' -> capacity_ d = n.
Proof.
  unfold RawMemory_new. intros H. inv_bind H.
  apply ret_inv in H as (<- & _). reflexivity.
Qed.

Lemma Reserve_Ret (m m' : mem T) v n v' :
  Reserve v n m = Ret v' m' ->
  size_ v' = size_ v /\ n <= Capacity v' /\ Capacity v <= Capacity v'.
Proof.
  unfold Reserve. destruct (Nat.leb_spec n (Capacity v)) as [Hle|Hlt].
  - intros H. apply ret_inv in H as (<- & _). lia.
  - intros H. inv_bind H. apply RawMemory_new_Ret in Hrun.
    inv_bind H. inv_bind H. cbn [RawMemory_Swap] in H. inv_bind H.
    apply ret_inv in H as (<- & _). unfold Capacity in *. simpl. lia.
Qed.

Lemma Resize_Ret (m m' : mem T) v n v' :
  Resize v n m = Ret v' m' -> size_ v <= Capacity v ->
  size_ v' <= Capacity v'.
Proof.
  unfold Resize. intros H Hinv.
  destruct (Nat.ltb_spec n (size_ v)).
  - inv_bind H. apply ret_inv in H as (<- & _). unfold Capacity in *.
    simpl. lia.
  - destruct (Nat.ltb_spec (size_ v) n).
    + inv_bind H. apply Reserve_Ret in Hrun as (_ & Hn & _).
      inv_bind H. apply ret_inv in H as (<- & _). exact Hn.
    + apply ret_inv in H as (<- & _). exact Hinv.
Qed.

Lemma PopBack_Ret (m m' : mem T) v v' :
  PopBack v m = Ret v' m' -> size_ v <= Capacity v ->
  size_ v' <= Capacity v'.
Proof.
  unfold PopBack. intros H Hinv. inv_bind H. inv_bind H.
  apply ret_inv in H as (<- & _). unfold Capacity in *. simpl. lia.
Qed.

Lemma EmplaceBack_with_Ret (m m' : mem T) v r v' p :
  EmplaceBack_with v r m = Ret (v', p) m' -> size_ v <= Capacity v ->
  size_ v' <= Capacity v'.
Proof.
  unfold EmplaceBack_with. intros H Hinv.
  destruct (Nat.eqb_spec (size_ v) (Capacity v)) as [E|E].
  - inv_bind H. apply Reserve_Ret in Hrun as (_ & Hk & _).
    inv_bind H. cbn [Swap RawMemory_Swap data_ size_] in H. inv_bind H.
    apply ret_inv in H as (H & _). injection H as <- _.
    unfold Capacity in *. cbn [data_ size_ capacity_ buffer_] in *.
    destruct (Nat.eqb_spec (size_ v) 0); lia.
  - inv_bind H. inv_bind H. apply ret_inv in H as (H & _).
    injection H as <- _. unfold Capacity in *. simpl. lia.
Qed.

Lemma Emplace_with_Ret (m m' : mem T) v pos r v' p :
  Emplace_with v pos r m = Ret (v', p) m' -> size_ v <= Capacity v ->
  size_ v' <= Capacity v'.
Proof.
  unfold Emplace_with. intros H Hinv.
  inv_bind_as H index m1 Hidx. inv_bind_as H e m2 He.
  inv_bind_as H this m3 Hthis.
  apply ret_inv in H as (H & _). injection H as <- _.
  destruct (ptr_eqb pos e).
  - inv_bind_as Hthis res m4 Hres. apply ret_inv in Hthis as (<- & _).
    destruct res as [v1 p1]. eapply EmplaceBack_with_Ret; eassumption.
  - inv_bind_as Hthis this1 m4 Hin. apply ret_inv in Hthis as (<- & _).
    destruct (Nat.eqb_spec (size_ v) (Capacity v)) as [E|E].
    + inv_bind_as Hin nv m5 Hres. apply Reserve_Ret in Hres as (_ & Hk & _).
      inv_bind_as Hin u m6 Hbody. cbn [Swap RawMemory_Swap data_ size_] in Hin.
      inv_bind_as Hin u1 m7 Hd. apply ret_inv in Hin as (<- & _).
      unfold Capacity in *. cbn [data_ size_ capacity_ buffer_] in *.
      destruct (Nat.eqb_spec (size_ v) 0); lia.
    + do 7 inv_bind Hin. apply ret_inv in Hin as (<- & _).
      unfold Capacity in *. cbn [data_ size_ capacity_] in *. lia.
Qed.

Lemma Erase_Ret (m m' : mem T) v pos v' p :
  Erase v pos m = Ret (v', p) m' -> size_ v <= Capacity v ->
  size_ v' <= Capacity v'.
Proof.
  unfold Erase. intros H Hinv. do 4 inv_bind H.
  apply ret_inv in H as (H & _). injection H as <- _.
  eapply PopBack_Ret; eassumption.
Qed.

Lemma Vector_new_Ret (m m' : mem T) n v :
  Vector_new n m = Ret v m' -> size_ v <= Capacity v.
Proof.
  unfold Vector_new. intros H. inv_bind H. apply RawMemory_new_Ret in Hrun.
  inv_bind H. apply ret_inv in H as (<- & _). unfold Capacity. simpl. lia.
Qed.

Lemma Vector_copy_Ret (m m' : mem T) other v :
  Vector_copy other m = Ret v m' ->
  size_ v = size_ other /\ Capacity v = size_ other.
Proof.
  unfold Vector_copy. intros H. inv_bind H. apply RawMemory_new_Ret in Hrun.
  inv_bind H. apply ret_inv in H as (<- & _). unfold Capacity. simpl. lia.
Qed.

Lemma Vector_copy_assign_Ret (m m' : mem T) self this rhs v :
  Vector_copy_assign self this rhs m = Ret v m' ->
  size_ this <= Capacity this -> size_ v <= Capacity v.
Proof.
  unfold Vector_copy_assign. intros H Hinv. destruct self; cbn [negb] in H.
  - apply ret_inv in H as (<- & _). exact Hinv.
  - destruct (Nat.ltb_spec (Capacity this) (size_ rhs)).
    + inv_bind H. apply Vector_copy_Ret in Hrun as (Hs & Hc).
      cbn [Swap RawMemory_Swap] in H. inv_bind H.
      apply ret_inv in H as (<- & _). unfold Capacity in *. simpl. lia.
    + destruct (Nat.ltb_spec (size_ rhs) (size_ this)).
      * do 2 inv_bind H. apply ret_inv in H as (<- & _).
        unfold Capacity in *. simpl. lia.
      * do 2 inv_bind H. apply ret_inv in H as (<- & _).
        unfold Capacity in *. simpl. lia.
Qed.

Lemma Vector_move_assign_Ret (m m' : mem T) self this rhs v w :
  Vector_move_assign self this rhs m = Ret (v, w) m' ->
  size_ this <= Capacity this -> size_ rhs <= Capacity rhs ->
  size_ v <= Capacity v /\ size_ w <= Capacity w.
Proof.
  unfold Vector_move_assign. intros H Hinv Hinv'.
  destruct self; cbn [negb] in H.
  - apply ret_inv in H as (H & _). injection H as <- <-. now split.
  - destruct (Nat.ltb_spec (Capacity this) (size_ rhs)).
    + cbn [Vector_move RawMemory_move Swap RawMemory_Swap] in H.
      inv_bind H. apply ret_inv in H as (H & _). injection H as <- <-.
      unfold Capacity in *. simpl. lia.
    + destruct (Nat.ltb_spec (size_ rhs) (size_ this)).
      * cbn [Swap RawMemory_Swap] in H. inv_bind H.
        apply ret_inv in H as (H & _). injection H as <- <-.
        unfold Capacity in *. simpl. lia.
      * cbn [Swap RawMemory_Swap] in H.
        apply ret_inv in H as (H & _). injection H as <- <-.
        unfold Capacity in *. simpl. lia.
Qed.

(** ** The invariant over programs *)

Lemma object_Ret (m m' : mem T) vs i v :
  object vs i m = Ret v m' -> vs !! i = Some v /\ m' = m.
Proof.
  unfold object. destruct (vs !! i) as [w|]; [|discriminate].
  intros H. apply ret_inv in H as (-> & ->). now split.
Qed.

Lemma step_Ret_bounded (m m' : mem T) vs o vs' r :
  Forall (fun v => size_ v <= Capacity v) vs ->
  step vs o m = Ret (vs', r) m' ->
  Forall (fun v => size_ v <= Capacity v) vs'.
Proof.
  intros Hall H.
  assert (Hget : forall i v, vs !! i = Some v -> size_ v <= Capacity v)
    by (intros i v Hv; exact (proj1 (Forall_lookup _ _) Hall i v Hv)).
  destruct o; cbn [step] in H.
  - apply ret_inv in H as (H & _). injection H as <- _.
    apply Forall_app. split; [exact Hall|]. repeat constructor.
  - inv_bind_as H v m1 Hv. apply ret_inv in H as (H & _). injection H as <- _.
    apply Forall_app. split; [exact Hall|]. repeat constructor.
    eapply Vector_new_Ret, Hv.
  - inv_bind_as H other m1 Ho. inv_bind_as H v m2 Hv.
    apply ret_inv in H as (H & _). injection H as <- _.
    apply Forall_app. split; [exact Hall|]. repeat constructor.
    apply Vector_copy_Ret in Hv. lia.
  - inv_bind_as H other m1 Ho. apply object_Ret in Ho as (Ho & ->).
    cbn [Vector_move RawMemory_move] in H.
    apply ret_inv in H as (H & _). injection H as <- _.
    apply Forall_app. split.
    + apply Forall_insert; [exact Hall|]. unfold Capacity. simpl. lia.
    + repeat constructor. apply Hget in Ho. exact Ho.
  - inv_bind_as H this m1 Ht. apply object_Ret in Ht as (Ht & ->).
    inv_bind_as H rhs m2 Hr. inv_bind_as H v m3 Hv.
    apply ret_inv in H as (H & _). injection H as <- _.
    apply Forall_insert; [exact Hall|].
    eapply Vector_copy_assign_Ret; [exact Hv|]. eapply Hget, Ht.
  - inv_bind_as H this m1 Ht. apply object_Ret in Ht as (Ht & ->).
    inv_bind_as H rhs m2 Hr. apply object_Ret in Hr as (Hr & ->).
    inv_bind_as H p m3 Hp. destruct p as [v w].
    apply ret_inv in H as (H & _). injection H as <- _.
    eapply Vector_move_assign_Ret in Hp as (Hv & Hw);
      [|eapply Hget, Ht|eapply Hget, Hr].
    apply Forall_insert; [apply Forall_insert; [exact Hall|exact Hw]|].
    exact Hv.
  - inv_bind_as H this m1 Ht. apply object_Ret in Ht as (Ht & ->).
    inv_bind_as H other m2 Hr. apply object_Ret in Hr as (Hr & ->).
    cbn [Swap RawMemory_Swap] in H.
    apply ret_inv in H as (H & _). injection H as <- _.
    apply Hget in Ht, Hr. unfold Capacity in *.
    apply Forall_insert; [apply Forall_insert; [exact Hall|]|]; simpl; lia.
  - inv_bind_as H this m1 Ht. apply object_Ret in Ht as (Ht & ->).
    inv_bind_as H v m2 Hv. apply ret_inv in H as (H & _). injection H as <- _.
    apply Forall_insert; [exact Hall|]. apply Hget in Ht.
    apply Reserve_Ret in Hv. lia.
  - inv_bind_as H this m1 Ht. apply object_Ret in Ht as (Ht & ->).
    inv_bind_as H v m2 Hv. apply ret_inv in H as (H & _). injection H as <- _.
    apply Forall_insert; [exact Hall|].
    eapply Resize_Ret; [exact Hv|]. eapply Hget, Ht.
  - inv_bind_as H this m1 Ht. apply object_Ret in Ht as (Ht & ->).
    inv_bind_as H v m2 Hv. apply ret_inv in H as (H & _). injection H as <- _.
    apply Forall_insert; [exact Hall|].
    unfold PushBack in Hv. inv_bind_as Hv p m3 Hp. destruct p as [v1 p1].
    apply ret_inv in Hv as (<- & _).
    eapply EmplaceBack_with_Ret; [exact Hp|]. eapply Hget, Ht.
  - inv_bind_as H this m1 Ht. apply object_Ret in Ht as (Ht & ->).
    inv_bind_as H p m2 Hp. destruct p as [v1 p1].
    apply ret_inv in H as (H & _). injection H as <- _.
    apply Forall_insert; [exact Hall|].
    eapply EmplaceBack_with_Ret; [exact Hp|]. eapply Hget, Ht.
  - inv_bind_as H this m1 Ht. apply object_Ret in Ht as (Ht & ->).
    inv_bind_as H v m2 Hv. apply ret_inv in H as (H & _). injection H as <- _.
    apply Forall_insert; [exact Hall|].
    eapply PopBack_Ret; [exact Hv|]. eapply Hget, Ht.
  - inv_bind_as H this m1 Ht. apply object_Ret in Ht as (Ht & ->).
    inv_bind_as H p m2 Hp. destruct p as [v1 p1].
    apply ret_inv in H as (H & _). injection H as <- _.
    apply Forall_insert; [exact Hall|].
    eapply Emplace_with_Ret; [exact Hp|]. eapply Hget, Ht.
  - inv_bind_as H this m1 Ht. apply object_Ret in Ht as (Ht & ->).
    inv_bind_as H p m2 Hp. destruct p as [v1 p1].
    apply ret_inv in H as (H & _). injection H as <- _.
    apply Forall_insert; [exact Hall|].
    eapply Emplace_with_Ret; [exact Hp|]. eapply Hget, Ht.
  - inv_bind_as H this m1 Ht. apply object_Ret in Ht as (Ht & ->).
    inv_bind_as H p m2 Hp. destruct p as [v1 p1].
    apply ret_inv in H as (H & _). injection H as <- _.
    apply Forall_insert; [exact Hall|].
    eapply Erase_Ret; [exact Hp|]. eapply Hget, Ht.
Qed.

(** ** Calls which run into undefined behaviour *)

Lemma destroy_at_raw (m : mem T) a i blk :
  blk_at m a blk -> blk !! i = Some Uninit ->
  destroy_at (Ptr (Some a) i) m = Undef.
Proof.
  intros H Hi. unfold destroy_at.
  rewrite (block_at_blk _ _ _ _ H); cbn [off]. now rewrite Hi.
Qed.

Lemma Vector_dtor_raw (m : mem T) a cap n k :
  blk_at m a (replicate k Uninit) -> 0 < n -> n <= k ->
  Vector_dtor (MkVec (MkRaw (Some a) cap) n) m = Undef.
Proof.
  intros H Hn Hk. unfold Vector_dtor, GetAddress, destroy_n.
  cbn [data_ size_ buffer_]. unfold bind.
  erewrite for_n_run; [|reflexivity|exact Hn|].
  - destruct n as [|n]; [lia|]. cbn [destroy_loop]. unfold bind.
    erewrite destroy_at_raw; [reflexivity|exact H|].
    apply lookup_replicate_2. lia.
  - repeat constructor. eapply in_block_blk; [exact H|].
    rewrite length_replicate. lia.
Qed.

Lemma EmplaceBack_with_throw_full (m : mem T) v :
  0 < size_ v -> size_ v = Capacity v ->
  EmplaceBack_with v None m = Undef.
Proof.
  intros Hpos Hfull. unfold EmplaceBack_with.
  rewrite Hfull, Nat.eqb_refl. rewrite <- Hfull.
  destruct (Nat.eqb_spec (size_ v) 0) as [E|_]; [lia|].
  erewrite bind_Ret by (apply Reserve_default; lia).
  cbn [data_ size_]. unfold bind at 1. unfold on_unwind.
  erewrite bind_Ret by (apply RawMemory_plus_ok; cbn [capacity_]; lia).
  cbn [emplace_at]. unfold bind at 1, throw.
  erewrite Vector_dtor_raw;
    [reflexivity|apply blk_at_allocated_new|exact Hpos|lia].
Qed.

Lemma owns_block_length (m : mem T) a cap sz xs blk :
  owns m (MkVec (MkRaw (Some a) cap) sz) xs -> blk_at m a blk ->
  length blk = cap.
Proof.
  intros (_ & Hle & Hb) H. unfold Capacity in *.
  cbn [data_ buffer_ capacity_] in *. unfold blk_at in H.
  rewrite Hb in H. injection H as <-.
  rewrite length_app, length_map, length_replicate. lia.
Qed.

Lemma Vector_move_assign_shrink (m : mem T) v w ys :
  owns m w ys ->
  size_ w < size_ v -> size_ w <= Capacity v ->
  (N.of_nat (size_ v) < 2 ^ 64)%N -> (N.of_nat (Capacity w) < 2 ^ 64)%N ->
  Vector_move_assign false v w m = Undef.
Proof.
  intros Hown Hlt Hfit Hv Hw. unfold Vector_move_assign. cbn [negb].
  destruct (Nat.ltb_spec (Capacity v) (size_ w)); [lia|].
  destruct (Nat.ltb_spec (size_ w) (size_ v)); [|lia].
  cbn [Swap RawMemory_Swap]. unfold bind, destroy_n, for_n.
  cbn [data_ size_ buffer_ capacity_]. unfold size_sub.
  destruct (Nat.leb_spec (size_ v) (size_ w)); [lia|].
  change (2 ^ 64)%N with 18446744073709551616%N in *.
  destruct (N.eqb_spec
              (18446744073709551616 - N.of_nat (size_ v - size_ w)) 0);
    [lia|].
  cbn [forallb]. unfold in_block, block_at, ptr_add, GetAddress.
  cbn [base off buffer_].
  destruct w as [[[b|] capw] szw]; cbn [buffer_ data_ size_] in *;
    [|reflexivity].
  destruct (cells m !! b) as [[blk|]|] eqn:Hb; [|reflexivity..].
  rewrite (owns_block_length m b capw szw ys blk Hown Hb).
  unfold Capacity in *; cbn [data_ capacity_] in *.
  destruct (N.leb_spec
              (N.of_nat (0 + size_ v) +
               (18446744073709551616 - N.of_nat (size_ v - szw)))
              (N.of_nat capw)); [lia|reflexivity].
Qed.

Lemma RawMemory_move_assign_no_return (m : mem T) this rhs :
  RawMemory_move_assign false this rhs m = Undef.
Proof.
  unfold RawMemory_move_assign, RawMemory_move_assign_body, RawMemory_dtor,
    Deallocate, bind, ret, undefined.
  destruct (buffer_ this) as [a|]; [|reflexivity].
  now destruct (cells m !! a) as [[blk|]|].
Qed.

(** ** Reserve and the appends which follow it *)

Lemma Reserve_owns (m : mem T) v xs n :
  owns m v xs ->
  exists v' m',
    Reserve v n m = Ret v' m' /\ owns m' v' xs /\ n <= Capacity v' /\
    (n <= Capacity v -> v' = v /\ m' = m).
Proof.
  intros Hown. destruct (Nat.le_gt_cases n (Capacity v)) as [Hle|Hlt].
  - exists v, m. split; [now apply Reserve_noop|].
    split; [exact Hown|]. split; [exact Hle|]. now split.
  - destruct (Reserve_grow m v xs n Hown Hlt) as (m' & Hrun & Hown' & _).
    eexists _, m'. split; [exact Hrun|]. split; [exact Hown'|].
    split; [unfold Capacity; simpl; lia|lia].
Qed.

Lemma pushes_room ys : forall (m : mem T) v xs,
  owns m v xs -> length xs + length ys <= Capacity v ->
  exists m',
    run_ops v (map Push ys) m =
      Ret (MkVec (data_ v) (size_ v + length ys)) m' /\
    owns m' (MkVec (data_ v) (size_ v + length ys)) (xs ++ ys) /\
    trace m' = trace m.
Proof.
  induction ys as [|y ys IH]; intros m v xs Hown Hle; cbn [map run_ops length].
  - exists m. rewrite Nat.add_0_r, app_nil_r. destruct v as [d sz].
    split; [reflexivity|]. split; [exact Hown|reflexivity].
  - pose proof Hown as (Hsz & _). cbn [length] in Hle.
    destruct (EmplaceBack_room m v xs y Hown) as (m1 & Hrun & Hown1 & Htr1);
      [lia|].
    destruct (IH m1 _ (xs ++ [y]) Hown1) as (m2 & Hrun2 & Hown2 & Htr2).
    { rewrite length_app. unfold Capacity in *. simpl. lia. }
    exists m2. cbn [data_ size_] in *. split; [|split].
    + unfold PushBack. erewrite bind_Ret.
      2:{ erewrite bind_Ret by exact Hrun. reflexivity. }
      cbn [fst]. rewrite Hrun2. do 2 f_equal. lia.
    + rewrite <- app_assoc in Hown2. cbn [app] in Hown2.
      replace (size_ v + S (length ys)) with (size_ v + 1 + length ys) by lia.
      exact Hown2.
    + congruence.
Qed.

Lemma read_owns_last (m : mem T) v xs x :
  owns m v (xs ++ [x]) ->
  read (Ptr (buffer_ (data_ v)) (length xs)) m = Ret x m.
Proof.
  intros Hown. destruct v as [[[a|] cap] sz].
  - destruct Hown as (_ & _ & Hb). cbn [data_ buffer_] in *.
    eapply read_live with (l1 := map Live xs).
    + eapply blk_at_eq; [exact Hb|].
      rewrite map_app, <- app_assoc. reflexivity.
    + now rewrite length_map.
  - apply owns_null in Hown as (_ & _ & Hnil). destruct xs; discriminate.
Qed.

Lemma relocation_events_traits xs :
  relocation_events xs =
  if is_nothrow_move_constructible || negb is_copy_constructible
  then map EvMove xs else map EvCopy xs.
Proof.
  unfold relocation_events, relocate_by_move.
  now destruct (is_nothrow_move_constructible || negb is_copy_constructible).
Qed.

Lemma run_program_reachable prog : forall vs (m : mem T) vs' m',
  reachable vs m -> run_program prog vs m = Some (vs', m') ->
  reachable vs' m'.
Proof.
  induction prog as [|o prog IH]; intros vs m vs' m' Hreach Hrun;
    cbn [run_program] in Hrun.
  - injection Hrun as <- <-. exact Hreach.
  - destruct (step vs o m) as [[vs1 r] m1|m1|] eqn:Hstep; [| |discriminate].
    + eapply IH; [|exact Hrun]. eapply reach_return; eassumption.
    + eapply IH; [|exact Hrun]. eapply reach_throw; eassumption.
Qed.

Lemma EmplaceBack_with_throw_empty (m : mem T) d :
  EmplaceBack_with (MkVec (MkRaw d 0) 0) None m =
  Throw (freed (length (cells m)) (allocated 1 m)).
Proof.
  unfold EmplaceBack_with, Capacity. cbn [data_ size_ capacity_ Nat.eqb].
  erewrite bind_Ret by (apply Reserve_default; lia).
  cbn [data_ size_]. unfold bind at 1. unfold on_unwind.
  erewrite bind_Ret by (apply RawMemory_plus_ok; cbn [capacity_]; lia).
  cbn [emplace_at]. unfold bind at 1, throw.
  unfold Vector_dtor, GetAddress. cbn [data_ size_ buffer_].
  unfold destroy_n, for_n.
  change (N.of_nat 0 =? 0)%N with true. cbv beta iota.
  unfold RawMemory_dtor. cbn [buffer_ data_].
  erewrite bind_Ret by reflexivity.
  now erewrite Deallocate_blk by apply blk_at_allocated_new.
Qed.

Lemma RawMemory_move_assign_body_transfers (m : mem T) a cap blk rhs :
  blk_at m a blk ->
  RawMemory_move_assign_body (MkRaw (Some a) cap) rhs m =
  Ret (MkRaw (buffer_ rhs) (capacity_ rhs), MkRaw None 0) (freed a m).
Proof.
  intros H. unfold RawMemory_move_assign_body, RawMemory_dtor.
  cbn [buffer_ capacity_].
  now erewrite bind_Ret by (eapply Deallocate_blk, H).
Qed.

(** Move assignment outside of its shrinking branch. *)
Lemma Vector_move_assign_takes (m : mem T) v w xs ys :
  owns m v xs -> owns m w ys ->
  (forall a, buffer_ (data_ v) = Some a -> buffer_ (data_ w) <> Some a) ->
  Capacity v < size_ w \/ size_ v <= size_ w ->
  exists v' w' m',
    Vector_move_assign false v w m = Ret (v', w') m' /\ owns m' v' ys.
Proof.
  intros Hv Hw Hdist Hcase. unfold Vector_move_assign. cbn [negb].
  destruct (Nat.ltb_spec (Capacity v) (size_ w)) as [Hgrow|Hfit].
  - cbn [Vector_move RawMemory_move Swap RawMemory_Swap data_ size_
         buffer_ capacity_].
    destruct v as [[[a|] cap] sz].
    + pose proof Hv as (Hsz & _ & Hb). cbn [data_ size_ buffer_] in *.
      subst sz.
      erewrite bind_Ret
        by (eapply Vector_dtor_live with (xs := xs);
            [exact Hb|reflexivity]).
      eexists _, _, _. split; [reflexivity|].
      destruct w as [[[b|] capw] szw].
      * destruct Hw as (Hszw & Hlew & Hbw). apply owns_block; try assumption.
        assert (a <> b) by (intros ->; now apply (Hdist b)).
        cbn [data_ buffer_] in Hbw. solve_blk.
      * exact Hw.
    + apply owns_null in Hv as (-> & -> & ->).
      eexists _, _, _. split; [reflexivity|]. now destruct w as [[bw cw] sw].
  - destruct Hcase as [Hc|Hc]; [lia|].
    destruct (Nat.ltb_spec (size_ w) (size_ v)); [lia|].
    cbn [Swap RawMemory_Swap].
    eexists _, _, m. split; [reflexivity|]. now destruct w as [[bw cw] sw].
Qed.

(** * The properties of the specification *)

(** C1.  Relocation rule.  Whenever the live elements [xs] of a vector go
    from the old block to a new one -- in [Reserve] beyond the capacity, in
    [EmplaceBack] on a full vector, in [Emplace] before the end of a full
    vector -- each of them is moved when the element type is nothrow move
    constructible or not copy constructible, and copied otherwise, and the
    new block holds them in their original order (with the new element in
    its place).  The count given to [Reserve] is one whose byte count fits
    [size_t]. *)
Theorem relocation_moves_or_copies (m : mem T) (v : Vector) (xs : list T) :
  owns m v xs ->
  let fresh := length (cells m) in
  let migrated (ys : list T) : list (event T) :=
    if is_nothrow_move_constructible || negb is_copy_constructible
    then map EvMove ys else map EvCopy ys in
  let released : list (event T) :=
    match buffer_ (data_ v) with Some a => [EvFree a] | None => [] end in
  (forall n, Capacity v < n -> fits_size_t n ->
     exists v' m',
       Reserve v n m = Ret v' m' /\
       buffer_ (data_ v') = Some fresh /\
       elements m' v' = Some xs /\
       trace m' = trace m ++ EvAlloc fresh n :: migrated xs ++ released) /\
  (forall args x, construct_from args = Some x -> size_ v = Capacity v ->
     exists v' p m',
       EmplaceBack v args m = Ret (v', p) m' /\
       buffer_ (data_ v') = Some fresh /\
       elements m' v' = Some (xs ++ [x]) /\
       trace m' =
         trace m ++ EvAlloc fresh (Capacity v') :: migrated xs ++ released) /\
  (forall pre post args x,
     xs = pre ++ post -> post <> [] ->
     construct_from args = Some x -> size_ v = Capacity v ->
     exists v' p m',
       Emplace v (ptr_add (begin v) (length pre)) args m = Ret (v', p) m' /\
       buffer_ (data_ v') = Some fresh /\
       elements m' v' = Some (pre ++ x :: post) /\
       trace m' =
         trace m ++ EvAlloc fresh (Capacity v') :: migrated xs ++ released).
Proof.
  intros Hown fresh migrated released. subst migrated. cbn beta.
  split; [|split].
  - intros n Hn _.
    destruct (Reserve_grow m v xs n Hown Hn) as (m' & Hrun & Hown' & Htr).
    eexists _, m'. split; [exact Hrun|]. split; [reflexivity|].
    split; [now apply elements_owns|].
    now rewrite <- relocation_events_traits.
  - intros args x Hx Hfull.
    destruct (EmplaceBack_grow m v xs x Hown Hfull) as (m' & H).
    cbn zeta in H. destruct H as (Hrun & Hown' & Htr).
    eexists _, _, m'. unfold EmplaceBack. rewrite Hx.
    split; [exact Hrun|]. split; [reflexivity|].
    split; [now apply elements_owns|].
    now rewrite <- relocation_events_traits.
  - intros pre post args x -> Hpost Hx Hfull.
    destruct (Insert_grow m v pre post x Hown Hpost Hfull) as (m' & H).
    cbn zeta in H. destruct H as (Hrun & Hown' & Htr).
    eexists _, _, m'. unfold Emplace. rewrite Hx.
    split; [exact Hrun|]. split; [reflexivity|].
    split; [now apply elements_owns|].
    now rewrite <- relocation_events_traits.
Qed.

(** C2.  What [EmplaceBack] does on a full, non-empty vector when the
    constructor of the new element throws: the new element is constructed
    first, into the new block, before any migration; but the local
    [new_vector] has been given [size_] already, so during unwinding its
    destructor destroys [size_] slots of the new block which hold no
    object.  The call has undefined behaviour instead of leaving with the
    exception. *)
Theorem emplace_back_throw_when_full (m : mem T) (v : Vector) (args : Args) :
  construct_from args = None ->
  0 < size_ v -> size_ v = Capacity v ->
  EmplaceBack v args m = Undef.
Proof.
  intros Hthrow Hpos Hfull. unfold EmplaceBack. rewrite Hthrow.
  now apply EmplaceBack_with_throw_full.
Qed.

(** C3.  What move assignment does on its shrinking branch, the source
    being smaller than the destination and fitting its capacity: [Swap]
    runs first, so [destroy_n] is called on the block taken from the source,
    from index [rhs.size_] (the old, larger size) on, for
    [size_ - rhs.size_] objects, a [size_t] difference which has wrapped.
    The call has undefined behaviour. *)
Theorem move_assign_shrinking_undefined
    (m : mem T) (v w : Vector) (ys : list T) :
  owns m w ys ->
  size_ w < size_ v -> size_ w <= Capacity v ->
  (N.of_nat (size_ v) < 2 ^ 64)%N -> (N.of_nat (Capacity w) < 2 ^ 64)%N ->
  Vector_move_assign false v w m = Undef.
Proof. apply Vector_move_assign_shrink. Qed.

(** C4.  Move assignment of [RawMemory] between two distinct objects never
    returns a reference: after the stores control runs off the end of the
    function. *)
Theorem raw_memory_move_assign_returns_nothing
    (m : mem T) (this rhs : RawMemory) :
  RawMemory_move_assign false this rhs m = Undef.
Proof. apply RawMemory_move_assign_no_return. Qed.

(** C5.  Any program of [PushBack] and [PopBack] calls on the empty vector,
    in which [PopBack] is only called on a vector of positive size, returns;
    the final size is the number of pushes minus the number of pops and the
    elements read in index order are the pushed values not popped, in the
    order of their pushes. *)
Theorem push_pop_sequence (m : mem T) (ops : list stack_op) :
  pops_allowed 0 ops = true ->
  exists v' m',
    run_ops Vector_default ops m = Ret v' m' /\
    pops ops <= pushes ops /\
    Size v' = pushes ops - pops ops /\
    elements m' v' = Some (survivors [] ops).
Proof.
  intros Hok.
  destruct (run_ops_owns ops m Vector_default [] (owns_default m) Hok)
    as (v' & m' & Hrun & Hown & Hlen).
  simpl in Hlen.
  exists v', m'. split; [exact Hrun|]. split; [lia|]. split.
  - destruct Hown as (Hsz & _). unfold Size. rewrite Hsz. lia.
  - now apply elements_owns.
Qed.

(** C6.  Inserting [x] at any position [i] of [begin (), end ()] and then
    erasing at the iterator which [Insert] returned gives back the original
    elements and the original size. *)
Theorem insert_erase_roundtrip
    (m : mem T) (v : Vector) (xs : list T) (i : nat) (x : T) :
  owns m v xs -> i <= length xs ->
  exists v1 it m1 v2 it2 m2,
    Insert v (ptr_add (begin v) i) x m = Ret (v1, it) m1 /\
    Erase v1 it m1 = Ret (v2, it2) m2 /\
    elements m2 v2 = Some xs /\
    Size v2 = Size v.
Proof.
  intros Hown Hi.
  assert (Hlen : length (take i xs) = i) by (rewrite length_take; lia).
  rewrite <- (take_drop i xs) in Hown.
  destruct (Insert_owns m v (take i xs) (drop i xs) x Hown)
    as (v1 & m1 & Hins & Hown1 & Hsz1).
  destruct (Erase_owns m1 v1 (take i xs) x (drop i xs) Hown1)
    as (m2 & Her & Hown2).
  rewrite Hlen in Hins, Her.
  eexists v1, _, m1, _, _, m2. split; [exact Hins|]. split; [exact Her|].
  rewrite take_drop in Hown2. split; [now apply elements_owns|].
  unfold Size. cbn [size_]. lia.
Qed.

(** C7.  [Reserve (n)], for [n] within the capacity or with a byte count
    which fits [size_t], returns with a capacity of at least [n] and the same
    elements; when the capacity was at least [n] already, the vector and the
    memory are unchanged; and after [Reserve (n)] on an empty vector, any
    [ys] of at most [n] values is appended without reallocation: the block
    and the capacity ([data_]) stay the same and nothing is allocated,
    released, moved or copied (the trace is unchanged). *)
Theorem reserve_amortizes (m : mem T) (v : Vector) (xs : list T) (n : nat) :
  owns m v xs -> (Capacity v < n -> fits_size_t n) ->
  exists v1 m1,
    Reserve v n m = Ret v1 m1 /\
    n <= Capacity v1 /\
    elements m1 v1 = Some xs /\
    (n <= Capacity v -> v1 = v /\ m1 = m) /\
    (xs = [] ->
     forall ys, length ys <= n ->
       exists v2 m2,
         run_ops v1 (map Push ys) m1 = Ret v2 m2 /\
         data_ v2 = data_ v1 /\
         trace m2 = trace m1 /\
         elements m2 v2 = Some ys).
Proof.
  intros Hown _.
  destruct (Reserve_owns m v xs n Hown) as (v1 & m1 & Hrun & Hown1 & Hn & Hid).
  exists v1, m1. split; [exact Hrun|]. split; [exact Hn|].
  split; [now apply elements_owns|]. split; [exact Hid|].
  intros -> ys Hys.
  destruct (pushes_room ys m1 v1 [] Hown1) as (m2 & Hrun2 & Hown2 & Htr);
    [simpl; lia|].
  eexists _, m2. split; [exact Hrun2|]. split; [reflexivity|].
  split; [exact Htr|]. now apply elements_owns.
Qed.

(** C8, as amended.  [EmplaceBack] appends exactly one element, constructed
    from the arguments, and returns a reference to it; [PushBack] appends
    exactly one element, constructed from its argument, and returns
    nothing. *)
Theorem append_one_element
    (m : mem T) (vs : list Vector) (i : nat) (v : Vector) (xs : list T) :
  vs !! i = Some v -> owns m v xs ->
  (forall args x, construct_from args = Some x ->
     exists v' p m',
       step vs (OpEmplaceBack i args) m = Ret (<[i := v']> vs, RetRef p) m' /\
       elements m' v' = Some (xs ++ [x]) /\
       p = Ptr (buffer_ (data_ v')) (length xs) /\
       read p m' = Ret x m') /\
  (forall x,
     exists v' m',
       step vs (OpPushBack i x) m = Ret (<[i := v']> vs, RetVoid) m' /\
       elements m' v' = Some (xs ++ [x])).
Proof.
  intros Hi Hown. pose proof Hown as (Hsz & _). split.
  - intros args x Hx.
    destruct (EmplaceBack_owns m v xs x Hown) as (v' & m' & Hrun & Hown' & _).
    exists v', (Ptr (buffer_ (data_ v')) (length xs)), m'.
    split; [|split; [now apply elements_owns|split; [reflexivity|]]].
    + cbn [step]. unfold object. rewrite Hi.
      erewrite bind_Ret by reflexivity.
      erewrite bind_Ret by (unfold EmplaceBack; rewrite Hx; exact Hrun).
      unfold ret. cbn [fst snd]. now rewrite Hsz.
    + now apply read_owns_last.
  - intros x.
    destruct (PushBack_owns m v xs x Hown) as (v' & m' & Hrun & Hown' & _).
    exists v', m'. split; [|now apply elements_owns].
    cbn [step]. unfold object. rewrite Hi.
    erewrite bind_Ret by reflexivity.
    erewrite bind_Ret by exact Hrun. reflexivity.
Qed.

(** C9.  In every state a program over the public interface can reach,
    every vector satisfies [0 <= size <= capacity]. *)
Theorem size_within_capacity (vs : list Vector) (m : mem T) :
  reachable vs m ->
  forall i v, vs !! i = Some v -> 0 <= Size v /\ Size v <= Capacity v.
Proof.
  intros Hreach.
  assert (Hall : Forall (fun v => size_ v <= Capacity v) vs).
  { induction Hreach as [|vs m o vs' r m' _ IH Hstep|vs m o m' _ IH _].
    - constructor.
    - eapply step_Ret_bounded; eassumption.
    - exact IH. }
  intros i v Hv. split; [lia|].
  exact (proj1 (Forall_lookup _ _) Hall i v Hv).
Qed.

(** C10.  Assigning a vector to itself, by copy or by move, changes neither
    the vector nor the memory. *)
Theorem self_assignment_unchanged
    (m : mem T) (vs : list Vector) (i : nat) (v : Vector) :
  vs !! i = Some v ->
  step vs (OpCopyAssign i i) m = Ret (vs, RetThis i) m /\
  step vs (OpMoveAssign i i) m = Ret (vs, RetThis i) m.
Proof.
  intros Hi. cbn [step]. unfold object, bind, ret. rewrite Hi.
  rewrite Nat.eqb_refl. cbn [Vector_copy_assign Vector_move_assign negb].
  unfold ret. cbn [fst snd].
  rewrite !list_insert_id by exact Hi. now split.
Qed.

(** * Further properties of the header *)

(** ** The constructors *)

Lemma map_Live_replicate n (x : T) :
  map Live (replicate n x) = replicate n (Live x).
Proof. induction n as [|n IH]; simpl; [reflexivity|]. now rewrite IH. Qed.

Lemma Vector_new_owns (m : mem T) n :
  exists v m',
    Vector_new n m = Ret v m' /\
    owns m' v (replicate n value_init) /\
    Capacity v = n /\
    trace m' =
      trace m ++ match n with 0 => [] | S _ => [EvAlloc (length (cells m)) n] end.
Proof.
  unfold Vector_new. destruct n as [|n].
  - exists (MkVec (MkRaw None 0) 0), m. split; [reflexivity|].
    split; [|split; [reflexivity|now rewrite app_nil_r]].
    repeat split. simpl. lia.
  - erewrite bind_Ret by (apply RawMemory_new_pos; lia).
    unfold GetAddress. cbn [buffer_].
    erewrite bind_Ret
      by (eapply uninitialized_value_construct_n_raw
            with (l1 := []) (l2 := []) (k := S n);
          [rewrite app_nil_r; apply blk_at_allocated_new|reflexivity
          |reflexivity]).
    eexists _, _. split; [reflexivity|]. split; [|split; reflexivity].
    apply owns_block.
    + now rewrite length_replicate.
    + rewrite length_replicate. lia.
    + eapply blk_at_eq; [eapply blk_at_store_eq, blk_at_allocated_new|].
      rewrite length_replicate, Nat.sub_diag, map_Live_replicate.
      reflexivity.
Qed.

Lemma owns_lt (m : mem T) a cap sz xs :
  owns m (MkVec (MkRaw (Some a) cap) sz) xs -> a < length (cells m).
Proof. intros (_ & _ & Hb). eapply blk_at_lt, Hb. Qed.

Lemma Vector_copy_owns (m : mem T) other xs :
  owns m other xs ->
  exists v m',
    Vector_copy other m = Ret v m' /\
    owns m' v xs /\ owns m' other xs /\
    Capacity v = length xs /\
    buffer_ (data_ v) =
      match xs with [] => None | _ :: _ => Some (length (cells m)) end /\
    trace m' =
      trace m ++
      match xs with
      | [] => []
      | _ :: _ => EvAlloc (length (cells m)) (length xs) :: map EvCopy xs
      end /\
    (forall b blk, blk_at m b blk -> blk_at m' b blk).
Proof.
  intros Hown. pose proof Hown as (Hsz & Hle & Hb).
  unfold Vector_copy. rewrite Hsz. destruct xs as [|x xs].
  - exists (MkVec (MkRaw None 0) 0), m. split; [reflexivity|].
    split; [repeat split; simpl; lia|]. split; [exact Hown|].
    split; [reflexivity|]. split; [reflexivity|].
    split; [now rewrite app_nil_r|trivial].
  - destruct other as [[[a|] cap] sz].
    2:{ apply owns_null in Hown as (_ & _ & Hnil). discriminate. }
    cbn [data_ size_ buffer_] in *.
    assert (Ha : a < length (cells m)) by (eapply owns_lt, Hown).
    set (xs' := x :: xs) in *. set (a' := length (cells m)) in *.
    assert (Haa : a <> a') by lia.
    erewrite bind_Ret by (apply RawMemory_new_pos; subst xs'; simpl; lia).
    fold a'. unfold GetAddress. cbn [buffer_].
    erewrite bind_Ret.
    2:{ eapply uninitialized_copy_n_blocks
          with (la1 := []) (lb1 := []) (lb2 := []) (xs := xs');
          [exact Haa| |reflexivity| |reflexivity|reflexivity].
        - apply blk_at_allocated_old. exact Hb.
        - rewrite app_nil_r. apply blk_at_allocated_new. }
    eexists _, _. split; [reflexivity|].
    split; [|split; [|split; [reflexivity|split; [reflexivity|split]]]].
    + apply owns_block; [reflexivity|lia|].
      rewrite Nat.sub_diag. solve_blk.
    + apply owns_block; [exact Hsz|exact Hle|].
      apply blk_at_add_trace, blk_at_store_ne; [congruence|].
      apply blk_at_allocated_old. exact Hb.
    + simpl. now rewrite <- app_assoc.
    + intros b blk Hblk. apply blk_at_add_trace.
      apply blk_at_store_ne;
        [apply blk_at_lt in Hblk; fold a' in Hblk; lia|].
      apply blk_at_allocated_old, Hblk.
Qed.

(** ** The destructor *)

Lemma Vector_dtor_owns (m : mem T) v xs :
  owns m v xs ->
  exists m',
    Vector_dtor v m = Ret tt m' /\
    (forall a, buffer_ (data_ v) = Some a -> cells m' !! a = Some None) /\
    (forall b, buffer_ (data_ v) <> Some b -> cells m' !! b = cells m !! b) /\
    length (cells m') = length (cells m) /\
    trace m' =
      trace m ++
      match buffer_ (data_ v) with Some a => [EvFree a] | None => [] end.
Proof.
  intros Hown. destruct v as [[[a|] cap] sz].
  - pose proof Hown as (Hsz & _ & Hb). cbn [data_ size_ buffer_] in *.
    erewrite Vector_dtor_live by (try exact Hb; exact Hsz).
    eexists. split; [reflexivity|]. split; [|split; [|split]].
    + intros a0 [= <-]. unfold freed, store; cbn [cells].
      apply list_lookup_insert_eq. rewrite length_insert.
      eapply blk_at_lt, Hb.
    + intros b Hne. unfold freed, store; cbn [cells].
      rewrite !list_lookup_insert_ne by congruence. reflexivity.
    + unfold freed, store; cbn [cells]. now rewrite !length_insert.
    + reflexivity.
  - apply owns_null in Hown as (-> & -> & ->).
    exists m. split; [reflexivity|]. cbn [data_ buffer_].
    split; [discriminate|]. split; [reflexivity|].
    split; [reflexivity|now rewrite app_nil_r].
Qed.

(** ** Resize *)

Lemma owns_buffer (m : mem T) v xs :
  owns m v xs -> 0 < Capacity v -> exists a, buffer_ (data_ v) = Some a.
Proof.
  intros (_ & _ & Hb) Hpos. destruct (buffer_ (data_ v)) as [a|].
  - now exists a.
  - lia.
Qed.

Lemma Resize_shrink (m : mem T) v xs n :
  owns m v xs -> n < length xs ->
  exists m',
    Resize v n m = Ret (MkVec (data_ v) n) m' /\
    owns m' (MkVec (data_ v) n) (take n xs) /\
    trace m' = trace m.
Proof.
  intros Hown Hn. destruct v as [[[a|] cap] sz].
  2:{ apply owns_null in Hown as (_ & _ & ->). simpl in Hn. lia. }
  destruct Hown as (Hsz & Hle & Hb). unfold Capacity in *.
  cbn [data_ size_ buffer_ capacity_] in *. subst sz.
  change (blk_at m a (map Live xs ++ replicate (cap - length xs) Uninit))
    in Hb.
  rewrite <- (take_drop n xs), map_app, <- app_assoc in Hb.
  rewrite (take_drop n xs) in Hb.
  assert (Ht : length (take n xs) = n) by (rewrite length_take; lia).
  assert (Hd : length (drop n xs) = length xs - n)
    by (rewrite length_drop; lia).
  unfold Resize. cbn [data_ size_].
  destruct (Nat.ltb_spec n (length xs)); [|lia].
  rewrite size_sub_le by lia. unfold GetAddress, ptr_add; cbn [base off buffer_].
  erewrite bind_Ret
    by (eapply destroy_n_live;
        [exact Hb|now rewrite length_map|now rewrite Hd]).
  eexists. split; [reflexivity|]. split; [|reflexivity].
  apply owns_block; [now rewrite Ht|rewrite Ht; lia|].
  eapply blk_at_eq; [eapply blk_at_store_eq, Hb|].
  rewrite Ht, Hd. f_equal. rewrite <- replicate_add. f_equal. lia.
Qed.

Lemma value_construct_tail (m : mem T) a cap xs n :
  blk_at m a (map Live xs ++ replicate (cap - length xs) Uninit) ->
  length xs <= n -> n <= cap ->
  uninitialized_value_construct_n (Ptr (Some a) (0 + length xs))
    (size_sub n (length xs)) m =
  Ret tt (store a (map Live (xs ++ replicate (n - length xs) value_init) ++
                   replicate (cap - n) Uninit) m).
Proof.
  intros Hb Hn Hle.
  rewrite (replicate_split _ (n - length xs) (cap - length xs)) in Hb by lia.
  rewrite size_sub_le by lia.
  erewrite uninitialized_value_construct_n_raw with (k := n - length xs);
    [|exact Hb|now rewrite length_map|reflexivity].
  do 2 f_equal. rewrite map_app, map_Live_replicate, <- app_assoc.
  do 3 f_equal. lia.
Qed.

Lemma Resize_owns (m : mem T) v xs n :
  owns m v xs ->
  exists v' m',
    Resize v n m = Ret v' m' /\
    owns m' v' (take n xs ++ replicate (n - length xs) value_init) /\
    size_ v' = n /\
    Capacity v' = Nat.max (Capacity v) n /\
    (n <= Capacity v -> data_ v' = data_ v /\ trace m' = trace m).
Proof.
  intros Hown. pose proof Hown as (Hsz & Hle & _).
  destruct (Nat.lt_trichotomy n (length xs)) as [Hlt|[->|Hgt]].
  - destruct (Resize_shrink m v xs n Hown Hlt) as (m' & Hrun & Hown' & Htr).
    eexists _, m'. split; [exact Hrun|].
    replace (n - length xs) with 0 by lia. cbn [replicate].
    rewrite app_nil_r. split; [exact Hown'|]. split; [reflexivity|].
    unfold Capacity in *. cbn [data_]. split; [lia|]. now split.
  - exists v, m. unfold Resize. rewrite Hsz, Nat.ltb_irrefl.
    split; [reflexivity|]. rewrite firstn_all, Nat.sub_diag, app_nil_r.
    split; [exact Hown|]. split; [reflexivity|]. split; [lia|]. now split.
  - assert (Hk : n = length xs + (n - length xs)) by lia.
    rewrite take_ge by lia.
    unfold Resize. rewrite Hsz.
    destruct (Nat.ltb_spec n (length xs)); [lia|].
    destruct (Nat.ltb_spec (length xs) n); [|lia].
    destruct (Nat.le_gt_cases n (Capacity v)) as [Hfit|Hgrow].
    + erewrite bind_Ret by (apply Reserve_noop, Hfit).
      destruct (owns_buffer m v xs Hown) as (a & Ha); [lia|].
      destruct v as [[buf cap] sz]. cbn [data_ size_ buffer_] in *.
      subst buf sz. destruct Hown as (_ & _ & Hb).
      unfold Capacity in *. cbn [data_ buffer_ capacity_] in *.
      unfold GetAddress, ptr_add. cbn [base off buffer_].
      erewrite bind_Ret by (eapply value_construct_tail; [exact Hb|lia|lia]).
      eexists _, _. split; [reflexivity|]. split; [|split; [reflexivity|]].
      * apply owns_block.
        -- rewrite length_app, length_replicate. lia.
        -- rewrite length_app, length_replicate. lia.
        -- eapply blk_at_eq; [eapply blk_at_store_eq, Hb|].
           rewrite length_app, length_replicate. do 2 f_equal. lia.
      * cbn [data_ capacity_]. split; [lia|]. now split.
    + destruct (Reserve_grow m v xs n Hown Hgrow) as (m1 & Hrun & Hown1 & _).
      erewrite bind_Ret by exact Hrun.
      destruct Hown1 as (_ & _ & Hb). rewrite Hsz in *.
      unfold Capacity in Hb. cbn [data_ size_ buffer_ capacity_] in *.
      unfold GetAddress, ptr_add. cbn [base off buffer_].
      erewrite bind_Ret by (eapply value_construct_tail; [exact Hb|lia|lia]).
      eexists _, _. split; [reflexivity|]. split; [|split; [reflexivity|]].
      * apply owns_block.
        -- rewrite length_app, length_replicate. lia.
        -- rewrite length_app, length_replicate. lia.
        -- eapply blk_at_eq; [eapply blk_at_store_eq, Hb|].
           rewrite length_app, length_replicate. do 2 f_equal. lia.
      * unfold Capacity in *. cbn [data_ capacity_]. split; [lia|lia].
Qed.

(** ** Copy assignment *)

Lemma RawMemory_index_ok (m : mem T) r index :
  index < capacity_ r ->
  RawMemory_index r index m = Ret (Ptr (buffer_ r) index) m.
Proof.
  intros Hlt. unfold RawMemory_index, assert, bind, ret.
  destruct (Nat.ltb_spec index (capacity_ r)); [reflexivity|lia].
Qed.

Lemma assign_elements_blocks new : forall (m : mem T) a b ca cb sa sb i old
                                          l1 l2 r1 r2,
  a <> b -> length old = length new ->
  blk_at m a (l1 ++ map Live old ++ l2) -> i = length l1 ->
  blk_at m b (r1 ++ map Live new ++ r2) -> i = length r1 ->
  i + length new <= ca -> i + length new <= cb ->
  assign_elements (MkVec (MkRaw (Some a) ca) sa) (MkVec (MkRaw (Some b) cb) sb)
                  i (length new) m =
  Ret tt (store a (l1 ++ map Live new ++ l2) m).
Proof.
  induction new as [|y new IH];
    intros m a b ca cb sa sb i old l1 l2 r1 r2 Hab Hlen Ha Hi Hb Hi' Hca Hcb.
  - destruct old; [|discriminate]. cbn [assign_elements length].
    unfold ret. now rewrite store_id.
  - destruct old as [|o old]; [discriminate|]. cbn [length] in *.
    cbn [assign_elements data_].
    erewrite bind_Ret by (apply RawMemory_index_ok; cbn [capacity_]; lia).
    erewrite bind_Ret by (apply RawMemory_index_ok; cbn [capacity_]; lia).
    cbn [buffer_]. unfold copy_assign.
    erewrite bind_Ret.
    2:{ erewrite bind_Ret by (eapply read_live; [exact Hb|exact Hi']).
        eapply write_live; [exact Ha|exact Hi]. }
    erewrite (IH _ a b ca cb sa sb (S i) old (l1 ++ [Live y]) l2
                (r1 ++ [Live y]) r2 Hab).
    + rewrite store_store. now rewrite <- app_assoc.
    + now injection Hlen.
    + rewrite <- app_assoc. eapply blk_at_store_eq, Ha.
    + rewrite length_app. simpl. lia.
    + rewrite <- app_assoc. apply blk_at_store_ne; [congruence|exact Hb].
    + rewrite length_app. simpl. lia.
    + lia.
    + lia.
Qed.

Lemma assign_elements_count (m : mem T) a b ca cb sa sb i n old new
      l1 l2 r1 r2 :
  a <> b -> length old = length new -> n = length new ->
  blk_at m a (l1 ++ map Live old ++ l2) -> i = length l1 ->
  blk_at m b (r1 ++ map Live new ++ r2) -> i = length r1 ->
  i + length new <= ca -> i + length new <= cb ->
  assign_elements (MkVec (MkRaw (Some a) ca) sa) (MkVec (MkRaw (Some b) cb) sb)
                  i n m =
  Ret tt (store a (l1 ++ map Live new ++ l2) m).
Proof. intros Hab Hlen ->. now apply assign_elements_blocks. Qed.

Lemma assign_elements_nothing (m : mem T) this rhs i :
  assign_elements this rhs i 0 m = Ret tt m.
Proof. reflexivity. Qed.

Lemma owns_same_block (m m' : mem T) v xs :
  owns m v xs ->
  (forall b, buffer_ (data_ v) = Some b -> cells m' !! b = cells m !! b) ->
  owns m' v xs.
Proof.
  intros (Hsz & Hle & Hb) Hsame. split; [exact Hsz|]. split; [exact Hle|].
  destruct (buffer_ (data_ v)) as [b|]; [|exact Hb].
  now rewrite (Hsame b eq_refl).
Qed.

Lemma owns_blocks_kept (m m' : mem T) v xs :
  owns m v xs ->
  (forall b blk, blk_at m b blk -> blk_at m' b blk) ->
  owns m' v xs.
Proof.
  intros (Hsz & Hle & Hb) Hkept. split; [exact Hsz|]. split; [exact Hle|].
  destruct (buffer_ (data_ v)) as [b|]; [|exact Hb].
  apply Hkept, Hb.
Qed.

Lemma Vector_copy_assign_realloc (m : mem T) v w xs ys :
  owns m v xs -> owns m w ys ->
  (forall a, buffer_ (data_ v) = Some a -> buffer_ (data_ w) <> Some a) ->
  Capacity v < size_ w ->
  exists v' m',
    Vector_copy_assign false v w m = Ret v' m' /\
    owns m' v' ys /\ owns m' w ys /\ Capacity v' = length ys.
Proof.
  intros Hv Hw Hdist Hlt. unfold Vector_copy_assign. cbn [negb].
  destruct (Nat.ltb_spec (Capacity v) (size_ w)); [|lia].
  destruct (Vector_copy_owns m w ys Hw)
    as (rc & m1 & Hrun & Hrc & Hw1 & Hcap & Hbuf & _ & Hkept).
  erewrite bind_Ret by exact Hrun.
  cbn [Swap RawMemory_Swap].
  assert (Hys : ys <> []).
  { destruct Hw as (Hsz & _). intros ->. simpl in Hsz. lia. }
  assert (Hv1 : owns m1 v xs) by (eapply owns_blocks_kept; eassumption).
  replace (MkVec (MkRaw (buffer_ (data_ v)) (capacity_ (data_ v))) (size_ v))
    with v by now destruct v as [[bv cv] sv].
  destruct (Vector_dtor_owns m1 v xs Hv1) as (m2 & Hd & _ & Hsame & _ & _).
  erewrite bind_Ret by exact Hd.
  eexists _, m2. split; [reflexivity|].
  assert (Hfresh : buffer_ (data_ rc) = Some (length (cells m)))
    by (destruct ys; [congruence|exact Hbuf]).
  clear Hbuf. split; [|split].
  - destruct rc as [[brc crc] src]. cbn [data_ buffer_ capacity_ size_] in *.
    subst brc.
    eapply owns_same_block;
      [exact Hrc
      |intros b E; cbn [data_ buffer_] in E; injection E as <-; apply Hsame].
    intros E. destruct v as [[[a|] cv] sv]; [|discriminate].
    cbn [data_ buffer_] in E. injection E as ->.
    apply owns_lt in Hv. lia.
  - eapply owns_same_block; [exact Hw1|]. intros b Hb. apply Hsame.
    intros E. exact (Hdist b E Hb).
  - unfold Capacity in *. cbn [data_ capacity_]. exact Hcap.
Qed.

Lemma Vector_copy_assign_shrink (m : mem T) v w xs ys :
  owns m v xs -> owns m w ys ->
  (forall a, buffer_ (data_ v) = Some a -> buffer_ (data_ w) <> Some a) ->
  length ys < length xs ->
  exists m',
    Vector_copy_assign false v w m = Ret (MkVec (data_ v) (length ys)) m' /\
    owns m' (MkVec (data_ v) (length ys)) ys /\ owns m' w ys /\
    trace m' = trace m.
Proof.
  intros Hv Hw Hdist Hlt.
  pose proof Hv as (Hsv & Hlv & Hbv). pose proof Hw as (Hsw & Hlw & Hbw).
  destruct v as [[[a|] cap] sz].
  2:{ apply owns_null in Hv as (_ & _ & ->). simpl in Hlt. lia. }
  unfold Capacity in *. cbn [data_ size_ buffer_ capacity_] in *. subst sz.
  change (blk_at m a (map Live xs ++ replicate (cap - length xs) Uninit))
    in Hbv.
  set (k := length ys) in *.
  assert (Ht : length (take k xs) = k) by (rewrite length_take; lia).
  assert (Hd : length (drop k xs) = length xs - k)
    by (rewrite length_drop; lia).
  assert (Hbv' : blk_at m a ([] ++ map Live (take k xs) ++
                   map Live (drop k xs) ++
                   replicate (cap - length xs) Uninit)).
  { eapply blk_at_eq; [exact Hbv|].
    rewrite <- (take_drop k xs) at 1. rewrite map_app, <- app_assoc.
    reflexivity. }
  unfold Vector_copy_assign, Capacity. cbn [negb data_ size_ capacity_].
  rewrite Hsw.
  destruct (Nat.ltb_spec cap k); [lia|].
  destruct (Nat.ltb_spec k (length xs)); [|lia].
  assert (Hassign : exists m1,
    assign_elements (MkVec (MkRaw (Some a) cap) (length xs)) w 0 k m =
      Ret tt m1 /\
    blk_at m1 a (map Live ys ++ map Live (drop k xs) ++
                 replicate (cap - length xs) Uninit) /\
    owns m1 w ys /\ trace m1 = trace m).
  { destruct w as [[[b|] capw] szw].
    - cbn [data_ size_ buffer_ capacity_] in *.
      assert (Hab : a <> b) by (intros ->; now apply (Hdist b)).
      eexists. split; [|split; [|split]].
      + eapply assign_elements_blocks
          with (old := take k xs) (l1 := []) (r1 := [])
               (r2 := replicate (capw - k) Uninit);
          [exact Hab|exact Ht|exact Hbv'|reflexivity|exact Hbw|reflexivity
          |cbn [length]; lia|cbn [length]; lia].
      + eapply blk_at_store_eq, Hbv'.
      + apply owns_block; [exact Hsw|exact Hlw|].
        apply blk_at_store_ne; [exact Hab|exact Hbw].
      + reflexivity.
    - apply owns_null in Hw as (-> & -> & ->). exists m.
      split; [reflexivity|]. split; [exact Hbv'|]. split; [|reflexivity].
      repeat split. simpl. lia. }
  destruct Hassign as (m1 & Hrun & Hb1 & Hw1 & Htr).
  erewrite bind_Ret by exact Hrun.
  rewrite size_sub_le by lia. unfold GetAddress, ptr_add.
  cbn [base off buffer_].
  erewrite bind_Ret
    by (eapply destroy_n_live with (l1 := map Live ys);
        [exact Hb1|now rewrite length_map|now rewrite Hd]).
  eexists. split; [reflexivity|]. split; [|split; [|exact Htr]].
  - apply owns_block; [reflexivity|lia|].
    eapply blk_at_eq; [eapply blk_at_store_eq, Hb1|].
    rewrite Hd. f_equal. rewrite <- replicate_add. f_equal. lia.
  - eapply owns_same_block; [exact Hw1|]. intros b Hb.
    unfold store; cbn [cells]. apply list_lookup_insert_ne.
    intros ->. exact (Hdist b eq_refl Hb).
Qed.

Lemma Vector_copy_assign_extend (m : mem T) v w xs ys :
  owns m v xs -> owns m w ys ->
  (forall a, buffer_ (data_ v) = Some a -> buffer_ (data_ w) <> Some a) ->
  length xs <= length ys -> length ys <= Capacity v ->
  exists m',
    Vector_copy_assign false v w m = Ret (MkVec (data_ v) (length ys)) m' /\
    owns m' (MkVec (data_ v) (length ys)) ys /\ owns m' w ys /\
    trace m' = trace m ++ map EvCopy (drop (length xs) ys).
Proof.
  intros Hv Hw Hdist Hle Hfit.
  pose proof Hv as (Hsv & Hlv & Hbv). pose proof Hw as (Hsw & Hlw & Hbw).
  unfold Vector_copy_assign. cbn [negb]. rewrite Hsw, Hsv.
  destruct (Nat.ltb_spec (Capacity v) (length ys)); [lia|].
  destruct (Nat.ltb_spec (length ys) (length xs)); [lia|].
  destruct ys as [|y ys0].
  - destruct xs; [|simpl in Hle; lia]. cbn [length drop map].
    exists m. split; [reflexivity|]. rewrite app_nil_r.
    split; [|split; [exact Hw|reflexivity]].
    destruct v as [d sz]. cbn [data_ size_] in *. now subst sz.
  - set (ys := y :: ys0) in *.
    destruct w as [[[b|] capw] szw].
    2:{ apply owns_null in Hw as (_ & _ & Hnil). discriminate. }
    destruct v as [[[a|] cap] sz].
    2:{ apply owns_null in Hv as (-> & _ & _).
        unfold Capacity in Hfit. simpl in Hfit. lia. }
    unfold Capacity in *. cbn [data_ size_ buffer_ capacity_] in *.
    assert (Hab : a <> b) by (intros ->; now apply (Hdist b)).
    set (k := length xs) in *.
    assert (Ht : length (take k ys) = k) by (rewrite length_take; lia).
    assert (Hd : length (drop k ys) = length ys - k)
      by (rewrite length_drop; lia).
    change (blk_at m a (map Live xs ++ replicate (cap - k) Uninit)) in Hbv.
    change (blk_at m b (map Live ys ++ replicate (capw - length ys) Uninit))
      in Hbw.
    assert (Hbw' : blk_at m b ([] ++ map Live (take k ys) ++
                     map Live (drop k ys) ++
                     replicate (capw - length ys) Uninit)).
    { eapply blk_at_eq; [exact Hbw|].
      rewrite <- (take_drop k ys) at 1. rewrite map_app, <- app_assoc.
      reflexivity. }
    erewrite bind_Ret.
    2:{ eapply assign_elements_count
          with (old := xs) (new := take k ys) (l1 := []) (r1 := []);
          [exact Hab|now rewrite Ht|now rewrite Ht|exact Hbv|reflexivity
          |exact Hbw'|reflexivity|rewrite Ht; cbn [length]; lia
          |rewrite Ht; cbn [length]; lia]. }
    rewrite size_sub_le by lia. unfold GetAddress, ptr_add.
    cbn [base off buffer_ app].
    erewrite bind_Ret.
    2:{ eapply uninitialized_copy_n_blocks
          with (xs := drop k ys) (la1 := map Live (take k ys))
               (lb1 := map Live (take k ys))
               (lb2 := replicate (cap - length ys) Uninit).
        - congruence.
        - apply blk_at_store_ne; [exact Hab|]. exact Hbw'.
        - now rewrite length_map.
        - eapply blk_at_eq; [eapply blk_at_store_eq, Hbv|].
          f_equal. rewrite Hd, <- replicate_add. f_equal. lia.
        - now rewrite length_map.
        - now rewrite Hd. }
    eexists. split; [reflexivity|]. split; [|split; [|reflexivity]].
    + apply owns_block; [reflexivity|lia|].
      eapply blk_at_eq; [apply blk_at_add_trace; eapply blk_at_store_eq|].
      * apply blk_at_store_eq with (blk := map Live xs ++
                                           replicate (cap - k) Uninit).
        exact Hbv.
      * rewrite app_assoc, <- map_app, take_drop. reflexivity.
    + apply owns_block; [exact Hsw|exact Hlw|].
      apply blk_at_add_trace.
      apply blk_at_store_ne; [exact Hab|].
      apply blk_at_store_ne; [exact Hab|]. exact Hbw.
Qed.

Lemma Vector_copy_assign_owns (m : mem T) v w xs ys :
  owns m v xs -> owns m w ys ->
  (forall a, buffer_ (data_ v) = Some a -> buffer_ (data_ w) <> Some a) ->
  exists v' m',
    Vector_copy_assign false v w m = Ret v' m' /\
    owns m' v' ys /\ owns m' w ys /\
    (length ys <= Capacity v -> data_ v' = data_ v).
Proof.
  intros Hv Hw Hdist. pose proof Hw as (Hsw & _).
  destruct (Nat.lt_ge_cases (Capacity v) (length ys)) as [Hbig|Hfit].
  - destruct (Vector_copy_assign_realloc m v w xs ys Hv Hw Hdist)
      as (v' & m' & Hrun & Hv' & Hw' & _); [lia|].
    exists v', m'. split; [exact Hrun|]. split; [exact Hv'|].
    split; [exact Hw'|lia].
  - destruct (Nat.lt_ge_cases (length ys) (length xs)) as [Hshrink|Hext].
    + destruct (Vector_copy_assign_shrink m v w xs ys Hv Hw Hdist Hshrink)
        as (m' & Hrun & Hv' & Hw' & _).
      eexists _, m'. split; [exact Hrun|]. split; [exact Hv'|].
      split; [exact Hw'|reflexivity].
    + destruct (Vector_copy_assign_extend m v w xs ys Hv Hw Hdist Hext Hfit)
        as (m' & Hrun & Hv' & Hw' & _).
      eexists _, m'. split; [exact Hrun|]. split; [exact Hv'|].
      split; [exact Hw'|reflexivity].
Qed.

(** ** Confinement: a call touches its own block and fresh blocks only *)

Section Confinement.

Variable a : option nat.
Variable n0 : nat.

Lemma same_elsewhere_refl (m : mem T) : same_elsewhere a n0 m m.
Proof. split; [lia|reflexivity]. Qed.

Lemma same_elsewhere_trans (m m1 m2 : mem T) :
  same_elsewhere a n0 m m1 -> same_elsewhere a n0 m1 m2 ->
  same_elsewhere a n0 m m2.
Proof.
  intros (Hl1 & H1) (Hl2 & H2). split; [lia|].
  intros b Hb Hne. now rewrite H2, H1.
Qed.

Lemma same_elsewhere_store (m : mem T) c blk :
  own_buf a n0 (Some c) -> same_elsewhere a n0 m (store c blk m).
Proof.
  intros Hown. split; [unfold store; cbn [cells]; now rewrite length_insert|].
  intros b Hb Hne. unfold store; cbn [cells].
  apply list_lookup_insert_ne. intros ->.
  destruct Hown as [E|E]; [congruence|]. specialize (E b eq_refl). lia.
Qed.

Lemma same_elsewhere_freed (m : mem T) c :
  own_buf a n0 (Some c) -> same_elsewhere a n0 m (freed c m).
Proof.
  intros Hown. split; [unfold freed; cbn [cells]; now rewrite length_insert|].
  intros b Hb Hne. unfold freed; cbn [cells].
  apply list_lookup_insert_ne. intros ->.
  destruct Hown as [E|E]; [congruence|]. specialize (E b eq_refl). lia.
Qed.

Lemma same_elsewhere_allocated (m : mem T) n :
  n0 <= length (cells m) -> same_elsewhere a n0 m (allocated n m).
Proof.
  intros Hn0.
  split; [unfold allocated; cbn [cells]; rewrite length_app; lia|].
  intros b Hb Hne. unfold allocated; cbn [cells].
  apply lookup_app_l. lia.
Qed.

(** The rules. *)

Lemma confined_ret {A : Type} (r : A) (Q : A -> Prop) :
  Q r -> confined a n0 (ret r) Q.
Proof. intros HQ m _. split; [exact HQ|apply same_elsewhere_refl]. Qed.

Lemma confined_bind {A B : Type} (c : M A) (k : A -> M B) Q Q' :
  confined a n0 c Q -> (forall r, Q r -> confined a n0 (k r) Q') ->
  confined a n0 (bind c k) Q'.
Proof.
  intros Hc Hk m Hm. specialize (Hc m Hm). unfold bind.
  destruct (c m) as [r m1|m1|]; [|exact Hc|exact I].
  destruct Hc as (HQ & Hse).
  specialize (Hk r HQ m1 ltac:(destruct Hse; lia)).
  destruct (k r m1) as [r2 m2|m2|]; [|eapply same_elsewhere_trans; eassumption
                                     |exact I].
  destruct Hk as (HQ' & Hse'). split; [exact HQ'|].
  eapply same_elsewhere_trans; eassumption.
Qed.

Lemma confined_weaken {A : Type} (c : M A) (Q Q' : A -> Prop) :
  confined a n0 c Q -> (forall r, Q r -> Q' r) -> confined a n0 c Q'.
Proof.
  intros Hc HQ m Hm. specialize (Hc m Hm).
  destruct (c m) as [r m1|m1|]; [|exact Hc|exact I].
  destruct Hc as (Hr & Hse). split; [apply HQ, Hr|exact Hse].
Qed.

Lemma confined_on_unwind {A : Type} (c : M A) cl Q Q' :
  confined a n0 c Q -> confined a n0 cl Q' ->
  confined a n0 (on_unwind c cl) Q.
Proof.
  intros Hc Hcl m Hm. specialize (Hc m Hm). unfold on_unwind.
  destruct (c m) as [r m1|m1|]; [exact Hc| |exact I].
  specialize (Hcl m1 ltac:(destruct Hc; lia)).
  destruct (cl m1) as [r2 m2|m2|]; [|exact I|exact I].
  destruct Hcl as (_ & Hse). eapply same_elsewhere_trans; eassumption.
Qed.

Lemma confined_undefined {A : Type} (Q : A -> Prop) :
  confined a n0 undefined Q.
Proof. intros m _. exact I. Qed.

Lemma confined_throw {A : Type} (Q : A -> Prop) : confined a n0 throw Q.
Proof. intros m _. apply same_elsewhere_refl. Qed.

(** The slot primitives. *)

Lemma confined_pure {A : Type} (c : M A) (Q : A -> Prop) :
  (forall m r m', c m = Ret r m' -> m' = m /\ Q r) ->
  (forall m m', c m = Throw m' -> m' = m) ->
  confined a n0 c Q.
Proof.
  intros HR HT m _. destruct (c m) as [r m1|m1|] eqn:E; [| |exact I].
  - destruct (HR m r m1 E) as (-> & HQ).
    split; [exact HQ|apply same_elsewhere_refl].
  - rewrite (HT m m1 E). apply same_elsewhere_refl.
Qed.

Lemma confined_read p : confined a n0 (read p) (fun _ => True).
Proof.
  apply confined_pure; intros m; unfold read;
    destruct (block_at m p) as [[c blk]|]; try discriminate;
    destruct (blk !! off p) as [[|v]|]; try discriminate.
  intros r m' [= <- <-]. now split.
Qed.

Lemma block_at_base (m : mem T) p c blk :
  block_at m p = Some (c, blk) -> base p = Some c.
Proof.
  unfold block_at. destruct (base p) as [c0|]; [|discriminate].
  destruct (cells m !! c0) as [[blk0|]|]; try discriminate.
  now intros [= -> _].
Qed.

Lemma confined_construct_at p v :
  own_buf a n0 (base p) -> confined a n0 (construct_at p v) (fun _ => True).
Proof.
  intros Hown m _. unfold construct_at.
  destruct (block_at m p) as [[c blk]|] eqn:E; [|exact I].
  apply block_at_base in E. rewrite E in Hown.
  destruct (blk !! off p) as [[|w]|]; try exact I.
  split; [exact I|now apply same_elsewhere_store].
Qed.

Lemma confined_destroy_at p :
  own_buf a n0 (base p) -> confined a n0 (destroy_at p) (fun _ => True).
Proof.
  intros Hown m _. unfold destroy_at.
  destruct (block_at m p) as [[c blk]|] eqn:E; [|exact I].
  apply block_at_base in E. rewrite E in Hown.
  destruct (blk !! off p) as [[|w]|]; try exact I.
  split; [exact I|now apply same_elsewhere_store].
Qed.

Lemma confined_write p v :
  own_buf a n0 (base p) -> confined a n0 (write p v) (fun _ => True).
Proof.
  intros Hown m _. unfold write.
  destruct (block_at m p) as [[c blk]|] eqn:E; [|exact I].
  apply block_at_base in E. rewrite E in Hown.
  destruct (blk !! off p) as [[|w]|]; try exact I.
  split; [exact I|now apply same_elsewhere_store].
Qed.

Lemma confined_log e : confined a n0 (log e) (fun _ => True).
Proof. intros m _. split; [exact I|]. split; [reflexivity|reflexivity]. Qed.

Lemma confined_assert b : confined a n0 (assert b) (fun _ => b = true).
Proof.
  intros m _. unfold assert. destruct b; [|exact I].
  split; [reflexivity|apply same_elsewhere_refl].
Qed.

Lemma confined_Allocate n :
  confined a n0 (Allocate n) (fun buf => forall c, buf = Some c -> n0 <= c).
Proof.
  intros m Hm. unfold Allocate. destruct (n =? 0)%nat.
  - split; [discriminate|apply same_elsewhere_refl].
  - split; [intros c [= <-]; exact Hm|now apply same_elsewhere_allocated].
Qed.

Lemma confined_Deallocate buf :
  own_buf a n0 buf -> confined a n0 (Deallocate buf) (fun _ => True).
Proof.
  intros Hown m _. unfold Deallocate. destruct buf as [c|].
  - destruct (cells m !! c) as [[blk|]|]; try exact I.
    split; [exact I|now apply same_elsewhere_freed].
  - split; [exact I|apply same_elsewhere_refl].
Qed.

(** Composite slot operations and the loops. *)

Ltac own_side := unfold ptr_add; cbn [base]; assumption.

Ltac conf_prim :=
  first
    [ apply confined_read
    | apply confined_construct_at; own_side
    | apply confined_destroy_at; own_side
    | apply confined_write; own_side
    | apply confined_log
    | apply confined_throw
    | apply confined_undefined
    | apply confined_ret; exact I ].

Ltac conf_seq :=
  repeat (eapply confined_bind; [conf_prim|intros ? _]); try conf_prim.

Lemma confined_move_construct src dst :
  own_buf a n0 (base src) -> own_buf a n0 (base dst) ->
  confined a n0 (move_construct src dst) (fun _ => True).
Proof. intros Hs Hd. unfold move_construct. conf_seq. Qed.

Lemma confined_move_assign src dst :
  own_buf a n0 (base src) -> own_buf a n0 (base dst) ->
  confined a n0 (move_assign src dst) (fun _ => True).
Proof. intros Hs Hd. unfold move_assign. conf_seq. Qed.

Lemma confined_copy_assign src dst :
  own_buf a n0 (base dst) ->
  confined a n0 (copy_assign src dst) (fun _ => True).
Proof. intros Hd. unfold copy_assign. conf_seq. Qed.

Lemma confined_destroy_loop n : forall p,
  own_buf a n0 (base p) -> confined a n0 (destroy_loop p n) (fun _ => True).
Proof.
  induction n as [|n IH]; intros p Hp; cbn [destroy_loop]; [conf_prim|].
  eapply confined_bind; [conf_prim|intros _ _]. apply IH. own_side.
Qed.

Lemma confined_value_construct_loop n : forall p,
  own_buf a n0 (base p) ->
  confined a n0 (value_construct_loop p n) (fun _ => True).
Proof.
  induction n as [|n IH]; intros p Hp; cbn [value_construct_loop];
    [conf_prim|].
  eapply confined_bind; [conf_prim|intros _ _]. apply IH. own_side.
Qed.

Lemma confined_copy_loop n : forall src dst,
  own_buf a n0 (base dst) -> confined a n0 (copy_loop src dst n) (fun _ => True).
Proof.
  induction n as [|n IH]; intros src dst Hd; cbn [copy_loop]; [conf_prim|].
  do 3 (eapply confined_bind; [conf_prim|intros ? _]). apply IH. own_side.
Qed.

Lemma confined_move_loop n : forall src dst,
  own_buf a n0 (base src) -> own_buf a n0 (base dst) ->
  confined a n0 (move_loop src dst n) (fun _ => True).
Proof.
  induction n as [|n IH]; intros src dst Hs Hd; cbn [move_loop]; [conf_prim|].
  do 4 (eapply confined_bind; [conf_prim|intros ? _]).
  apply IH; own_side.
Qed.

Lemma confined_move_assign_loop n : forall src dst,
  own_buf a n0 (base src) -> own_buf a n0 (base dst) ->
  confined a n0 (move_assign_loop src dst n) (fun _ => True).
Proof.
  induction n as [|n IH]; intros src dst Hs Hd; cbn [move_assign_loop];
    [conf_prim|].
  eapply confined_bind;
    [apply confined_move_assign; assumption|intros _ _].
  apply IH; own_side.
Qed.

Lemma confined_move_backward_loop n : forall first d_first,
  own_buf a n0 (base first) -> own_buf a n0 (base d_first) ->
  confined a n0 (move_backward_loop first d_first n) (fun _ => True).
Proof.
  induction n as [|n IH]; intros first d_first Hs Hd;
    cbn [move_backward_loop]; [conf_prim|].
  eapply confined_bind;
    [apply confined_move_assign; own_side|intros _ _].
  now apply IH.
Qed.

Lemma confined_for_n n ps loop :
  (forall k, confined a n0 (loop k) (fun _ => True)) ->
  confined a n0 (for_n n ps loop) (fun _ => True).
Proof.
  intros Hloop m Hm. unfold for_n. destruct (n =? 0)%N.
  - split; [exact I|apply same_elsewhere_refl].
  - destruct (forallb _ ps); [|exact I]. now apply Hloop.
Qed.

Lemma confined_destroy_n p n :
  own_buf a n0 (base p) -> confined a n0 (destroy_n p n) (fun _ => True).
Proof.
  intros Hp. apply confined_for_n. intros k.
  now apply confined_destroy_loop.
Qed.

Lemma confined_uninitialized_value_construct_n p n :
  own_buf a n0 (base p) ->
  confined a n0 (uninitialized_value_construct_n p n) (fun _ => True).
Proof.
  intros Hp. apply confined_for_n. intros k.
  now apply confined_value_construct_loop.
Qed.

Lemma confined_uninitialized_copy_n src n dst :
  own_buf a n0 (base dst) ->
  confined a n0 (uninitialized_copy_n src n dst) (fun _ => True).
Proof.
  intros Hd. apply confined_for_n. intros k. now apply confined_copy_loop.
Qed.

Lemma confined_uninitialized_move_n src n dst :
  own_buf a n0 (base src) -> own_buf a n0 (base dst) ->
  confined a n0 (uninitialized_move_n src n dst) (fun _ => True).
Proof.
  intros Hs Hd. apply confined_for_n. intros k. now apply confined_move_loop.
Qed.

Lemma confined_ptr_diff last first :
  confined a n0 (ptr_diff last first) (fun _ => True).
Proof.
  apply confined_pure; intros m; unfold ptr_diff;
    destruct (base last), (base first); try discriminate;
    repeat match goal with |- context [if ?b then _ else _] => destruct b end;
    try discriminate; intros r m' [= <- <-]; now split.
Qed.

Lemma confined_ptr_sub p k :
  confined a n0 (ptr_sub p k) (fun q => base q = base p).
Proof.
  apply confined_pure; intros m; unfold ptr_sub;
    destruct (k <=? off p)%nat; try discriminate.
  intros r m' [= <- <-]. now split.
Qed.

Lemma confined_std_move first last d_first :
  own_buf a n0 (base first) -> own_buf a n0 (base d_first) ->
  confined a n0 (std_move first last d_first) (fun _ => True).
Proof.
  intros Hs Hd. unfold std_move.
  eapply confined_bind; [apply confined_ptr_diff|intros n _].
  apply confined_for_n. intros k. now apply confined_move_assign_loop.
Qed.

Lemma confined_std_move_backward first last d_last :
  own_buf a n0 (base first) -> own_buf a n0 (base d_last) ->
  confined a n0 (std_move_backward first last d_last) (fun _ => True).
Proof.
  intros Hs Hd. unfold std_move_backward.
  eapply confined_bind; [apply confined_ptr_diff|intros n _].
  eapply confined_bind; [apply confined_ptr_sub|intros q Hq].
  apply confined_for_n. intros k.
  apply confined_move_backward_loop; [assumption|now rewrite Hq].
Qed.

(** RawMemory and Vector. *)

Lemma own_buf_fresh buf :
  (forall c, buf = Some c -> n0 <= c) -> own_buf a n0 buf.
Proof. intros H. now right. Qed.

Lemma own_buf_None : own_buf a n0 None.
Proof. right. discriminate. Qed.

Lemma confined_RawMemory_new n :
  confined a n0 (RawMemory_new n)
    (fun d => (forall c, buffer_ d = Some c -> n0 <= c) /\ capacity_ d = n).
Proof.
  unfold RawMemory_new.
  eapply confined_bind; [apply confined_Allocate|intros buf Hbuf].
  apply confined_ret. now split.
Qed.

Lemma confined_RawMemory_plus r offset :
  confined a n0 (RawMemory_plus r offset) (fun p => base p = buffer_ r).
Proof.
  unfold RawMemory_plus.
  eapply confined_bind; [apply confined_assert|intros _ _].
  now apply confined_ret.
Qed.

Lemma confined_RawMemory_index r index :
  confined a n0 (RawMemory_index r index) (fun p => base p = buffer_ r).
Proof.
  unfold RawMemory_index.
  eapply confined_bind; [apply confined_assert|intros _ _].
  now apply confined_ret.
Qed.

Lemma confined_Vector_dtor v :
  own_buf a n0 (buffer_ (data_ v)) ->
  confined a n0 (Vector_dtor v) (fun _ => True).
Proof.
  intros Hv. unfold Vector_dtor.
  eapply confined_bind; [now apply confined_destroy_n|intros _ _].
  now apply confined_Deallocate.
Qed.

Lemma confined_Vector_new n :
  confined a n0 (Vector_new n) (fun v => own_buf a n0 (buffer_ (data_ v))).
Proof.
  unfold Vector_new.
  eapply confined_bind; [apply confined_RawMemory_new|intros d (Hd & _)].
  eapply confined_bind.
  - apply confined_uninitialized_value_construct_n. now right.
  - intros _ _. apply confined_ret. now right.
Qed.

Lemma confined_Vector_copy other :
  confined a n0 (Vector_copy other)
    (fun v => own_buf a n0 (buffer_ (data_ v))).
Proof.
  unfold Vector_copy.
  eapply confined_bind; [apply confined_RawMemory_new|intros d (Hd & _)].
  eapply confined_bind.
  - apply confined_uninitialized_copy_n. now right.
  - intros _ _. apply confined_ret. now right.
Qed.

Lemma confined_Reserve this n :
  own_buf a n0 (buffer_ (data_ this)) ->
  confined a n0 (Reserve this n)
    (fun v => own_buf a n0 (buffer_ (data_ v))).
Proof.
  intros Hthis. unfold Reserve.
  destruct (n <=? Capacity this)%nat; [now apply confined_ret|].
  eapply confined_bind; [apply confined_RawMemory_new|intros d (Hd & _)].
  eapply confined_bind.
  { destruct relocate_by_move.
    - apply confined_uninitialized_move_n; [exact Hthis|now right].
    - apply confined_uninitialized_copy_n. now right. }
  intros _ _.
  eapply confined_bind; [now apply confined_destroy_n|intros _ _].
  cbn [RawMemory_Swap].
  eapply confined_bind; [now apply confined_Deallocate|intros _ _].
  apply confined_ret. now right.
Qed.

Lemma confined_Resize this n :
  own_buf a n0 (buffer_ (data_ this)) ->
  confined a n0 (Resize this n)
    (fun v => own_buf a n0 (buffer_ (data_ v))).
Proof.
  intros Hthis. unfold Resize. destruct (n <? size_ this)%nat.
  - eapply confined_bind; [now apply confined_destroy_n|intros _ _].
    now apply confined_ret.
  - destruct (size_ this <? n)%nat; [|now apply confined_ret].
    eapply confined_bind; [now apply confined_Reserve|intros v Hv].
    eapply confined_bind;
      [now apply confined_uninitialized_value_construct_n|intros _ _].
    now apply confined_ret.
Qed.

Lemma confined_PopBack this :
  own_buf a n0 (buffer_ (data_ this)) ->
  confined a n0 (PopBack this)
    (fun v => own_buf a n0 (buffer_ (data_ v))).
Proof.
  intros Hthis. unfold PopBack.
  eapply confined_bind; [apply confined_ptr_sub|intros p Hp].
  eapply confined_bind.
  - apply confined_destroy_n. rewrite Hp. exact Hthis.
  - intros _ _. now apply confined_ret.
Qed.

Lemma confined_emplace_at p r :
  own_buf a n0 (base p) -> confined a n0 (emplace_at p r) (fun _ => True).
Proof.
  intros Hp. destruct r as [v|]; cbn [emplace_at].
  - now apply confined_construct_at.
  - apply confined_throw.
Qed.

Lemma confined_Reserve_default k :
  confined a n0 (Reserve Vector_default k)
    (fun v => forall c, buffer_ (data_ v) = Some c -> n0 <= c).
Proof.
  unfold Reserve. destruct (k <=? Capacity Vector_default)%nat.
  - apply confined_ret. discriminate.
  - eapply confined_bind; [apply confined_RawMemory_new|intros d (Hd & _)].
    eapply confined_bind.
    { destruct relocate_by_move.
      - apply confined_uninitialized_move_n; [apply own_buf_None|now right].
      - apply confined_uninitialized_copy_n. now right. }
    intros _ _.
    eapply confined_bind;
      [apply confined_destroy_n, own_buf_None|intros _ _].
    cbn [RawMemory_Swap].
    eapply confined_bind;
      [apply confined_Deallocate, own_buf_None|intros _ _].
    now apply confined_ret.
Qed.

Lemma confined_EmplaceBack_with this r :
  own_buf a n0 (buffer_ (data_ this)) ->
  confined a n0 (EmplaceBack_with this r)
    (fun res => own_buf a n0 (buffer_ (data_ (fst res)))).
Proof.
  intros Hthis. unfold EmplaceBack_with.
  destruct (size_ this =? Capacity this)%nat.
  - eapply confined_bind; [apply confined_Reserve_default|intros nv Hnv].
    eapply confined_bind.
    + eapply confined_on_unwind.
      * eapply confined_bind; [apply confined_RawMemory_plus|intros p Hp].
        cbn [data_] in Hp.
        eapply confined_bind.
        { apply confined_emplace_at. rewrite Hp. now right. }
        intros _ _.
        eapply confined_bind.
        { destruct relocate_by_move.
          - apply confined_uninitialized_move_n; [exact Hthis|now right].
          - apply confined_uninitialized_copy_n. now right. }
        intros _ _. apply confined_ret. exact I.
      * apply confined_Vector_dtor. now right.
    + intros p _. cbn [Swap RawMemory_Swap data_ size_].
      eapply confined_bind; [now apply confined_Vector_dtor|intros _ _].
      apply confined_ret. now right.
  - eapply confined_bind; [apply confined_RawMemory_plus|intros p Hp].
    eapply confined_bind.
    + apply confined_emplace_at. rewrite Hp. exact Hthis.
    + intros _ _. now apply confined_ret.
Qed.

Lemma confined_PushBack this value :
  own_buf a n0 (buffer_ (data_ this)) ->
  confined a n0 (PushBack this value)
    (fun v => own_buf a n0 (buffer_ (data_ v))).
Proof.
  intros Hthis. unfold PushBack.
  eapply confined_bind; [now apply confined_EmplaceBack_with|intros res Hres].
  now apply confined_ret.
Qed.

Lemma confined_new_object r :
  confined a n0 (new_object r) (fun p => own_buf a n0 (base p)).
Proof.
  unfold new_object.
  eapply confined_bind; [apply confined_Allocate|intros buf Hbuf].
  destruct r as [v|].
  - eapply confined_bind; [apply confined_construct_at; now right|intros _ _].
    apply confined_ret. now right.
  - eapply confined_bind; [apply confined_Deallocate; now right|intros _ _].
    apply confined_throw.
Qed.

Lemma confined_Emplace_with this pos r :
  own_buf a n0 (buffer_ (data_ this)) ->
  confined a n0 (Emplace_with this pos r)
    (fun res => own_buf a n0 (buffer_ (data_ (fst res)))).
Proof.
  intros Hthis. unfold Emplace_with.
  eapply confined_bind; [apply confined_ptr_diff|intros index _].
  eapply confined_bind; [apply confined_RawMemory_plus|intros e He].
  eapply confined_bind with (Q := fun v => own_buf a n0 (buffer_ (data_ v)));
    [|intros v Hv; now apply confined_ret].
  destruct (ptr_eqb pos e).
  { eapply confined_bind;
      [now apply confined_EmplaceBack_with|intros res Hres].
    now apply confined_ret. }
  eapply confined_bind with (Q := fun v => own_buf a n0 (buffer_ (data_ v)));
    [|intros v Hv; now apply confined_ret].
  destruct (size_ this =? Capacity this)%nat.
  - eapply confined_bind; [apply confined_Reserve_default|intros nv Hnv].
    eapply confined_bind.
    + eapply confined_on_unwind.
      * eapply confined_bind.
        { apply confined_emplace_at. unfold begin, GetAddress, ptr_add.
          cbn [base data_ buffer_]. now right. }
        intros _ _. unfold begin, GetAddress.
        destruct relocate_by_move.
        -- eapply confined_bind;
             [apply confined_uninitialized_move_n;
              [exact Hthis|cbn [base data_ buffer_]; now right]
             |intros _ _].
           apply confined_uninitialized_move_n;
             [exact Hthis
             |unfold ptr_add; cbn [base data_ buffer_]; now right].
        -- eapply confined_bind;
             [apply confined_uninitialized_copy_n;
              cbn [base data_ buffer_]; now right
             |intros _ _].
           apply confined_uninitialized_copy_n.
           unfold ptr_add; cbn [base data_ buffer_]. now right.
      * apply confined_Vector_dtor. cbn [data_]. now right.
    + intros _ _. cbn [Swap RawMemory_Swap data_ size_].
      eapply confined_bind; [now apply confined_Vector_dtor|intros _ _].
      apply confined_ret. cbn [data_ buffer_]. now right.
  - eapply confined_bind; [apply confined_new_object|intros ep Hep].
    eapply confined_bind; [apply confined_RawMemory_plus|intros e' He'].
    eapply confined_bind; [apply confined_ptr_sub|intros last Hlast].
    assert (He'' : own_buf a n0 (base e')) by now rewrite He'.
    assert (Hl : own_buf a n0 (base last)) by now rewrite Hlast.
    eapply confined_bind;
      [now apply confined_move_construct|intros _ _].
    eapply confined_bind;
      [apply confined_std_move_backward; [exact Hthis|exact He'']|intros _ _].
    eapply confined_bind;
      [apply confined_std_move; [exact Hep|exact Hthis]|intros _ _].
    eapply confined_bind; [now apply confined_destroy_n|intros _ _].
    now apply confined_ret.
Qed.

Lemma confined_Erase this pos :
  own_buf a n0 (buffer_ (data_ this)) ->
  confined a n0 (Erase this pos)
    (fun res => own_buf a n0 (buffer_ (data_ (fst res)))).
Proof.
  intros Hthis. unfold Erase.
  eapply confined_bind; [apply confined_ptr_diff|intros index _].
  eapply confined_bind; [apply confined_RawMemory_plus|intros e He].
  eapply confined_bind;
    [apply confined_std_move; exact Hthis|intros _ _].
  eapply confined_bind; [now apply confined_PopBack|intros v Hv].
  now apply confined_ret.
Qed.

Lemma confined_assign_elements n : forall this rhs i,
  own_buf a n0 (buffer_ (data_ this)) ->
  confined a n0 (assign_elements this rhs i n) (fun _ => True).
Proof.
  induction n as [|n IH]; intros this rhs i Hthis; cbn [assign_elements].
  - now apply confined_ret.
  - eapply confined_bind; [apply confined_RawMemory_index|intros dst Hd].
    eapply confined_bind; [apply confined_RawMemory_index|intros src Hs].
    eapply confined_bind.
    + apply confined_copy_assign. now rewrite Hd.
    + intros _ _. now apply IH.
Qed.

Lemma confined_Vector_copy_assign self this rhs :
  own_buf a n0 (buffer_ (data_ this)) ->
  confined a n0 (Vector_copy_assign self this rhs)
    (fun v => own_buf a n0 (buffer_ (data_ v))).
Proof.
  intros Hthis. unfold Vector_copy_assign.
  destruct (negb self); [|now apply confined_ret].
  destruct (Capacity this <? size_ rhs)%nat.
  - eapply confined_bind; [apply confined_Vector_copy|intros rc Hrc].
    cbn [Swap RawMemory_Swap].
    eapply confined_bind; [now apply confined_Vector_dtor|intros _ _].
    now apply confined_ret.
  - destruct (size_ rhs <? size_ this)%nat.
    + eapply confined_bind; [now apply confined_assign_elements|intros _ _].
      eapply confined_bind; [now apply confined_destroy_n|intros _ _].
      now apply confined_ret.
    + eapply confined_bind; [now apply confined_assign_elements|intros _ _].
      eapply confined_bind;
        [now apply confined_uninitialized_copy_n|intros _ _].
      now apply confined_ret.
Qed.

End Confinement.



(** ** Element access and the preconditions of removal *)

Lemma lookup_split {A : Type} (xs : list A) i x :
  xs !! i = Some x -> xs = take i xs ++ x :: drop (S i) xs /\ length (take i xs) = i.
Proof.
  intros H. split.
  - symmetry. now apply take_drop_middle.
  - apply lookup_lt_Some in H. rewrite length_take. lia.
Qed.

Lemma read_owns_at (m : mem T) v xs i x :
  owns m v xs -> xs !! i = Some x ->
  read (Ptr (buffer_ (data_ v)) i) m = Ret x m.
Proof.
  intros Hown Hi. destruct (lookup_split xs i x Hi) as (Hxs & Hlen).
  destruct v as [[[a|] cap] sz].
  - destruct Hown as (_ & _ & Hb). cbn [data_ buffer_] in *.
    eapply read_live with (l1 := map Live (take i xs)).
    + eapply blk_at_eq; [exact Hb|].
      rewrite Hxs at 1. rewrite map_app, <- app_assoc. reflexivity.
    + now rewrite length_map.
  - apply owns_null in Hown as (_ & _ & ->). discriminate.
Qed.

Lemma Vector_index_owns (m : mem T) v xs i x :
  owns m v xs -> xs !! i = Some x ->
  Vector_index v i m = Ret (Ptr (buffer_ (data_ v)) i) m.
Proof.
  intros (Hsz & Hle & _) Hi. apply lookup_lt_Some in Hi.
  unfold Vector_index, assert. unfold bind at 1.
  destruct (Nat.ltb_spec i (size_ v)); [|lia].
  apply RawMemory_index_ok. unfold Capacity in Hle. lia.
Qed.

Lemma Vector_index_out_of_range (m : mem T) v i :
  size_ v <= i -> Vector_index v i m = Undef.
Proof.
  intros Hi. unfold Vector_index, assert, bind.
  destruct (Nat.ltb_spec i (size_ v)); [lia|reflexivity].
Qed.

Lemma PopBack_empty (m : mem T) v : size_ v = 0 -> PopBack v m = Undef.
Proof.
  intros Hz. unfold PopBack, ptr_sub, ptr_add, GetAddress, bind.
  cbn [base off]. now rewrite Hz.
Qed.

Lemma Erase_past_the_end (m : mem T) v i :
  size_ v <= i -> Erase v (ptr_add (begin v) i) m = Undef.
Proof.
  intros Hi. unfold Erase, begin, GetAddress, ptr_add. cbn [base off].
  erewrite bind_Ret by (apply ptr_diff_same; lia).
  unfold end_, RawMemory_plus, assert. unfold bind at 1. unfold bind at 1.
  destruct (size_ v <=? capacity_ (data_ v))%nat; [|reflexivity].
  unfold ret, bind, std_move, bind, ptr_diff. cbn [base off].
  destruct (buffer_ (data_ v)) as [a|].
  - rewrite Nat.eqb_refl. cbn [andb].
    destruct (Nat.leb_spec (0 + (0 + i - 0) + 1) (size_ v)); [lia|reflexivity].
  - destruct (Nat.leb_spec (0 + (0 + i - 0) + 1) (size_ v)); [lia|reflexivity].
Qed.

Lemma Vector_dtor_twice (m m' : mem T) v xs a :
  owns m v xs -> buffer_ (data_ v) = Some a ->
  Vector_dtor v m = Ret tt m' -> Vector_dtor v m' = Undef.
Proof.
  intros Hown Ha Hrun.
  destruct (Vector_dtor_owns m v xs Hown) as (m1 & Hrun1 & Hrel & _).
  rewrite Hrun in Hrun1. injection Hrun1 as <-.
  specialize (Hrel a Ha).
  unfold Vector_dtor, destroy_n, for_n, bind, GetAddress. rewrite Ha.
  destruct (N.of_nat (size_ v) =? 0)%N.
  - unfold RawMemory_dtor, Deallocate. now rewrite Ha, Hrel.
  - cbn [forallb]. unfold in_block, block_at. cbn [base].
    now rewrite Hrel.
Qed.

Lemma Erase_result (m : mem T) v pre x post :
  owns m v (pre ++ x :: post) ->
  exists m',
    Erase v (Ptr (buffer_ (data_ v)) (length pre)) m =
      Ret (MkVec (data_ v) (size_ v - 1),
           Ptr (buffer_ (data_ v)) (length pre)) m' /\
    owns m' (MkVec (data_ v) (size_ v - 1)) (pre ++ post) /\
    trace m' = trace m.
Proof.
  intros Hown. destruct v as [[[a|] cap] sz].
  - pose proof Hown as (Hsz & Hle & Hb). unfold Capacity in *.
    cbn [data_ size_ buffer_ capacity_] in *.
    rewrite length_app in *. cbn [length] in *.
    change (blk_at m a (map Live (pre ++ x :: post) ++
              replicate (cap - (length pre + S (length post))) Uninit)) in Hb.
    rewrite map_app, <- app_assoc in Hb. cbn [map app] in Hb.
    unfold Erase, GetAddress, begin, GetAddress, end_.
    cbn [data_ size_ buffer_].
    erewrite bind_Ret by (apply ptr_diff_same; lia).
    rewrite Nat.sub_0_r.
    erewrite bind_Ret by (apply RawMemory_plus_ok; cbn [capacity_]; lia).
    unfold ptr_add; cbn [base off buffer_].
    replace (0 + length pre + 1) with (S (length pre)) by lia.
    replace (0 + length pre) with (length pre) by lia.
    erewrite bind_Ret
      by (eapply std_move_left;
          [exact Hb|now rewrite length_map|lia]).
    edestruct (PopBack_owns
                 (store a (map Live pre ++ map Live post ++
                             Live (left_gap x post) ::
                             replicate (cap - (length pre + S (length post)))
                               Uninit) m)
                 (MkVec (MkRaw (Some a) cap) sz) (pre ++ post)
                 (left_gap x post)) as (m' & Hrun & Hown' & Htr).
    { apply owns_block.
      - rewrite !length_app. cbn [length]. lia.
      - rewrite !length_app. cbn [length]. lia.
      - eapply blk_at_store_eq in Hb.
        eapply blk_at_eq; [exact Hb|].
        rewrite !map_app, <- !app_assoc, !length_app. cbn [map app length].
        do 4 f_equal; lia. }
    erewrite bind_Ret by exact Hrun.
    exists m'. split; [|split; [exact Hown'|exact Htr]].
    unfold ret. cbn [data_ size_ buffer_ base off]. reflexivity.
  - apply owns_null in Hown as (_ & _ & Hnil).
    destruct pre; discriminate.
Qed.

(** ** A throwing constructor in Emplace *)

Lemma Emplace_with_throw_inplace (m : mem T) v i :
  i < size_ v -> size_ v < Capacity v ->
  Emplace_with v (ptr_add (begin v) i) None m =
  Throw (freed (length (cells m)) (allocated 1 m)).
Proof.
  intros Hi Hroom. unfold Emplace_with, begin, GetAddress, ptr_add, end_.
  cbn [base off].
  erewrite bind_Ret by (apply ptr_diff_same; lia).
  erewrite bind_Ret by (apply RawMemory_plus_ok; unfold Capacity in *; lia).
  rewrite ptr_eqb_same.
  destruct (Nat.eqb_spec (0 + i) (size_ v)); [lia|].
  destruct (Nat.eqb_spec (size_ v) (Capacity v)); [lia|].
  unfold bind at 1. unfold bind at 1. unfold bind at 1.
  unfold new_object.
  erewrite bind_Ret by (apply Allocate_pos; lia).
  erewrite bind_Ret
    by (eapply Deallocate_blk, blk_at_allocated_new).
  reflexivity.
Qed.

Lemma Emplace_with_throw_full (m : mem T) v i :
  i < size_ v -> size_ v = Capacity v ->
  Emplace_with v (ptr_add (begin v) i) None m = Undef.
Proof.
  intros Hi Hfull. unfold Emplace_with, begin, GetAddress, ptr_add, end_.
  cbn [base off].
  erewrite bind_Ret by (apply ptr_diff_same; lia).
  erewrite bind_Ret by (apply RawMemory_plus_ok; unfold Capacity in *; lia).
  rewrite ptr_eqb_same.
  destruct (Nat.eqb_spec (0 + i) (size_ v)); [lia|].
  rewrite Hfull, Nat.eqb_refl. rewrite <- Hfull.
  destruct (Nat.eqb_spec (size_ v) 0) as [E|_]; [lia|].
  unfold bind at 1. unfold bind at 1.
  erewrite bind_Ret by (apply Reserve_default; lia).
  cbn [data_ size_]. unfold bind at 1. unfold on_unwind.
  cbn [emplace_at]. unfold bind at 1, throw.
  erewrite Vector_dtor_raw;
    [reflexivity|apply blk_at_allocated_new|lia|lia].
Qed.

(** ** The capacity after a call which returns *)

Lemma PopBack_Ret_data (m m' : mem T) v v' :
  PopBack v m = Ret v' m' -> data_ v' = data_ v.
Proof.
  unfold PopBack. intros H. inv_bind H. inv_bind H.
  now apply ret_inv in H as (<- & _).
Qed.

Lemma Resize_Ret_capacity (m m' : mem T) v n v' :
  Resize v n m = Ret v' m' -> Capacity v <= Capacity v'.
Proof.
  unfold Resize. intros H. destruct (n <? size_ v)%nat.
  - inv_bind H. apply ret_inv in H as (<- & _). reflexivity.
  - destruct (size_ v <? n)%nat.
    + inv_bind H. apply Reserve_Ret in Hrun as (_ & _ & Hc).
      inv_bind H. apply ret_inv in H as (<- & _). exact Hc.
    + apply ret_inv in H as (<- & _). reflexivity.
Qed.

Lemma EmplaceBack_with_Ret_capacity (m m' : mem T) v r v' p :
  EmplaceBack_with v r m = Ret (v', p) m' -> Capacity v <= Capacity v'.
Proof.
  unfold EmplaceBack_with. intros H.
  destruct (Nat.eqb_spec (size_ v) (Capacity v)) as [E|E].
  - inv_bind H. apply Reserve_Ret in Hrun as (_ & Hk & _).
    inv_bind H. cbn [Swap RawMemory_Swap data_ size_] in H. inv_bind H.
    apply ret_inv in H as (H & _). injection H as <- _.
    unfold Capacity in *. cbn [data_ size_ capacity_ buffer_] in *.
    destruct (Nat.eqb_spec (size_ v) 0); lia.
  - inv_bind H. inv_bind H. apply ret_inv in H as (H & _).
    injection H as <- _. reflexivity.
Qed.

Lemma Emplace_with_Ret_capacity (m m' : mem T) v pos r v' p :
  Emplace_with v pos r m = Ret (v', p) m' -> Capacity v <= Capacity v'.
Proof.
  unfold Emplace_with. intros H.
  inv_bind_as H index m1 Hidx. inv_bind_as H e m2 He.
  inv_bind_as H this m3 Hthis.
  apply ret_inv in H as (H & _). injection H as <- _.
  destruct (ptr_eqb pos e).
  - inv_bind_as Hthis res m4 Hres. apply ret_inv in Hthis as (<- & _).
    destruct res as [v1 p1]. eapply EmplaceBack_with_Ret_capacity, Hres.
  - inv_bind_as Hthis this1 m4 Hin. apply ret_inv in Hthis as (<- & _).
    destruct (Nat.eqb_spec (size_ v) (Capacity v)) as [E|E].
    + inv_bind_as Hin nv m5 Hres. apply Reserve_Ret in Hres as (_ & Hk & _).
      inv_bind_as Hin u m6 Hbody. cbn [Swap RawMemory_Swap data_ size_] in Hin.
      inv_bind_as Hin u1 m7 Hd. apply ret_inv in Hin as (<- & _).
      unfold Capacity in *. cbn [data_ size_ capacity_ buffer_] in *.
      destruct (Nat.eqb_spec (size_ v) 0); lia.
    + do 7 inv_bind Hin. apply ret_inv in Hin as (<- & _). reflexivity.
Qed.

Lemma Erase_Ret_data (m m' : mem T) v pos v' p :
  Erase v pos m = Ret (v', p) m' -> data_ v' = data_ v.
Proof.
  unfold Erase. intros H. do 4 inv_bind H.
  apply ret_inv in H as (H & _). injection H as <- _.
  eapply PopBack_Ret_data; eassumption.
Qed.

Lemma Vector_copy_assign_Ret_capacity (m m' : mem T) self this rhs v :
  Vector_copy_assign self this rhs m = Ret v m' ->
  Capacity this <= Capacity v.
Proof.
  unfold Vector_copy_assign. intros H. destruct self; cbn [negb] in H.
  - apply ret_inv in H as (<- & _). reflexivity.
  - destruct (Nat.ltb_spec (Capacity this) (size_ rhs)).
    + inv_bind H. apply Vector_copy_Ret in Hrun as (Hs & Hc).
      cbn [Swap RawMemory_Swap] in H. inv_bind H.
      apply ret_inv in H as (<- & _). unfold Capacity in *. simpl. lia.
    + destruct (size_ rhs <? size_ this)%nat.
      * do 2 inv_bind H. apply ret_inv in H as (<- & _). reflexivity.
      * do 2 inv_bind H. apply ret_inv in H as (<- & _). reflexivity.
Qed.

(** * Further properties: the statements *)

(** X1.  [Vector (n)], for [n] whose byte count fits [size_t], returns a
    vector of size and capacity [n] whose elements are [n] value-initialized
    objects. *)
Theorem construct_n_value_elements (m : mem T) (n : nat) :
  fits_size_t n ->
  exists v m',
    Vector_new n m = Ret v m' /\
    Size v = n /\ Capacity v = n /\
    elements m' v = Some (replicate n value_init).
Proof.
  intros _.
  destruct (Vector_new_owns m n) as (v & m' & Hrun & Hown & Hcap & _).
  exists v, m'. split; [exact Hrun|]. split; [|split; [exact Hcap|]].
  - destruct Hown as (Hsz & _). unfold Size.
    now rewrite Hsz, length_replicate.
  - now apply elements_owns.
Qed.

(** X2.  The copy constructor makes a deep copy: the new vector holds the
    same elements in a block of its own, of exactly [Size ()] slots, every
    element copy-constructed in order, and the source still holds its
    elements. *)
Theorem copy_construct_deep (m : mem T) (other : Vector) (xs : list T) :
  owns m other xs ->
  exists v m',
    Vector_copy other m = Ret v m' /\
    elements m' v = Some xs /\ elements m' other = Some xs /\
    Size v = length xs /\ Capacity v = length xs /\
    (forall a, buffer_ (data_ v) = Some a -> buffer_ (data_ other) <> Some a) /\
    trace m' =
      trace m ++
      match xs with
      | [] => []
      | _ :: _ => EvAlloc (length (cells m)) (length xs) :: map EvCopy xs
      end.
Proof.
  intros Hown.
  destruct (Vector_copy_owns m other xs Hown)
    as (v & m' & Hrun & Hv & Ho & Hcap & Hbuf & Htr & _).
  exists v, m'. split; [exact Hrun|].
  split; [now apply elements_owns|]. split; [now apply elements_owns|].
  split; [now destruct Hv|]. split; [exact Hcap|]. split; [|exact Htr].
  intros a Ha Hoa. rewrite Ha in Hbuf.
  destruct xs as [|x xs]; [discriminate|]. injection Hbuf as ->.
  destruct other as [[bo co] so]. cbn [data_ buffer_] in Hoa. subst bo.
  apply owns_lt in Hown. lia.
Qed.

(** X3.  The move constructor hands the block and the elements over without
    touching the memory, and leaves a source of size and capacity 0 whose
    destructor does nothing. *)
Theorem move_construct_empties_source
    (m : mem T) (other : Vector) (xs : list T) :
  owns m other xs ->
  elements m (fst (Vector_move other)) = Some xs /\
  data_ (fst (Vector_move other)) = data_ other /\
  Size (snd (Vector_move other)) = 0 /\
  Capacity (snd (Vector_move other)) = 0 /\
  elements m (snd (Vector_move other)) = Some [] /\
  Vector_dtor (snd (Vector_move other)) m = Ret tt m.
Proof.
  intros Hown. destruct other as [[b c] s].
  cbn [Vector_move RawMemory_move fst snd data_ size_ buffer_ capacity_].
  split; [now apply elements_owns|]. now repeat split.
Qed.

(** X4.  [Resize (n)] returns a vector of size [n]: the first [n] old
    elements, followed by value-initialized ones when [n] exceeds the old
    size.  The capacity becomes the larger of the old capacity and [n];
    when [n] is within the capacity the block is kept and nothing is
    allocated, moved or copied.  An [n] beyond the capacity has a byte
    count which fits [size_t]. *)
Theorem resize_elements (m : mem T) (v : Vector) (xs : list T) (n : nat) :
  owns m v xs -> (Capacity v < n -> fits_size_t n) ->
  exists v' m',
    Resize v n m = Ret v' m' /\
    elements m' v' =
      Some (take n xs ++ replicate (n - length xs) value_init) /\
    Size v' = n /\
    Capacity v' = Nat.max (Capacity v) n /\
    (n <= Capacity v -> data_ v' = data_ v /\ trace m' = trace m).
Proof.
  intros Hown _.
  destruct (Resize_owns m v xs n Hown) as (v' & m' & Hrun & Hown' & H).
  exists v', m'. split; [exact Hrun|]. split; [now apply elements_owns|].
  exact H.
Qed.

(** X5.  Copy assignment between two distinct vectors gives the destination
    the elements of the source and leaves the source as it was; when the
    source fits the capacity of the destination, the destination keeps its
    block and capacity. *)
Theorem copy_assign_distinct (m : mem T) (v w : Vector) (xs ys : list T) :
  owns m v xs -> owns m w ys ->
  (forall a, buffer_ (data_ v) = Some a -> buffer_ (data_ w) <> Some a) ->
  exists v' m',
    Vector_copy_assign false v w m = Ret v' m' /\
    elements m' v' = Some ys /\ Size v' = length ys /\
    elements m' w = Some ys /\
    (length ys <= Capacity v -> data_ v' = data_ v).
Proof.
  intros Hv Hw Hdist.
  destruct (Vector_copy_assign_owns m v w xs ys Hv Hw Hdist)
    as (v' & m' & Hrun & Hv' & Hw' & Hkeep).
  exists v', m'. split; [exact Hrun|]. split; [now apply elements_owns|].
  split; [now destruct Hv'|]. split; [now apply elements_owns|exact Hkeep].
Qed.

Lemma destroy_loop_raw n : forall (m : mem T) a j blk i,
  blk_at m a blk -> i < n -> blk !! (j + i) = Some Uninit ->
  destroy_loop (Ptr (Some a) j) n m = Undef.
Proof.
  induction n as [|n IH]; intros m a j blk i Hblk Hi Hraw; [lia|].
  cbn [destroy_loop]. unfold bind.
  destruct i as [|i].
  - erewrite destroy_at_raw; [reflexivity|exact Hblk|].
    now rewrite Nat.add_0_r in Hraw.
  - unfold destroy_at at 1.
    rewrite (block_at_blk m a j blk Hblk). cbn [off].
    destruct (blk !! j) as [[|y]|]; try reflexivity.
    unfold ptr_add. cbn [base off].
    apply (IH _ a (j + 1) (<[j := Uninit]> blk) i);
      [eapply blk_at_store_eq, Hblk|lia|].
    rewrite list_lookup_insert_ne by lia.
    now replace (j + 1 + i) with (j + S i) by lia.
Qed.

Lemma Vector_dtor_needs_objects (m : mem T) a cap n blk i :
  blk_at m a blk -> i < n -> blk !! i = Some Uninit ->
  Vector_dtor (MkVec (MkRaw (Some a) cap) n) m = Undef.
Proof.
  intros Hblk Hi Hraw. unfold Vector_dtor, GetAddress, destroy_n, for_n.
  cbn [data_ size_ buffer_]. unfold bind.
  destruct (N.eqb_spec (N.of_nat n) 0) as [E|_]; [lia|].
  destruct (forallb _ _); [|reflexivity].
  rewrite Nat2N.id.
  now rewrite (destroy_loop_raw n m a 0 blk i Hblk Hi Hraw).
Qed.

(** X6.  The destructor destroys the elements and releases the block of the
    vector, and changes no other block: the destructor of each of the first
    [Size ()] slots is run, which leaves a block without objects to be
    released, and is undefined where one of these slots holds no object;
    running the destructor a second time on a vector which had a block is
    undefined. *)
Theorem destructor_releases_block (m : mem T) (v : Vector) (xs : list T) :
  owns m v xs ->
  (exists m1 m',
     destroy_n (begin v) (N.of_nat (Size v)) m = Ret tt m1 /\
     (forall a, buffer_ (data_ v) = Some a ->
        blk_at m1 a (replicate (Capacity v) Uninit)) /\
     RawMemory_dtor (data_ v) m1 = Ret tt m' /\
     Vector_dtor v m = Ret tt m' /\
     (forall a, buffer_ (data_ v) = Some a ->
        cells m' !! a = Some None /\ Vector_dtor v m' = Undef) /\
     (forall b, buffer_ (data_ v) <> Some b ->
        cells m' !! b = cells m !! b) /\
     trace m' =
       trace m ++
       match buffer_ (data_ v) with Some a => [EvFree a] | None => [] end) /\
  (forall (m0 : mem T) a blk i,
     buffer_ (data_ v) = Some a -> blk_at m0 a blk ->
     i < Size v -> blk !! i = Some Uninit ->
     Vector_dtor v m0 = Undef).
Proof.
  intros Hown. split.
  - destruct (Vector_dtor_owns m v xs Hown)
      as (m' & Hrun & Hrel & Hsame & _ & Htr).
    assert (Hd : exists m1,
              destroy_n (begin v) (N.of_nat (Size v)) m = Ret tt m1 /\
              forall a, buffer_ (data_ v) = Some a ->
                blk_at m1 a (replicate (Capacity v) Uninit)).
    { destruct v as [[[a|] cap] sz]; unfold begin, GetAddress, Size, Capacity;
        cbn [data_ size_ buffer_ capacity_].
      - pose proof Hown as (Hsz & Hle & Hblk).
        unfold Capacity in Hblk, Hle.
        cbn [data_ size_ buffer_ capacity_] in Hsz, Hle, Hblk.
        eexists. split.
        + apply (destroy_n_live m a 0 _ xs []); [exact Hblk|reflexivity|].
          now rewrite Hsz.
        + intros a' [= <-]. cbn [app].
          eapply blk_at_eq; [eapply blk_at_store_eq, Hblk|].
          rewrite <- replicate_add. f_equal. lia.
      - apply owns_null in Hown as (_ & -> & _).
        exists m. split; [apply for_n_zero|discriminate]. }
    destruct Hd as (m1 & Hd & Hraw). exists m1, m'.
    split; [exact Hd|]. split; [exact Hraw|].
    assert (Hfree : RawMemory_dtor (data_ v) m1 = Ret tt m').
    { revert Hrun. unfold Vector_dtor, bind.
      change (GetAddress (data_ v)) with (begin v).
      change (size_ v) with (Size v). now rewrite Hd. }
    split; [exact Hfree|]. split; [exact Hrun|].
    split; [|split; [exact Hsame|exact Htr]].
    intros a Ha. split; [now apply Hrel|].
    eapply Vector_dtor_twice; eassumption.
  - intros m0 a blk i Ha Hblk Hi Hraw. destruct v as [[b cap] sz].
    cbn [data_ buffer_] in Ha. subst b.
    eapply Vector_dtor_needs_objects; eassumption.
Qed.

(** X7.  [operator[]] on an index below the size returns the address of
    that element, which reads as the element; on an index at or beyond the
    size its assertion fails. *)
Theorem index_access (m : mem T) (v : Vector) (xs : list T) :
  owns m v xs ->
  (forall i x, xs !! i = Some x ->
     exists p, Vector_index v i m = Ret p m /\ read p m = Ret x m) /\
  (forall i, length xs <= i -> Vector_index v i m = Undef).
Proof.
  intros Hown. split.
  - intros i x Hi. eexists. split.
    + eapply Vector_index_owns; eassumption.
    + eapply read_owns_at; eassumption.
  - intros i Hi. apply Vector_index_out_of_range.
    destruct Hown as (-> & _). exact Hi.
Qed.

(** X8.  The preconditions of removal are real: [PopBack] on a vector of
    size 0 and [Erase] at [end ()] or beyond are undefined. *)
Theorem removal_needs_an_element (m : mem T) (v : Vector) :
  (size_ v = 0 -> PopBack v m = Undef) /\
  (forall i, size_ v <= i -> Erase v (ptr_add (begin v) i) m = Undef).
Proof.
  split.
  - apply PopBack_empty.
  - intros i. apply Erase_past_the_end.
Qed.

(** X9.  [PopBack] on a non-empty vector destroys the last element only:
    afterwards its slot holds no object, the others stay, the block and the
    capacity are kept, and nothing is allocated, released, moved or
    copied. *)
Theorem pop_back_removes_last (m : mem T) (v : Vector) (xs : list T) (x : T) :
  owns m v (xs ++ [x]) ->
  exists v' m',
    PopBack v m = Ret v' m' /\
    owns m' v' xs /\
    (forall a, buffer_ (data_ v) = Some a ->
       exists blk, blk_at m' a blk /\ blk !! length xs = Some Uninit) /\
    elements m' v' = Some xs /\
    Size v' = length xs /\
    data_ v' = data_ v /\
    trace m' = trace m.
Proof.
  intros Hown.
  destruct (PopBack_owns m v xs x Hown) as (m' & Hrun & Hown' & Htr).
  eexists _, m'. split; [exact Hrun|]. split; [exact Hown'|].
  split; [|split; [now apply elements_owns|]].
  - intros a Ha. destruct Hown as (Hsz & Hle & _).
    destruct Hown' as (_ & _ & Hblk). rewrite length_app in Hle.
    cbn [length data_] in Hblk, Hle. rewrite Ha in Hblk.
    eexists. split; [exact Hblk|].
    rewrite lookup_app_r by (rewrite length_map; lia).
    rewrite length_map, Nat.sub_diag.
    apply lookup_replicate. split; [reflexivity|].
    unfold Capacity in *. cbn [data_] in *. lia.
  - split; [now destruct Hown'|]. split; [reflexivity|exact Htr].
Qed.

(** X10.  [Erase] at the position of an element removes that element and
    shifts its successors one slot to the left; the block and the capacity
    are kept, nothing is allocated, and the iterator returned is the
    position erased at, where the next element now is. *)
Theorem erase_shifts_left
    (m : mem T) (v : Vector) (pre : list T) (x : T) (post : list T) :
  owns m v (pre ++ x :: post) ->
  exists v' m',
    Erase v (ptr_add (begin v) (length pre)) m =
      Ret (v', ptr_add (begin v') (length pre)) m' /\
    elements m' v' = Some (pre ++ post) /\
    Size v' = length pre + length post /\
    data_ v' = data_ v /\
    trace m' = trace m /\
    (forall y, post !! 0 = Some y ->
       read (ptr_add (begin v') (length pre)) m' = Ret y m').
Proof.
  intros Hown.
  destruct (Erase_result m v pre x post Hown) as (m' & Hrun & Hown' & Htr).
  eexists _, m'. split; [exact Hrun|]. split; [now apply elements_owns|].
  split; [|split; [reflexivity|split; [exact Htr|]]].
  - destruct Hown' as (Hsz & _). unfold Size. rewrite Hsz.
    now rewrite length_app.
  - intros y Hy. unfold begin, GetAddress, ptr_add. cbn [base off].
    eapply read_owns_at; [exact Hown'|].
    rewrite lookup_app_r by lia. now rewrite Nat.sub_diag.
Qed.

(** X11.  [Insert] at offset [length pre] of a vector holding
    [pre ++ post] returns a vector holding [pre ++ x :: post], one element
    larger, and an iterator to the inserted element. *)
Theorem insert_places_element
    (m : mem T) (v : Vector) (pre post : list T) (x : T) :
  owns m v (pre ++ post) ->
  exists v' m',
    Insert v (ptr_add (begin v) (length pre)) x m =
      Ret (v', ptr_add (begin v') (length pre)) m' /\
    elements m' v' = Some (pre ++ x :: post) /\
    Size v' = Size v + 1 /\
    read (ptr_add (begin v') (length pre)) m' = Ret x m'.
Proof.
  intros Hown.
  destruct (Insert_owns m v pre post x Hown) as (v' & m' & Hrun & Hown' & Hsz).
  exists v', m'. split; [exact Hrun|]. split; [now apply elements_owns|].
  split; [exact Hsz|].
  unfold begin, GetAddress, ptr_add. cbn [base off].
  eapply read_owns_at; [exact Hown'|]. now apply list_lookup_middle.
Qed.

(** X12.  Growth policy of an append: with spare capacity the block and the
    capacity are kept and nothing is allocated or relocated; on a full
    vector the capacity becomes 1 when it was 0 and twice the old capacity
    otherwise. *)
Theorem append_growth_policy (m : mem T) (v : Vector) (xs : list T) (x : T) :
  owns m v xs ->
  exists v' m',
    PushBack v x m = Ret v' m' /\
    Capacity v' =
      (if (size_ v <? Capacity v)%nat then Capacity v
       else Nat.max 1 (2 * Capacity v)) /\
    (size_ v < Capacity v -> data_ v' = data_ v /\ trace m' = trace m).
Proof.
  intros Hown.
  assert (Hle : size_ v <= Capacity v)
    by (destruct Hown as (-> & ? & _); assumption).
  unfold PushBack. destruct (Nat.ltb_spec (size_ v) (Capacity v)) as [Hlt|Hge].
  - destruct (EmplaceBack_room m v xs x Hown Hlt) as (m' & Hrun & _ & Htr).
    erewrite bind_Ret by exact Hrun.
    eexists _, m'. split; [reflexivity|]. split; [reflexivity|].
    intros _. now split.
  - assert (Hfull : size_ v = Capacity v) by lia.
    destruct (EmplaceBack_grow m v xs x Hown Hfull) as (m' & H).
    cbn zeta in H. destruct H as (Hrun & _ & _).
    erewrite bind_Ret by exact Hrun.
    eexists _, m'. split; [reflexivity|]. split; [|lia].
    unfold Capacity at 1. cbn [fst data_ capacity_].
    rewrite Hfull. destruct (Nat.eqb_spec (Capacity v) 0); lia.
Qed.

(** X13.  A call which returns never lowers the capacity of the vector it
    is made on, move assignment apart. *)
Theorem capacity_never_decreases
    (m m' : mem T) (vs vs' : list Vector) (o : op) (r : returned)
    (i : nat) (v : Vector) :
  is_move_assign o = false -> written_by o = Some i -> vs !! i = Some v ->
  step vs o m = Ret (vs', r) m' ->
  exists v', vs' !! i = Some v' /\ Capacity v <= Capacity v'.
Proof.
  intros Hnot Hw Hv H.
  assert (Hi : i < length vs) by (eapply lookup_lt_Some, Hv).
  destruct o; try discriminate; cbn [written_by] in Hw;
    injection Hw as ->; cbn [step] in H;
    inv_bind_as H this m1 Ht; apply object_Ret in Ht as (Ht & ->);
    rewrite Hv in Ht; injection Ht as <-.
  - inv_bind_as H rhs m2 Hr. inv_bind_as H v' m3 Hv'.
    apply ret_inv in H as (H & _). injection H as <- _.
    exists v'. split; [now apply list_lookup_insert_eq|].
    eapply Vector_copy_assign_Ret_capacity, Hv'.
  - inv_bind_as H v' m2 Hv'. apply ret_inv in H as (H & _).
    injection H as <- _.
    exists v'. split; [now apply list_lookup_insert_eq|].
    apply Reserve_Ret in Hv'. lia.
  - inv_bind_as H v' m2 Hv'. apply ret_inv in H as (H & _).
    injection H as <- _.
    exists v'. split; [now apply list_lookup_insert_eq|].
    eapply Resize_Ret_capacity, Hv'.
  - inv_bind_as H v' m2 Hv'. apply ret_inv in H as (H & _).
    injection H as <- _.
    exists v'. split; [now apply list_lookup_insert_eq|].
    unfold PushBack in Hv'. inv_bind_as Hv' p m3 Hp. destruct p as [v1 p1].
    apply ret_inv in Hv' as (<- & _).
    eapply EmplaceBack_with_Ret_capacity, Hp.
  - inv_bind_as H p m2 Hp. destruct p as [v1 p1].
    apply ret_inv in H as (H & _). injection H as <- _.
    exists v1. split; [now apply list_lookup_insert_eq|].
    eapply EmplaceBack_with_Ret_capacity, Hp.
  - inv_bind_as H v' m2 Hv'. apply ret_inv in H as (H & _).
    injection H as <- _.
    exists v'. split; [now apply list_lookup_insert_eq|].
    apply PopBack_Ret_data in Hv'. unfold Capacity. now rewrite Hv'.
  - inv_bind_as H p m2 Hp. destruct p as [v1 p1].
    apply ret_inv in H as (H & _). injection H as <- _.
    exists v1. split; [now apply list_lookup_insert_eq|].
    eapply Emplace_with_Ret_capacity, Hp.
  - inv_bind_as H p m2 Hp. destruct p as [v1 p1].
    apply ret_inv in H as (H & _). injection H as <- _.
    exists v1. split; [now apply list_lookup_insert_eq|].
    eapply Emplace_with_Ret_capacity, Hp.
  - inv_bind_as H p m2 Hp. destruct p as [v1 p1].
    apply ret_inv in H as (H & _). injection H as <- _.
    exists v1. split; [now apply list_lookup_insert_eq|].
    apply Erase_Ret_data in Hp. unfold Capacity. now rewrite Hp.
Qed.

Lemma blk_at_scratch (m : mem T) b blk :
  blk_at m b blk -> blk_at (freed (length (cells m)) (allocated 1 m)) b blk.
Proof.
  intros H. pose proof (blk_at_lt _ _ _ H).
  apply blk_at_freed_ne; [lia|]. now apply blk_at_allocated_old.
Qed.

(** X14.  Strong guarantee where the code keeps it.  When the constructor
    of the new element throws and the vector is not both full and
    non-empty, [EmplaceBack] throws and every existing block is as before;
    so does [Emplace] before the end of a vector with spare capacity. *)
Theorem throwing_constructor_leaves_blocks
    (m : mem T) (v : Vector) (args : Args) :
  construct_from args = None ->
  size_ v <= Capacity v -> size_ v < Capacity v \/ size_ v = 0 ->
  (exists m',
     EmplaceBack v args m = Throw m' /\
     (size_ v < Capacity v -> m' = m) /\
     forall b blk, blk_at m b blk -> blk_at m' b blk) /\
  (forall i, i < size_ v ->
     exists m',
       Emplace v (ptr_add (begin v) i) args m = Throw m' /\
       forall b blk, blk_at m b blk -> blk_at m' b blk).
Proof.
  intros Hthrow Hle Hcase. unfold EmplaceBack, Emplace. rewrite Hthrow.
  split.
  - destruct (Nat.lt_ge_cases (size_ v) (Capacity v)) as [Hroom|Hfull].
    + exists m. split; [now apply EmplaceBack_room_throw|]. now split.
    + destruct Hcase as [Hc|Hz]; [lia|].
      destruct v as [[d c] s]. unfold Capacity in *.
      cbn [data_ size_ capacity_] in *. subst s.
      assert (c = 0) as -> by lia.
      eexists. split; [apply EmplaceBack_with_throw_empty|].
      split; [lia|]. intros b blk. apply blk_at_scratch.
  - intros i Hi. destruct Hcase as [Hroom|Hz]; [|lia].
    eexists. split; [now apply Emplace_with_throw_inplace|].
    intros b blk. apply blk_at_scratch.
Qed.

(** X15.  [Emplace] before the end of a full vector, when the constructor
    of the new element throws: as in [EmplaceBack], the local [new_vector]
    has its [size_] set before the construction, and unwinding destroys
    slots of the new block which hold no object. *)
Theorem emplace_throw_when_full
    (m : mem T) (v : Vector) (i : nat) (args : Args) :
  construct_from args = None ->
  i < size_ v -> size_ v = Capacity v ->
  Emplace v (ptr_add (begin v) i) args m = Undef.
Proof.
  intros Hthrow Hi Hfull. unfold Emplace. rewrite Hthrow.
  now apply Emplace_with_throw_full.
Qed.

(** X16.  [Insert] before the end of a vector with spare capacity builds
    the new element in a block of its own from the free store, destroys it
    there and never releases that block: after the call it is still
    allocated, holding no object. *)
Theorem in_place_insert_keeps_scratch_block
    (m : mem T) (v : Vector) (pre mid : list T) (z x : T) :
  owns m v (pre ++ mid ++ [z]) -> size_ v < Capacity v ->
  exists v' it m',
    Insert v (ptr_add (begin v) (length pre)) x m = Ret (v', it) m' /\
    elements m' v' = Some (pre ++ x :: mid ++ [z]) /\
    cells m' !! length (cells m) = Some (Some [Uninit]) /\
    trace m' = trace m ++ [EvAlloc (length (cells m)) 1].
Proof.
  intros Hown Hroom.
  destruct (Insert_inplace m v pre mid z x Hown Hroom)
    as (m' & Hrun & Hown' & Htr & Hblk).
  eexists _, _, m'. split; [exact Hrun|].
  split; [now apply elements_owns|]. split; [exact Hblk|exact Htr].
Qed.






(** X20.  Move assignment between two distinct vectors, when the source is
    at least as large as the destination or exceeds its capacity, gives the
    destination the elements of the source. *)
Theorem move_assign_takes_elements
    (m : mem T) (v w : Vector) (xs ys : list T) :
  owns m v xs -> owns m w ys ->
  (forall a, buffer_ (data_ v) = Some a -> buffer_ (data_ w) <> Some a) ->
  Capacity v < size_ w \/ size_ v <= size_ w ->
  exists v' w' m',
    Vector_move_assign false v w m = Ret (v', w') m' /\
    elements m' v' = Some ys /\ Size v' = length ys /\
    data_ v' = data_ w.
Proof.
  intros Hv Hw Hdist Hcase.
  destruct (Vector_move_assign_takes m v w xs ys Hv Hw Hdist Hcase)
    as (v' & w' & m' & Hrun & Hown').
  exists v', w', m'. split; [exact Hrun|].
  split; [now apply elements_owns|]. split; [now destruct Hown'|].
  revert Hrun. unfold Vector_move_assign. cbn [negb].
  destruct (Capacity v <? size_ w)%nat.
  - cbn [Vector_move RawMemory_move Swap RawMemory_Swap data_ size_
         buffer_ capacity_].
    intros H. inv_bind H. apply ret_inv in H as (H & _).
    injection H as <- _. now destruct w as [[bw cw] sw].
  - destruct (size_ w <? size_ v)%nat.
    + cbn [Swap RawMemory_Swap]. intros H. inv_bind H.
      apply ret_inv in H as (H & _). injection H as <- _.
      now destruct w as [[bw cw] sw].
    + cbn [Swap RawMemory_Swap]. intros H.
      apply ret_inv in H as (H & _). injection H as <- _.
      now destruct w as [[bw cw] sw].
Qed.

(** X21.  [RawMemory (n)], for [n] whose byte count fits [size_t], owns a
    block of [n] raw slots, or nothing when [n] is 0, and leaves every
    existing block alone; the address of any offset up to [n], one past the
    end included, can be taken, while indexing asserts an offset below
    [n]. *)
Theorem raw_memory_new_bounds (m : mem T) (n : nat) :
  fits_size_t n ->
  exists d m',
    RawMemory_new n m = Ret d m' /\
    capacity_ d = n /\
    (buffer_ d = None <-> n = 0) /\
    (forall a, buffer_ d = Some a -> blk_at m' a (replicate n Uninit)) /\
    (forall b blk, blk_at m b blk -> blk_at m' b blk) /\
    (forall i, RawMemory_plus d i m' =
               if (i <=? n)%nat then Ret (Ptr (buffer_ d) i) m' else Undef) /\
    (forall i, RawMemory_index d i m' =
               if (i <? n)%nat then Ret (Ptr (buffer_ d) i) m' else Undef).
Proof.
  intros _.
  assert (Hacc : forall (d : RawMemory) (m' : mem T), capacity_ d = n ->
    (forall i, RawMemory_plus d i m' =
               if (i <=? n)%nat then Ret (Ptr (buffer_ d) i) m' else Undef) /\
    (forall i, RawMemory_index d i m' =
               if (i <? n)%nat then Ret (Ptr (buffer_ d) i) m' else Undef)).
  { intros d m' Hc. split; intros i.
    - unfold RawMemory_plus, assert, bind, ret. rewrite Hc.
      now destruct (i <=? n)%nat.
    - unfold RawMemory_index, assert, bind, ret. rewrite Hc.
      now destruct (i <? n)%nat. }
  destruct n as [|n].
  - exists (MkRaw None 0), m. split; [reflexivity|]. split; [reflexivity|].
    split; [now split|]. split; [discriminate|]. split; [trivial|].
    now apply Hacc.
  - eexists _, _. split; [apply RawMemory_new_pos; lia|].
    split; [reflexivity|]. split; [split; discriminate|].
    split; [intros a [= <-]; apply blk_at_allocated_new|].
    split; [intros b blk; apply blk_at_allocated_old|].
    now apply Hacc.
Qed.

(** X22.  The destructor of [RawMemory] releases the block it owns and
    changes no other; releasing the same block again is undefined, and an
    object which owns nothing releases nothing. *)
Theorem raw_memory_release (m : mem T) (a cap : nat) (blk : list (slot T)) :
  blk_at m a blk ->
  exists m',
    RawMemory_dtor (MkRaw (Some a) cap) m = Ret tt m' /\
    cells m' !! a = Some None /\
    (forall b, b <> a -> cells m' !! b = cells m !! b) /\
    RawMemory_dtor (MkRaw (Some a) cap) m' = Undef /\
    RawMemory_dtor (MkRaw None 0) m' = Ret tt m'.
Proof.
  intros H. exists (freed a m). unfold RawMemory_dtor. cbn [buffer_].
  assert (Hrel : cells (freed a m) !! a = Some None).
  { unfold freed; cbn [cells]. apply list_lookup_insert_eq.
    eapply blk_at_lt, H. }
  split; [eapply Deallocate_blk, H|]. split; [exact Hrel|].
  split; [|split; [|reflexivity]].
  - intros b Hb. unfold freed; cbn [cells].
    now apply list_lookup_insert_ne.
  - unfold Deallocate. now rewrite Hrel.
Qed.

(** ** Positions beyond the end *)

Lemma construct_at_no_throw (m m' : mem T) p x : construct_at p x m <> Throw m'.
Proof.
  unfold construct_at. destruct (block_at m p) as [[c blk]|]; [|discriminate].
  destruct (blk !! off p) as [[|?]|]; discriminate.
Qed.

Lemma construct_at_Ret (m m' : mem T) p x :
  construct_at p x m = Ret tt m' ->
  exists c blk, base p = Some c /\ m' = store c blk m.
Proof.
  unfold construct_at.
  destruct (block_at m p) as [[c blk]|] eqn:E; [|discriminate].
  destruct (blk !! off p) as [[|?]|]; try discriminate.
  intros [= <-]. exists c, (<[off p := Live x]> blk).
  split; [eapply block_at_base, E|reflexivity].
Qed.

Lemma move_construct_no_throw (m m' : mem T) src dst :
  move_construct src dst m <> Throw m'.
Proof.
  unfold move_construct, bind, read, construct_at, write.
  destruct (block_at m src) as [[c blk]|]; [|discriminate].
  destruct (blk !! off src) as [[|v]|]; try discriminate.
  destruct (block_at m dst) as [[c' blk']|]; [|discriminate].
  destruct (blk' !! off dst) as [[|?]|]; try discriminate.
  match goal with
  | |- context [block_at ?M src] =>
      destruct (block_at M src) as [[c2 blk2]|]; [|discriminate]
  end.
  destruct (blk2 !! off src) as [[|?]|]; discriminate.
Qed.

Lemma for_n_outside n p ps loop (m : mem T) :
  n <> 0%N -> in_block m p n = false -> for_n n (p :: ps) loop m = Undef.
Proof.
  intros Hn Hp. unfold for_n. destruct (N.eqb_spec n 0); [contradiction|].
  cbn [forallb]. now rewrite Hp.
Qed.

Lemma in_block_short (m : mem T) v xs k :
  owns m v xs -> Capacity v < k ->
  in_block m (begin v) (N.of_nat k) = false.
Proof.
  intros Hown Hk. destruct v as [[[a|] cap] sz];
    unfold in_block, begin, GetAddress, block_at; cbn [base data_ buffer_];
    [|reflexivity].
  destruct (cells m !! a) as [[blk|]|] eqn:Hb; [|reflexivity..].
  rewrite (owns_block_length m a cap sz xs blk Hown Hb).
  unfold Capacity in Hk. cbn [data_ capacity_ off] in *.
  apply N.leb_gt. lia.
Qed.

Lemma owns_store_other (m : mem T) v xs c blk :
  owns m v xs -> buffer_ (data_ v) <> Some c -> owns (store c blk m) v xs.
Proof.
  intros Hown Hne. eapply owns_same_block; [exact Hown|].
  intros b Hb. unfold store; cbn [cells].
  apply list_lookup_insert_ne. congruence.
Qed.

Lemma relocate_beyond (m : mem T) v xs (nv : Vector) p x index :
  owns m v xs -> Capacity v < index ->
  (forall c, base p = Some c -> buffer_ (data_ v) <> Some c) ->
  (emplace_at p (Some x) ;;;
   if relocate_by_move then
     uninitialized_move_n (begin v) (N.of_nat index) (begin nv) ;;;
     uninitialized_move_n (ptr_add (begin v) index)
       (size_sub (size_ v) index) (ptr_add (ptr_add (begin nv) index) 1)
   else
     uninitialized_copy_n (begin v) (N.of_nat index) (begin nv) ;;;
     uninitialized_copy_n (ptr_add (begin v) index)
       (size_sub (size_ v) index) (ptr_add (ptr_add (begin nv) index) 1)) m
  = Undef.
Proof.
  intros Hown Hk Hp. cbn [emplace_at]. unfold bind at 1.
  destruct (construct_at p x m) as [[] m2|m2|] eqn:Hc; [| |reflexivity].
  - apply construct_at_Ret in Hc as (c & blk & Hbase & ->).
    assert (Hin : in_block (store c blk m) (begin v) (N.of_nat index) = false).
    { eapply in_block_short; [|exact Hk].
      apply owns_store_other; [exact Hown|now apply Hp]. }
    destruct relocate_by_move; unfold bind at 1;
      unfold uninitialized_move_n, uninitialized_copy_n;
      rewrite for_n_outside; try reflexivity; try exact Hin; lia.
  - now apply construct_at_no_throw in Hc.
Qed.

Lemma Emplace_with_beyond (m : mem T) v xs pos x :
  owns m v xs -> size_ v < pos ->
  Emplace_with v (ptr_add (begin v) pos) (Some x) m = Undef.
Proof.
  intros Hown Hpos.
  assert (Hle : size_ v <= Capacity v)
    by (destruct Hown as (-> & H & _); exact H).
  unfold Emplace_with, end_.
  erewrite bind_Ret
    by (exact (ptr_diff_same m (buffer_ (data_ v)) 0 pos ltac:(lia))).
  rewrite Nat.sub_0_r.
  erewrite bind_Ret by (apply RawMemory_plus_ok; unfold Capacity in *; lia).
  change (ptr_eqb (ptr_add (begin v) pos) (Ptr (buffer_ (data_ v)) (size_ v)))
    with (ptr_eqb (Ptr (buffer_ (data_ v)) pos)
                  (Ptr (buffer_ (data_ v)) (size_ v))).
  rewrite ptr_eqb_same.
  destruct (Nat.eqb_spec pos (size_ v)); [lia|].
  unfold bind at 1. unfold bind at 1.
  destruct (Nat.eqb_spec (size_ v) (Capacity v)) as [Hfull|Hroom].
  - erewrite bind_Ret
      by (apply Reserve_default; destruct (Nat.eqb_spec (size_ v) 0); lia).
    unfold bind at 1, on_unwind.
    erewrite (relocate_beyond _ v xs); [reflexivity| | |].
    + eapply owns_blocks_kept; [exact Hown|].
      intros b blk. apply blk_at_allocated_old.
    + lia.
    + unfold begin, GetAddress, ptr_add. cbn [base data_ buffer_].
      intros c [= <-] Hb. destruct v as [[bv cv] sv].
      cbn [data_ buffer_] in Hb. subst bv. apply owns_lt in Hown. lia.
  - erewrite bind_Ret by apply new_object_value.
    erewrite bind_Ret by (apply RawMemory_plus_ok; unfold Capacity in *; lia).
    unfold bind at 1, ptr_sub at 1. cbn [off base].
    destruct (1 <=? size_ v)%nat; [|reflexivity].
    unfold bind at 1.
    match goal with
    | |- context [move_construct ?s ?d ?M] =>
        destruct (move_construct s d M) as [[] m3|m3|] eqn:Hmc
    end; [| |reflexivity].
    + unfold bind at 1, std_move_backward, bind at 1, ptr_diff.
      unfold begin, GetAddress, ptr_add. cbn [base off].
      destruct (buffer_ (data_ v)) as [b|].
      * rewrite Nat.eqb_refl. cbn [andb].
        destruct (Nat.leb_spec (0 + pos) (size_ v - 1)); [lia|reflexivity].
      * destruct (Nat.leb_spec (0 + pos) (size_ v - 1)); [lia|reflexivity].
    + now apply move_construct_no_throw in Hmc.
Qed.

(** ** A throwing constructor: no result, and no existing block touched *)

Lemma confined_EmplaceBack_with_None n0 this :
  confined None n0 (EmplaceBack_with this None) (fun _ => False).
Proof.
  unfold EmplaceBack_with.
  destruct (size_ this =? Capacity this)%nat.
  - eapply confined_bind; [apply confined_Reserve_default|intros nv Hnv].
    eapply confined_bind with (Q := fun _ => False); [|intros ? []].
    eapply confined_on_unwind.
    + eapply confined_bind; [apply confined_RawMemory_plus|intros p Hp].
      eapply confined_bind with (Q := fun _ => False); [|intros ? []].
      apply confined_throw.
    + apply confined_Vector_dtor. right. exact Hnv.
  - eapply confined_bind; [apply confined_RawMemory_plus|intros p Hp].
    eapply confined_bind with (Q := fun _ => False); [|intros ? []].
    apply confined_throw.
Qed.

Lemma confined_Emplace_with_None n0 this pos :
  confined None n0 (Emplace_with this pos None) (fun _ => False).
Proof.
  unfold Emplace_with.
  eapply confined_bind; [apply confined_ptr_diff|intros index _].
  eapply confined_bind; [apply confined_RawMemory_plus|intros e He].
  eapply confined_bind with (Q := fun _ => False); [|intros ? []].
  destruct (ptr_eqb pos e).
  { eapply confined_bind with (Q := fun _ => False);
      [apply confined_EmplaceBack_with_None|intros ? []]. }
  eapply confined_bind with (Q := fun _ => False); [|intros ? []].
  destruct (size_ this =? Capacity this)%nat.
  - eapply confined_bind; [apply confined_Reserve_default|intros nv Hnv].
    eapply confined_bind with (Q := fun _ => False); [|intros ? []].
    eapply confined_on_unwind.
    + eapply confined_bind with (Q := fun _ => False);
        [apply confined_throw|intros ? []].
    + apply confined_Vector_dtor. cbn [data_]. right. exact Hnv.
  - eapply confined_bind with (Q := fun _ => False); [|intros ? []].
    unfold new_object.
    eapply confined_bind; [apply confined_Allocate|intros buf Hbuf].
    eapply confined_bind;
      [apply confined_Deallocate; now right|intros _ _].
    apply confined_throw.
Qed.

(** Every block of [m] is a block of [m']. *)
Lemma same_elsewhere_None_blocks (m m' : mem T) :
  same_elsewhere None (length (cells m)) m m' ->
  forall b blk, blk_at m b blk -> blk_at m' b blk.
Proof.
  intros (_ & H) b blk Hb. unfold blk_at. rewrite H; [exact Hb| |discriminate].
  eapply blk_at_lt, Hb.
Qed.

Lemma Emplace_with_None_outcome (m : mem T) v pos :
  match Emplace_with v pos None m with
  | Ret _ _ => False
  | Throw m' => forall b blk, blk_at m b blk -> blk_at m' b blk
  | Undef => True
  end.
Proof.
  pose proof (confined_Emplace_with_None (length (cells m)) v pos m (le_n _))
    as H.
  destruct (Emplace_with v pos None m) as [r m'|m'|];
    [exact (proj1 H)| |exact I].
  now apply same_elsewhere_None_blocks.
Qed.

Lemma EmplaceBack_with_None_outcome (m : mem T) v :
  match EmplaceBack_with v None m with
  | Ret _ _ => False
  | Throw m' => forall b blk, blk_at m b blk -> blk_at m' b blk
  | Undef => True
  end.
Proof.
  pose proof (confined_EmplaceBack_with_None (length (cells m)) v m (le_n _))
    as H.
  destruct (EmplaceBack_with v None m) as [r m'|m'|];
    [exact (proj1 H)| |exact I].
  now apply same_elsewhere_None_blocks.
Qed.

(** ** Move assignment between two vectors *)

Lemma Vector_move_assign_outcome (m : mem T) v w xs ys :
  owns m v xs -> owns m w ys ->
  match Vector_move_assign false v w m with
  | Ret r m' =>
      fst r = w /\
      ((snd r = v /\ m' = m) \/
       (snd r = Vector_default /\
        forall b, buffer_ (data_ v) <> Some b ->
                  cells m' !! b = cells m !! b))
  | Throw _ => False
  | Undef => True
  end.
Proof.
  intros Hv Hw. destruct v as [[bv cv] sv], w as [[bw cw] sw].
  unfold Vector_move_assign, Capacity.
  cbn [negb data_ size_ capacity_ buffer_].
  destruct (Nat.ltb_spec cv sw) as [Hbig|Hfit].
  - cbn [Vector_move RawMemory_move Swap RawMemory_Swap data_ size_
         buffer_ capacity_].
    destruct (Vector_dtor_owns m (MkVec (MkRaw bv cv) sv) xs Hv)
      as (m' & Hrun & _ & Hkeep & _).
    unfold bind. rewrite Hrun. unfold ret. cbn [fst snd].
    split; [reflexivity|]. right. split; [reflexivity|exact Hkeep].
  - destruct (Nat.ltb_spec sw sv) as [Hshrink|Hgrow].
    + cbn [Swap RawMemory_Swap data_ size_ buffer_ capacity_].
      unfold bind, destroy_n, for_n.
      destruct (N.eqb_spec (size_sub sw sv) 0) as [Hz|Hnz].
      { unfold ret. cbn [fst snd]. split; [reflexivity|].
        left. split; reflexivity. }
      cbn [forallb]. rewrite andb_true_r.
      destruct (in_block m _ _) eqn:Hin; [|exact I].
      destruct (N.to_nat (size_sub sw sv)) as [|k] eqn:Hk; [lia|].
      cbn [destroy_loop]. unfold bind.
      unfold in_block, block_at, ptr_add, GetAddress in Hin.
      cbn [base off buffer_ data_ size_] in Hin.
      destruct bw as [b|]; [|discriminate].
      destruct (cells m !! b) as [[blk|]|] eqn:Hb; try discriminate.
      apply N.leb_le in Hin.
      pose proof (owns_block_length m b cw sw ys blk Hw Hb) as Hlen.
      destruct Hw as (Hsz & Hle & Hblk). cbn [data_ buffer_ size_] in *.
      unfold Capacity in Hblk, Hle. cbn [data_ capacity_] in Hblk, Hle.
      rewrite Hb in Hblk. injection Hblk as ->.
      unfold ptr_add, GetAddress. cbn [base off buffer_ data_].
      erewrite destroy_at_raw; [exact I|exact Hb|].
      rewrite lookup_app_r by (rewrite length_map; lia).
      apply lookup_replicate. split; [reflexivity|].
      rewrite length_map. lia.
    + cbn [Swap RawMemory_Swap data_ size_ buffer_ capacity_].
      unfold ret. cbn [fst snd].
      split; [reflexivity|]. left. split; reflexivity.
Qed.

(** ** What a call on a vector which owns its elements can do *)

Lemma outcome_Ret {A : Type} (c : M A) (m m' : mem T) r
    (Q : A -> mem T -> Prop) :
  c m = Ret r m' -> Q r m' -> outcome c m Q.
Proof. intros H HQ. unfold outcome. now rewrite H. Qed.

Lemma outcome_Undef {A : Type} (c : M A) (m : mem T)
    (Q : A -> mem T -> Prop) :
  c m = Undef -> outcome c m Q.
Proof. intros H. unfold outcome. now rewrite H. Qed.

Lemma outcome_inv {A : Type} (c : M A) (m m' : mem T) r
    (Q : A -> mem T -> Prop) :
  outcome c m Q -> c m = Ret r m' -> Q r m'.
Proof. unfold outcome. intros H E. now rewrite E in H. Qed.

Lemma outcome_no_throw {A : Type} (c : M A) (m m' : mem T)
    (Q : A -> mem T -> Prop) :
  outcome c m Q -> c m <> Throw m'.
Proof. unfold outcome. intros H E. now rewrite E in H. Qed.

Lemma Reserve_outcome (m : mem T) v xs n :
  owns m v xs ->
  outcome (Reserve v n) m (fun v' m' => exists xs', owns m' v' xs').
Proof.
  intros Hown.
  destruct (Reserve_owns m v xs n Hown) as (v' & m' & Hrun & Hown' & _).
  eapply outcome_Ret; [exact Hrun|]. now exists xs.
Qed.

Lemma Resize_outcome (m : mem T) v xs n :
  owns m v xs ->
  outcome (Resize v n) m (fun v' m' => exists xs', owns m' v' xs').
Proof.
  intros Hown.
  destruct (Resize_owns m v xs n Hown) as (v' & m' & Hrun & Hown' & _).
  eapply outcome_Ret; [exact Hrun|]. eexists. exact Hown'.
Qed.

Lemma PushBack_outcome (m : mem T) v xs x :
  owns m v xs ->
  outcome (PushBack v x) m (fun v' m' => exists xs', owns m' v' xs').
Proof.
  intros Hown.
  destruct (PushBack_owns m v xs x Hown) as (v' & m' & Hrun & Hown' & _).
  eapply outcome_Ret; [exact Hrun|]. eexists. exact Hown'.
Qed.

Lemma EmplaceBack_with_outcome (m : mem T) v xs x :
  owns m v xs ->
  outcome (EmplaceBack_with v (Some x)) m
    (fun r m' => exists xs', owns m' (fst r) xs').
Proof.
  intros Hown.
  destruct (EmplaceBack_owns m v xs x Hown) as (v' & m' & Hrun & Hown' & _).
  eapply outcome_Ret; [exact Hrun|]. eexists. exact Hown'.
Qed.

Lemma PopBack_outcome (m : mem T) v xs :
  owns m v xs ->
  outcome (PopBack v) m (fun v' m' => exists xs', owns m' v' xs').
Proof.
  intros Hown. destruct xs as [|x0 xs0] using rev_ind.
  - apply outcome_Undef, PopBack_empty. now destruct Hown.
  - destruct (PopBack_owns m v xs0 x0 Hown) as (m' & Hrun & Hown' & _).
    eapply outcome_Ret; [exact Hrun|]. eexists. exact Hown'.
Qed.

Lemma Erase_outcome (m : mem T) v xs pos :
  owns m v xs ->
  outcome (Erase v (ptr_add (begin v) pos)) m
    (fun r m' => exists xs', owns m' (fst r) xs').
Proof.
  intros Hown. destruct (xs !! pos) as [x|] eqn:Hx.
  - apply lookup_split in Hx as (Hxs & Hlen).
    rewrite Hxs in Hown.
    destruct (Erase_owns m v _ _ _ Hown) as (m' & Hrun & Hown').
    rewrite Hlen in Hrun.
    eapply outcome_Ret; [exact Hrun|]. eexists. exact Hown'.
  - apply outcome_Undef, Erase_past_the_end.
    apply lookup_ge_None in Hx. destruct Hown as (-> & _). exact Hx.
Qed.

Lemma Emplace_with_outcome (m : mem T) v xs pos x :
  owns m v xs ->
  outcome (Emplace_with v (ptr_add (begin v) pos) (Some x)) m
    (fun r m' => exists xs', owns m' (fst r) xs').
Proof.
  intros Hown. destruct (Nat.le_gt_cases pos (length xs)) as [Hle|Hgt].
  - assert (Hlen : length (take pos xs) = pos)
      by (rewrite length_take; lia).
    rewrite <- (take_drop pos xs) in Hown.
    destruct (Insert_owns m v _ _ x Hown) as (v' & m' & Hrun & Hown' & _).
    rewrite Hlen in Hrun.
    eapply outcome_Ret; [exact Hrun|]. eexists. exact Hown'.
  - eapply outcome_Undef, Emplace_with_beyond; [exact Hown|].
    destruct Hown as (-> & _). exact Hgt.
Qed.

Lemma Vector_copy_assign_outcome (m : mem T) self v w xs ys :
  owns m v xs -> owns m w ys ->
  (self = false ->
   forall a, buffer_ (data_ v) = Some a -> buffer_ (data_ w) <> Some a) ->
  outcome (Vector_copy_assign self v w) m
    (fun v' m' => (exists xs', owns m' v' xs') /\
                  (self = false -> owns m' w ys)).
Proof.
  intros Hv Hw Hdist. destruct self.
  - eapply outcome_Ret; [reflexivity|]. split; [now exists xs|discriminate].
  - destruct (Vector_copy_assign_owns m v w xs ys Hv Hw (Hdist eq_refl))
      as (v' & m' & Hrun & Hv' & Hw' & _).
    eapply outcome_Ret; [exact Hrun|]. split; [now exists ys|trivial].
Qed.

(** ** Every vector owns its elements, in a block of its own *)

Lemma well_formed_lt (vs : list Vector) (m : mem T) i v a :
  well_formed vs m -> vs !! i = Some v -> buffer_ (data_ v) = Some a ->
  a < length (cells m).
Proof.
  intros (Hown & _) Hv Ha. destruct (Hown i v Hv) as (xs & Hxs).
  destruct v as [[bv cv] sv]. cbn [data_ buffer_] in Ha. subst bv.
  eapply owns_lt, Hxs.
Qed.

(** A call on the vector at [i], confined to its block, which returns a
    vector owning its elements. *)
Lemma well_formed_update {A : Type} (vs : list Vector) (m m' : mem T)
    i v (c : M A) (proj : A -> Vector) r :
  well_formed vs m -> vs !! i = Some v ->
  confined (buffer_ (data_ v)) (length (cells m)) c
    (fun r => own_buf (buffer_ (data_ v)) (length (cells m))
                      (buffer_ (data_ (proj r)))) ->
  c m = Ret r m' ->
  (exists xs', owns m' (proj r) xs') ->
  well_formed (<[i := proj r]> vs) m'.
Proof.
  intros Hwf Hv Hc Hrun Hown'.
  assert (Hi : i < length vs) by (eapply lookup_lt_Some, Hv).
  specialize (Hc m (le_n _)). rewrite Hrun in Hc.
  destruct Hc as (Hbuf & _ & Hsame).
  assert (Hother : forall j w, j <> i -> vs !! j = Some w ->
            (exists ys, owns m' w ys) /\
            forall a, buffer_ (data_ w) = Some a ->
                      buffer_ (data_ (proj r)) <> Some a).
  { intros j w Hj Hw. split.
    - destruct (proj1 Hwf j w Hw) as (ys & Hys). exists ys.
      eapply owns_same_block; [exact Hys|]. intros b Hb. apply Hsame.
      + eapply well_formed_lt; eassumption.
      + intros E. exact (proj2 Hwf i j v w b (not_eq_sym Hj) Hv Hw E Hb).
    - intros a Ha E. destruct Hbuf as [Hsame'|Hfresh].
      + rewrite Hsame' in E.
        exact (proj2 Hwf i j v w a (not_eq_sym Hj) Hv Hw E Ha).
      + specialize (Hfresh a E).
        pose proof (well_formed_lt vs m j w a Hwf Hw Ha). lia. }
  split.
  - intros j w Hw. destruct (decide (j = i)) as [->|Hj].
    + rewrite list_lookup_insert_eq in Hw by exact Hi.
      injection Hw as <-. exact Hown'.
    + rewrite list_lookup_insert_ne in Hw by congruence.
      now apply (Hother j w).
  - intros j k w1 w2 a Hjk H1 H2 Ha1 Ha2.
    destruct (decide (j = i)) as [->|Hj], (decide (k = i)) as [->|Hk];
      [congruence| | |].
    + rewrite list_lookup_insert_eq in H1 by exact Hi. injection H1 as <-.
      rewrite list_lookup_insert_ne in H2 by congruence.
      exact (proj2 (Hother k w2 Hk H2) a Ha2 Ha1).
    + rewrite list_lookup_insert_eq in H2 by exact Hi. injection H2 as <-.
      rewrite list_lookup_insert_ne in H1 by congruence.
      exact (proj2 (Hother j w1 Hj H1) a Ha1 Ha2).
    + rewrite list_lookup_insert_ne in H1 by congruence.
      rewrite list_lookup_insert_ne in H2 by congruence.
      exact (proj2 Hwf j k w1 w2 a Hjk H1 H2 Ha1 Ha2).
Qed.

(** A new vector, in a fresh block or with none. *)
Lemma well_formed_snoc (vs : list Vector) (m m' : mem T) v' :
  well_formed vs m ->
  (forall b blk, blk_at m b blk -> blk_at m' b blk) ->
  (exists xs', owns m' v' xs') ->
  (forall c, buffer_ (data_ v') = Some c -> length (cells m) <= c) ->
  well_formed (vs ++ [v']) m'.
Proof.
  intros Hwf Hkept Hown' Hfresh.
  assert (Hold : forall j w a, vs !! j = Some w ->
            buffer_ (data_ w) = Some a -> buffer_ (data_ v') <> Some a).
  { intros j w a Hw Ha E. specialize (Hfresh a E).
    pose proof (well_formed_lt vs m j w a Hwf Hw Ha). lia. }
  assert (Hlook : forall j w, (vs ++ [v']) !! j = Some w ->
            vs !! j = Some w \/ (j = length vs /\ w = v')).
  { intros j w Hw. apply lookup_app_Some in Hw as [Hw|(Hge & Hw)];
      [now left|right].
    apply list_lookup_singleton_Some in Hw as (Hz & <-).
    split; [lia|reflexivity]. }
  split.
  - intros j w Hw. apply Hlook in Hw as [Hw|(_ & ->)]; [|exact Hown'].
    destruct (proj1 Hwf j w Hw) as (ys & Hys). exists ys.
    eapply owns_blocks_kept; eassumption.
  - intros j k w1 w2 a Hjk H1 H2 Ha1 Ha2.
    apply Hlook in H1 as [H1|(-> & ->)], H2 as [H2|(-> & ->)].
    + exact (proj2 Hwf j k w1 w2 a Hjk H1 H2 Ha1 Ha2).
    + exact (Hold j w1 a H1 Ha1 Ha2).
    + exact (Hold k w2 a H2 Ha2 Ha1).
    + congruence.
Qed.

(** The vectors of [vs'] are vectors of [vs], each taken once, or own
    nothing. *)
Lemma well_formed_rename (vs vs' : list Vector) (m m' : mem T)
    (src : nat -> option nat) :
  well_formed vs m ->
  (forall k v', vs' !! k = Some v' ->
     (buffer_ (data_ v') = None /\ owns m' v' []) \/
     exists k0, src k = Some k0 /\ vs !! k0 = Some v' /\
                forall ys, owns m v' ys -> owns m' v' ys) ->
  (forall k1 k2 k0, src k1 = Some k0 -> src k2 = Some k0 -> k1 = k2) ->
  well_formed vs' m'.
Proof.
  intros Hwf Hfrom Hinj. split.
  - intros k v' Hv'.
    destruct (Hfrom k v' Hv') as [(_ & He)|(k0 & _ & Hk0 & Hf)].
    + now exists [].
    + destruct (proj1 Hwf k0 v' Hk0) as (ys & Hys). exists ys. now apply Hf.
  - intros k1 k2 v1 v2 a Hne H1 H2 Ha1 Ha2.
    destruct (Hfrom k1 v1 H1) as [(E & _)|(j1 & Hs1 & Hj1 & _)];
      [congruence|].
    destruct (Hfrom k2 v2 H2) as [(E & _)|(j2 & Hs2 & Hj2 & _)];
      [congruence|].
    destruct (decide (j1 = j2)) as [->|Hj].
    + apply Hne. eapply Hinj; eassumption.
    + exact (proj2 Hwf j1 j2 v1 v2 a Hj Hj1 Hj2 Ha1 Ha2).
Qed.

Lemma well_formed_swap (vs : list Vector) (m : mem T) i j v w :
  well_formed vs m -> vs !! i = Some v -> vs !! j = Some w ->
  well_formed (<[i := w]> (<[j := v]> vs)) m.
Proof.
  intros Hwf Hv Hw.
  assert (Hi : i < length vs) by (eapply lookup_lt_Some, Hv).
  assert (Hj : j < length vs) by (eapply lookup_lt_Some, Hw).
  apply well_formed_rename with vs m
    (fun k => Some (if decide (k = i) then j
                    else if decide (k = j) then i else k));
    [exact Hwf| |].
  - intros k v' Hv'. right. destruct (decide (k = i)) as [->|Hki].
    + rewrite list_lookup_insert_eq in Hv' by (rewrite length_insert; lia).
      injection Hv' as <-. exists j.
      split; [repeat case_decide; congruence|now split].
    + rewrite list_lookup_insert_ne in Hv' by congruence.
      destruct (decide (k = j)) as [->|Hkj].
      * rewrite list_lookup_insert_eq in Hv' by lia.
        injection Hv' as <-. exists i.
        split; [repeat case_decide; congruence|now split].
      * rewrite list_lookup_insert_ne in Hv' by congruence.
        exists k. split; [repeat case_decide; congruence|now split].
  - intros k1 k2 k0 [= E1] [= E2]. repeat case_decide; congruence.
Qed.

Lemma well_formed_move (vs : list Vector) (m : mem T) j w :
  well_formed vs m -> vs !! j = Some w ->
  well_formed (<[j := Vector_default]> vs ++ [w]) m.
Proof.
  intros Hwf Hw.
  assert (Hj : j < length vs) by (eapply lookup_lt_Some, Hw).
  apply well_formed_rename with vs m
    (fun k => if decide (k = j) then None
              else if decide (k = length vs) then Some j else Some k);
    [exact Hwf| |].
  - intros k v' Hv'.
    apply lookup_app_Some in Hv' as [Hv'|(Hge & Hv')].
    + destruct (decide (k = j)) as [->|Hkj].
      * rewrite list_lookup_insert_eq in Hv' by lia. injection Hv' as <-.
        left. split; [reflexivity|apply owns_default].
      * rewrite list_lookup_insert_ne in Hv' by congruence.
        right. exists k. split; [|now split].
        apply lookup_lt_Some in Hv'.
        destruct (decide (k = length vs)); [lia|reflexivity].
    + rewrite length_insert in Hge, Hv'.
      apply list_lookup_singleton_Some in Hv' as (Hz & <-).
      right. exists j. split; [|now split].
      destruct (decide (k = j)); [lia|].
      destruct (decide (k = length vs)); [reflexivity|lia].
  - intros k1 k2 k0 E1 E2. repeat case_decide; congruence.
Qed.

Lemma well_formed_take (vs : list Vector) (m m' : mem T) i j v w :
  well_formed vs m -> i <> j -> vs !! i = Some v -> vs !! j = Some w ->
  (forall b, buffer_ (data_ v) <> Some b -> cells m' !! b = cells m !! b) ->
  well_formed (<[i := w]> (<[j := Vector_default]> vs)) m'.
Proof.
  intros Hwf Hij Hv Hw Hkeep.
  assert (Hi : i < length vs) by (eapply lookup_lt_Some, Hv).
  assert (Hj : j < length vs) by (eapply lookup_lt_Some, Hw).
  assert (Hframe : forall k u ys, k <> i -> vs !! k = Some u ->
            owns m u ys -> owns m' u ys).
  { intros k u ys Hk Hu Hys. eapply owns_same_block; [exact Hys|].
    intros b Hb. apply Hkeep. intros E.
    exact (proj2 Hwf i k v u b (not_eq_sym Hk) Hv Hu E Hb). }
  apply well_formed_rename with vs m
    (fun k => if decide (k = i) then Some j
              else if decide (k = j) then None else Some k);
    [exact Hwf| |].
  - intros k v' Hv'. destruct (decide (k = i)) as [->|Hki].
    + rewrite list_lookup_insert_eq in Hv' by (rewrite length_insert; lia).
      injection Hv' as <-. right. exists j.
      split; [repeat case_decide; congruence|].
      split; [exact Hw|]. intros ys. now apply (Hframe j).
    + rewrite list_lookup_insert_ne in Hv' by congruence.
      destruct (decide (k = j)) as [->|Hkj].
      * rewrite list_lookup_insert_eq in Hv' by lia. injection Hv' as <-.
        left. split; [reflexivity|apply owns_default].
      * rewrite list_lookup_insert_ne in Hv' by congruence.
        right. exists k. split; [repeat case_decide; congruence|].
        split; [exact Hv'|]. intros ys. now apply (Hframe k).
  - intros k1 k2 k0 E1 E2. repeat case_decide; congruence.
Qed.

Lemma well_formed_new (vs : list Vector) (m m' : mem T) (c : M Vector) v' :
  well_formed vs m ->
  confined None (length (cells m)) c
    (fun v => own_buf None (length (cells m)) (buffer_ (data_ v))) ->
  c m = Ret v' m' ->
  (exists xs', owns m' v' xs') ->
  well_formed (vs ++ [v']) m'.
Proof.
  intros Hwf Hc Hrun Hown'. specialize (Hc m (le_n _)). rewrite Hrun in Hc.
  destruct Hc as (Hbuf & Hsame).
  apply well_formed_snoc with m; [exact Hwf| |exact Hown'|].
  - now apply same_elsewhere_None_blocks.
  - intros b Hb. destruct Hbuf as [E|E]; [congruence|now apply E].
Qed.

Lemma well_formed_blocks_kept (vs : list Vector) (m m' : mem T) :
  well_formed vs m ->
  (forall b blk, blk_at m b blk -> blk_at m' b blk) ->
  well_formed vs m'.
Proof.
  intros (Hown & Hdist) Hkept. split; [|exact Hdist].
  intros i v Hv. destruct (Hown i v Hv) as (xs & Hxs). exists xs.
  eapply owns_blocks_kept; eassumption.
Qed.

Lemma bind_object_inv {B : Type} vs i (k : Vector -> M B) (m : mem T) res :
  bind (object vs i) k m = res ->
  res = Undef \/ exists v, vs !! i = Some v /\ k v m = res.
Proof.
  unfold bind, object. destruct (vs !! i) as [v|].
  - intros H. right. now exists v.
  - intros <-. now left.
Qed.

Lemma bind_ret_Throw {A B : Type} (c : M A) (f : A -> B) (m m' : mem T) :
  bind c (fun a => ret (f a)) m = Throw m' -> c m = Throw m'.
Proof. unfold bind, ret. destruct (c m); congruence. Qed.

(** A call which returns keeps the vectors well formed. *)
Lemma step_Ret_well_formed (m m' : mem T) vs o vs' r :
  well_formed vs m -> step vs o m = Ret (vs', r) m' -> well_formed vs' m'.
Proof.
  intros Hwf H. destruct o; cbn [step] in H.
  - apply ret_inv in H as (H & <-). injection H as <- _.
    apply well_formed_snoc with m;
      [exact Hwf|trivial|exists []; apply owns_default|discriminate].
  - inv_bind_as H v m1 Hv. apply ret_inv in H as (H & <-).
    injection H as <- _.
    eapply well_formed_new; [exact Hwf|apply confined_Vector_new|exact Hv|].
    destruct (Vector_new_owns m n) as (v0 & m0 & Hrun & Hown & _).
    rewrite Hrun in Hv. injection Hv as <- <-. eexists. exact Hown.
  - inv_bind_as H other m1 Ho. apply object_Ret in Ho as (Ho & ->).
    inv_bind_as H v m2 Hv. apply ret_inv in H as (H & <-).
    injection H as <- _.
    eapply well_formed_new;
      [exact Hwf|apply confined_Vector_copy|exact Hv|].
    destruct (proj1 Hwf j other Ho) as (ys & Hys).
    destruct (Vector_copy_owns m other ys Hys)
      as (v0 & m0 & Hrun & Hown & _).
    rewrite Hrun in Hv. injection Hv as <- <-. eexists. exact Hown.
  - inv_bind_as H other m1 Ho. apply object_Ret in Ho as (Ho & ->).
    destruct other as [[bo co] so].
    cbn [Vector_move RawMemory_move data_ size_ buffer_ capacity_] in H.
    apply ret_inv in H as (H & <-). injection H as <- _.
    now apply well_formed_move.
  - inv_bind_as H this m1 Ht. apply object_Ret in Ht as (Ht & ->).
    inv_bind_as H rhs m2 Hr. apply object_Ret in Hr as (Hr & ->).
    inv_bind_as H v' m3 Hv'. apply ret_inv in H as (H & <-).
    injection H as <- _.
    destruct (proj1 Hwf i this Ht) as (xs & Hxs).
    destruct (proj1 Hwf j rhs Hr) as (ys & Hys).
    apply (well_formed_update vs m m3 i this
             (Vector_copy_assign (i =? j)%nat this rhs) (fun v => v) v');
      [exact Hwf|exact Ht|apply confined_Vector_copy_assign; now left
      |exact Hv'|].
    assert (Hout := Vector_copy_assign_outcome m (i =? j)%nat this rhs
                      xs ys Hxs Hys).
    unfold outcome in Hout. rewrite Hv' in Hout. apply Hout.
    intros E a. apply Nat.eqb_neq in E.
    exact (proj2 Hwf i j this rhs a E Ht Hr).
  - inv_bind_as H this m1 Ht. apply object_Ret in Ht as (Ht & ->).
    inv_bind_as H rhs m2 Hr. apply object_Ret in Hr as (Hr & ->).
    inv_bind_as H r0 m3 Hr0. apply ret_inv in H as (H & <-).
    injection H as <- _.
    destruct (Nat.eqb_spec i j) as [->|Hij].
    + cbn [Vector_move_assign negb] in Hr0.
      apply ret_inv in Hr0 as (<- & <-). cbn [fst snd].
      rewrite (list_insert_id vs j this Ht).
      now rewrite (list_insert_id vs j this Ht).
    + destruct (proj1 Hwf i this Ht) as (xs & Hxs).
      destruct (proj1 Hwf j rhs Hr) as (ys & Hys).
      pose proof (Vector_move_assign_outcome m this rhs xs ys Hxs Hys)
        as Hout.
      rewrite Hr0 in Hout.
      destruct Hout as (-> & [(-> & ->)|(-> & Hkeep)]).
      * now apply well_formed_swap.
      * now apply well_formed_take with m this.
  - inv_bind_as H this m1 Ht. apply object_Ret in Ht as (Ht & ->).
    inv_bind_as H other m2 Ho. apply object_Ret in Ho as (Ho & ->).
    destruct this as [[bt ct] st], other as [[bo co] so].
    cbn [Swap RawMemory_Swap data_ size_ buffer_ capacity_] in H.
    apply ret_inv in H as (H & <-). injection H as <- _.
    now apply well_formed_swap.
  - inv_bind_as H this m1 Ht. apply object_Ret in Ht as (Ht & ->).
    inv_bind_as H v' m2 Hv'. apply ret_inv in H as (H & <-).
    injection H as <- _.
    destruct (proj1 Hwf i this Ht) as (xs & Hxs).
    apply (well_formed_update vs m m2 i this (Reserve this n)
             (fun v => v) v');
      [exact Hwf|exact Ht|apply confined_Reserve; now left|exact Hv'|].
    exact (outcome_inv _ _ _ _ _ (Reserve_outcome m this xs n Hxs) Hv').
  - inv_bind_as H this m1 Ht. apply object_Ret in Ht as (Ht & ->).
    inv_bind_as H v' m2 Hv'. apply ret_inv in H as (H & <-).
    injection H as <- _.
    destruct (proj1 Hwf i this Ht) as (xs & Hxs).
    apply (well_formed_update vs m m2 i this (Resize this n)
             (fun v => v) v');
      [exact Hwf|exact Ht|apply confined_Resize; now left|exact Hv'|].
    exact (outcome_inv _ _ _ _ _ (Resize_outcome m this xs n Hxs) Hv').
  - inv_bind_as H this m1 Ht. apply object_Ret in Ht as (Ht & ->).
    inv_bind_as H v' m2 Hv'. apply ret_inv in H as (H & <-).
    injection H as <- _.
    destruct (proj1 Hwf i this Ht) as (xs & Hxs).
    apply (well_formed_update vs m m2 i this (PushBack this value)
             (fun v => v) v');
      [exact Hwf|exact Ht|apply confined_PushBack; now left|exact Hv'|].
    exact (outcome_inv _ _ _ _ _ (PushBack_outcome m this xs value Hxs) Hv').
  - inv_bind_as H this m1 Ht. apply object_Ret in Ht as (Ht & ->).
    inv_bind_as H r0 m2 Hr0. apply ret_inv in H as (H & <-).
    injection H as <- _.
    destruct (proj1 Hwf i this Ht) as (xs & Hxs).
    unfold EmplaceBack in Hr0.
    destruct (construct_from args) as [x|].
    + apply (well_formed_update vs m m2 i this
               (EmplaceBack_with this (Some x)) fst r0);
        [exact Hwf|exact Ht|apply confined_EmplaceBack_with; now left
        |exact Hr0|].
      exact (outcome_inv _ _ _ _ _
               (EmplaceBack_with_outcome m this xs x Hxs) Hr0).
    + pose proof (EmplaceBack_with_None_outcome m this) as Hout.
      rewrite Hr0 in Hout. contradiction.
  - inv_bind_as H this m1 Ht. apply object_Ret in Ht as (Ht & ->).
    inv_bind_as H v' m2 Hv'. apply ret_inv in H as (H & <-).
    injection H as <- _.
    destruct (proj1 Hwf i this Ht) as (xs & Hxs).
    apply (well_formed_update vs m m2 i this (PopBack this)
             (fun v => v) v');
      [exact Hwf|exact Ht|apply confined_PopBack; now left|exact Hv'|].
    exact (outcome_inv _ _ _ _ _ (PopBack_outcome m this xs Hxs) Hv').
  - inv_bind_as H this m1 Ht. apply object_Ret in Ht as (Ht & ->).
    inv_bind_as H r0 m2 Hr0. apply ret_inv in H as (H & <-).
    injection H as <- _.
    destruct (proj1 Hwf i this Ht) as (xs & Hxs).
    unfold Insert in Hr0.
    apply (well_formed_update vs m m2 i this
             (Emplace_with this (ptr_add (begin this) pos) (Some value))
             fst r0);
      [exact Hwf|exact Ht|apply confined_Emplace_with; now left
      |exact Hr0|].
    exact (outcome_inv _ _ _ _ _
             (Emplace_with_outcome m this xs pos value Hxs) Hr0).
  - inv_bind_as H this m1 Ht. apply object_Ret in Ht as (Ht & ->).
    inv_bind_as H r0 m2 Hr0. apply ret_inv in H as (H & <-).
    injection H as <- _.
    destruct (proj1 Hwf i this Ht) as (xs & Hxs).
    unfold Emplace in Hr0.
    destruct (construct_from args) as [x|].
    + apply (well_formed_update vs m m2 i this
               (Emplace_with this (ptr_add (begin this) pos) (Some x))
               fst r0);
        [exact Hwf|exact Ht|apply confined_Emplace_with; now left
        |exact Hr0|].
      exact (outcome_inv _ _ _ _ _
               (Emplace_with_outcome m this xs pos x Hxs) Hr0).
    + pose proof (Emplace_with_None_outcome m this
                    (ptr_add (begin this) pos)) as Hout.
      rewrite Hr0 in Hout. contradiction.
  - inv_bind_as H this m1 Ht. apply object_Ret in Ht as (Ht & ->).
    inv_bind_as H r0 m2 Hr0. apply ret_inv in H as (H & <-).
    injection H as <- _.
    destruct (proj1 Hwf i this Ht) as (xs & Hxs).
    apply (well_formed_update vs m m2 i this
             (Erase this (ptr_add (begin this) pos)) fst r0);
      [exact Hwf|exact Ht|apply confined_Erase; now left|exact Hr0|].
    exact (outcome_inv _ _ _ _ _ (Erase_outcome m this xs pos Hxs) Hr0).
Qed.

(** Only the construction of a new element throws, and a call which
    throws has left every block as it was. *)
Lemma step_Throw_inv (m m' : mem T) vs o :
  well_formed vs m -> step vs o m = Throw m' ->
  (exists i args,
     construct_from args = None /\
     (o = OpEmplaceBack i args \/ exists pos, o = OpEmplace i pos args)) /\
  forall b blk, blk_at m b blk -> blk_at m' b blk.
Proof.
  intros Hwf H. destruct o; cbn [step] in H.
  - discriminate.
  - apply bind_ret_Throw in H.
    destruct (Vector_new_owns m n) as (v0 & m0 & Hrun & _). congruence.
  - apply bind_object_inv in H as [H|(other & Ho & H)]; [discriminate|].
    apply bind_ret_Throw in H.
    destruct (proj1 Hwf j other Ho) as (ys & Hys).
    destruct (Vector_copy_owns m other ys Hys) as (v0 & m0 & Hrun & _).
    congruence.
  - apply bind_object_inv in H as [H|(other & Ho & H)]; discriminate.
  - apply bind_object_inv in H as [H|(this & Ht & H)]; [discriminate|].
    apply bind_object_inv in H as [H|(rhs & Hr & H)]; [discriminate|].
    apply bind_ret_Throw in H.
    destruct (proj1 Hwf i this Ht) as (xs & Hxs).
    destruct (proj1 Hwf j rhs Hr) as (ys & Hys).
    eapply outcome_no_throw in H; [contradiction|].
    apply (Vector_copy_assign_outcome m _ this rhs xs ys Hxs Hys).
    intros E a. apply Nat.eqb_neq in E.
    exact (proj2 Hwf i j this rhs a E Ht Hr).
  - apply bind_object_inv in H as [H|(this & Ht & H)]; [discriminate|].
    apply bind_object_inv in H as [H|(rhs & Hr & H)]; [discriminate|].
    apply bind_ret_Throw in H.
    destruct (Nat.eqb_spec i j) as [->|Hij]; [discriminate|].
    destruct (proj1 Hwf i this Ht) as (xs & Hxs).
    destruct (proj1 Hwf j rhs Hr) as (ys & Hys).
    pose proof (Vector_move_assign_outcome m this rhs xs ys Hxs Hys) as Hout.
    rewrite H in Hout. contradiction.
  - apply bind_object_inv in H as [H|(this & Ht & H)]; [discriminate|].
    apply bind_object_inv in H as [H|(other & Ho & H)]; discriminate.
  - apply bind_object_inv in H as [H|(this & Ht & H)]; [discriminate|].
    apply bind_ret_Throw in H.
    destruct (proj1 Hwf i this Ht) as (xs & Hxs).
    now apply (outcome_no_throw _ _ _ _ (Reserve_outcome m this xs n Hxs))
      in H.
  - apply bind_object_inv in H as [H|(this & Ht & H)]; [discriminate|].
    apply bind_ret_Throw in H.
    destruct (proj1 Hwf i this Ht) as (xs & Hxs).
    now apply (outcome_no_throw _ _ _ _ (Resize_outcome m this xs n Hxs))
      in H.
  - apply bind_object_inv in H as [H|(this & Ht & H)]; [discriminate|].
    apply bind_ret_Throw in H.
    destruct (proj1 Hwf i this Ht) as (xs & Hxs).
    now apply (outcome_no_throw _ _ _ _
                 (PushBack_outcome m this xs value Hxs)) in H.
  - apply bind_object_inv in H as [H|(this & Ht & H)]; [discriminate|].
    apply bind_ret_Throw in H.
    destruct (proj1 Hwf i this Ht) as (xs & Hxs).
    unfold EmplaceBack in H.
    destruct (construct_from args) as [x|] eqn:Hargs.
    + now apply (outcome_no_throw _ _ _ _
                   (EmplaceBack_with_outcome m this xs x Hxs)) in H.
    + pose proof (EmplaceBack_with_None_outcome m this) as Hout.
      rewrite H in Hout. split; [|exact Hout].
      exists i, args. split; [exact Hargs|now left].
  - apply bind_object_inv in H as [H|(this & Ht & H)]; [discriminate|].
    apply bind_ret_Throw in H.
    destruct (proj1 Hwf i this Ht) as (xs & Hxs).
    now apply (outcome_no_throw _ _ _ _ (PopBack_outcome m this xs Hxs))
      in H.
  - apply bind_object_inv in H as [H|(this & Ht & H)]; [discriminate|].
    apply bind_ret_Throw in H.
    destruct (proj1 Hwf i this Ht) as (xs & Hxs).
    now apply (outcome_no_throw _ _ _ _
                 (Emplace_with_outcome m this xs pos value Hxs)) in H.
  - apply bind_object_inv in H as [H|(this & Ht & H)]; [discriminate|].
    apply bind_ret_Throw in H.
    destruct (proj1 Hwf i this Ht) as (xs & Hxs).
    unfold Emplace in H.
    destruct (construct_from args) as [x|] eqn:Hargs.
    + now apply (outcome_no_throw _ _ _ _
                   (Emplace_with_outcome m this xs pos x Hxs)) in H.
    + pose proof (Emplace_with_None_outcome m this
                    (ptr_add (begin this) pos)) as Hout.
      rewrite H in Hout. split; [|exact Hout].
      exists i, args. split; [exact Hargs|right; now exists pos].
  - apply bind_object_inv in H as [H|(this & Ht & H)]; [discriminate|].
    apply bind_ret_Throw in H.
    destruct (proj1 Hwf i this Ht) as (xs & Hxs).
    now apply (outcome_no_throw _ _ _ _ (Erase_outcome m this xs pos Hxs))
      in H.
Qed.

Lemma step_Throw_well_formed (m m' : mem T) vs o :
  well_formed vs m -> step vs o m = Throw m' -> well_formed vs m'.
Proof.
  intros Hwf H. eapply well_formed_blocks_kept; [exact Hwf|].
  now apply (step_Throw_inv m m' vs o).
Qed.

Lemma reachable_well_formed (vs : list Vector) (m : mem T) :
  reachable vs m -> well_formed vs m.
Proof.
  induction 1 as [|vs m o vs' r m' _ IH Hstep|vs m o m' _ IH Hstep].
  - split; [intros i v Hv; now rewrite lookup_nil in Hv|].
    intros i j v w a _ Hv. now rewrite lookup_nil in Hv.
  - eapply step_Ret_well_formed; eassumption.
  - eapply step_Throw_well_formed; eassumption.
Qed.

Lemma bind_object {B : Type} vs i v (k : Vector -> M B) (m : mem T) :
  vs !! i = Some v -> bind (object vs i) k m = k v m.
Proof. intros H. unfold bind, object. now rewrite H. Qed.

Lemma program_well_formed prog (vs : list Vector) (m : mem T) :
  run_program prog [] empty_mem = Some (vs, m) -> well_formed vs m.
Proof.
  intros Hrun. apply reachable_well_formed.
  eapply run_program_reachable; [apply reach_start|exact Hrun].
Qed.

(** X23.  In every state reached by a program over the interface whose
    calls pass counts with a byte count within [size_t], every vector owns
    a live block of [Capacity ()] slots whose first [Size ()] slots hold its
    elements and whose other slots hold no object, and no two vectors share
    a block. *)
Theorem vectors_own_separate_blocks
    (prog : list op) (vs : list Vector) (m : mem T) :
  Forall op_fits prog ->
  run_program prog [] empty_mem = Some (vs, m) ->
  (forall i v, vs !! i = Some v ->
     exists xs, owns m v xs /\ elements m v = Some xs /\
                Size v = length xs) /\
  (forall i j v w a, i <> j -> vs !! i = Some v -> vs !! j = Some w ->
     buffer_ (data_ v) = Some a -> buffer_ (data_ w) <> Some a).
Proof.
  intros _ Hprog. apply program_well_formed in Hprog as (Hown & Hdist).
  split; [|exact Hdist].
  intros i v Hv. destruct (Hown i v Hv) as (xs & Hxs). exists xs.
  split; [exact Hxs|]. split; [now apply elements_owns|now destruct Hxs].
Qed.

(** X24.  On a vector of a state such a program has reached, [PopBack]
    returns exactly when the vector is not empty, [Insert] exactly when the
    position is at most [Size ()], and [Erase] exactly when the position is
    below [Size ()]. *)
Theorem calls_return_when_preconditions_hold
    (prog : list op) (vs : list Vector) (m : mem T) (i : nat) (v : Vector) :
  Forall op_fits prog ->
  run_program prog [] empty_mem = Some (vs, m) -> vs !! i = Some v ->
  ((exists vs' r m', step vs (OpPopBack i) m = Ret (vs', r) m') <->
   0 < Size v) /\
  (forall pos x,
     (exists vs' r m', step vs (OpInsert i pos x) m = Ret (vs', r) m') <->
     pos <= Size v) /\
  (forall pos,
     (exists vs' r m', step vs (OpErase i pos) m = Ret (vs', r) m') <->
     pos < Size v).
Proof.
  intros _ Hprog Hv. apply program_well_formed in Hprog as Hwf.
  destruct (proj1 Hwf i v Hv) as (xs & Hxs).
  assert (Hsz : Size v = length xs) by now destruct Hxs.
  repeat split.
  - intros (vs' & r & m' & H). cbn [step] in H.
    rewrite (bind_object vs i v) in H by exact Hv.
    inv_bind_as H v' m1 Hrun.
    destruct (Nat.eq_dec (Size v) 0) as [Hz|Hnz]; [|lia].
    rewrite PopBack_empty in Hrun by exact Hz. discriminate.
  - intros Hpos. destruct xs as [|x0 xs0] using rev_ind.
    { cbn [length] in Hsz. lia. }
    destruct (PopBack_owns m v xs0 x0 Hxs) as (m' & Hrun & _).
    eexists _, _, m'. cbn [step]. rewrite (bind_object vs i v) by exact Hv.
    erewrite bind_Ret by exact Hrun. reflexivity.
  - intros (vs' & r & m' & H). cbn [step] in H.
    rewrite (bind_object vs i v) in H by exact Hv.
    inv_bind_as H v' m1 Hrun.
    destruct (Nat.le_gt_cases pos (Size v)) as [Hle|Hgt]; [exact Hle|].
    unfold Insert in Hrun.
    rewrite (Emplace_with_beyond m v xs pos x Hxs Hgt) in Hrun.
    discriminate.
  - intros Hpos.
    assert (Hlen : length (take pos xs) = pos)
      by (rewrite length_take; lia).
    rewrite <- (take_drop pos xs) in Hxs.
    destruct (Insert_owns m v _ _ x Hxs) as (v' & m' & Hrun & _).
    rewrite Hlen in Hrun.
    eexists _, _, m'. cbn [step]. rewrite (bind_object vs i v) by exact Hv.
    erewrite bind_Ret by exact Hrun. reflexivity.
  - intros (vs' & r & m' & H). cbn [step] in H.
    rewrite (bind_object vs i v) in H by exact Hv.
    inv_bind_as H v' m1 Hrun.
    destruct (Nat.le_gt_cases (Size v) pos) as [Hle|Hgt]; [|exact Hgt].
    rewrite Erase_past_the_end in Hrun by exact Hle. discriminate.
  - intros Hpos. rewrite Hsz in Hpos.
    destruct (lookup_lt_is_Some_2 xs pos Hpos) as (x & Hx).
    apply lookup_split in Hx as (Hsplit & Hlen).
    rewrite Hsplit in Hxs.
    destruct (Erase_owns m v _ _ _ Hxs) as (m' & Hrun & _).
    rewrite Hlen in Hrun.
    eexists _, _, m'. cbn [step]. rewrite (bind_object vs i v) by exact Hv.
    erewrite bind_Ret by exact Hrun. reflexivity.
Qed.

(** X25.  In a state such a program has reached, when [EmplaceBack] or
    [Emplace] is called with arguments on which the constructor of the new
    element throws, and the call leaves with the exception, every block,
    and so the elements of every vector, is as it was. *)
Theorem throwing_call_changes_nothing
    (prog : list op) (vs : list Vector) (m m' : mem T)
    (i : nat) (args : Args) :
  Forall op_fits prog ->
  run_program prog [] empty_mem = Some (vs, m) ->
  construct_from args = None ->
  step vs (OpEmplaceBack i args) m = Throw m' \/
  (exists pos, step vs (OpEmplace i pos args) m = Throw m') ->
  (forall b blk, blk_at m b blk -> blk_at m' b blk) /\
  (forall j v, vs !! j = Some v -> elements m' v = elements m v).
Proof.
  intros _ Hprog _ H. apply program_well_formed in Hprog as Hwf.
  assert (Hkept : forall b blk, blk_at m b blk -> blk_at m' b blk).
  { destruct H as [H|(pos & H)];
      now apply (step_Throw_inv m m' vs _ Hwf H). }
  split; [exact Hkept|].
  intros j v Hv. destruct (proj1 Hwf j v Hv) as (xs & Hxs).
  rewrite (elements_owns m v xs Hxs).
  apply elements_owns. eapply owns_blocks_kept; eassumption.
Qed.

(** X26.  What move assignment leaves behind.  When the source exceeds the
    capacity of the destination, the old block of the destination is
    released and the source is left empty, with no block; when the source
    fits and is at least as large as the destination, the two vectors are
    exchanged and the memory is not touched, so that the source now holds
    the former elements of the destination. *)
Theorem move_assign_leaves_source
    (m : mem T) (v w : Vector) (xs ys : list T) :
  owns m v xs -> owns m w ys ->
  (Capacity v < size_ w ->
   exists m',
     Vector_move_assign false v w m = Ret (w, Vector_default) m' /\
     (forall a, buffer_ (data_ v) = Some a -> cells m' !! a = Some None) /\
     (forall b, buffer_ (data_ v) <> Some b ->
                cells m' !! b = cells m !! b) /\
     trace m' =
       trace m ++
       match buffer_ (data_ v) with Some a => [EvFree a] | None => [] end) /\
  (size_ w <= Capacity v -> size_ v <= size_ w ->
   Vector_move_assign false v w m = Ret (w, v) m).
Proof.
  intros Hv Hw. destruct v as [[bv cv] sv], w as [[bw cw] sw].
  unfold Vector_move_assign, Capacity.
  cbn [negb data_ size_ capacity_ buffer_]. split.
  - intros Hbig. destruct (Nat.ltb_spec cv sw); [|lia].
    cbn [Vector_move RawMemory_move Swap RawMemory_Swap data_ size_
         buffer_ capacity_].
    destruct (Vector_dtor_owns m (MkVec (MkRaw bv cv) sv) xs Hv)
      as (m' & Hrun & Hrel & Hkeep & _ & Htr).
    exists m'. erewrite bind_Ret by exact Hrun.
    split; [reflexivity|]. split; [exact Hrel|]. split; [exact Hkeep|].
    exact Htr.
  - intros Hfit Hgrow. destruct (Nat.ltb_spec cv sw); [lia|].
    destruct (Nat.ltb_spec sw sv); [lia|]. reflexivity.
Qed.

End Element.

(** * Examples *)

(** The vector [1, 2] with capacity 2 in block 0, relocated by
    [Reserve (3)]: both elements are moved. *)
Lemma relocation_moves_or_copies_witness :
  owns (Mem [Some [Live 1; Live 2]] []) (MkVec (MkRaw (Some 0) 2) 2) [1; 2] /\
  fits_size_t 4 3 /\
  exists v' m',
    Reserve nat_moved_from true true (MkVec (MkRaw (Some 0) 2) 2) 3
            (Mem [Some [Live 1; Live 2]] []) = Ret v' m' /\
    buffer_ (data_ v') = Some 1 /\
    elements m' v' = Some [1; 2] /\
    trace m' = [EvAlloc 1 3; EvMove 1; EvMove 2; EvFree 0].
Proof.
  assert (H : owns (Mem [Some [Live 1; Live 2]] [])
                   (MkVec (MkRaw (Some 0) 2) 2) [1; 2])
    by (split; [reflexivity|split; [apply le_n|reflexivity]]).
  split; [exact H|]. split; [reflexivity|].
  pose proof (relocation_moves_or_copies nat_moved_from true true
                (option nat) nat_construct 4 _ _ _ H) as H0.
  cbn zeta in H0. destruct H0 as (HR & _).
  apply (HR 3); [apply le_n|reflexivity].
Defined.

(** [EmplaceBack] on the full vector [1] with arguments on which the
    constructor throws. *)
Lemma emplace_back_throw_when_full_witness :
  nat_construct None = None /\
  0 < size_ (MkVec (MkRaw (Some 0) 1) 1) /\
  size_ (MkVec (MkRaw (Some 0) 1) 1) = Capacity (MkVec (MkRaw (Some 0) 1) 1) /\
  EmplaceBack nat_moved_from true true (option nat) nat_construct
    (MkVec (MkRaw (Some 0) 1) 1) None (Mem [Some [Live 1]] []) = Undef.
Proof.
  split; [reflexivity|]. split; [apply le_n|]. split; [reflexivity|].
  apply emplace_back_throw_when_full;
    [reflexivity|apply le_n|reflexivity].
Defined.

(** [v = std::move (w)] for [v = 1, 2] and [w = 3]. *)
Lemma move_assign_shrinking_undefined_witness :
  owns (Mem [Some [Live 1; Live 2]; Some [Live 3]] [])
       (MkVec (MkRaw (Some 1) 1) 1) [3] /\
  Vector_move_assign false (MkVec (MkRaw (Some 0) 2) 2)
    (MkVec (MkRaw (Some 1) 1) 1)
    (Mem [Some [Live 1; Live 2]; Some [Live 3]] []) = Undef.
Proof.
  assert (H : owns (Mem [Some [Live 1; Live 2]; Some [Live 3]] [])
                   (MkVec (MkRaw (Some 1) 1) 1) [3])
    by (split; [reflexivity|split; [apply le_n|reflexivity]]).
  split; [exact H|].
  apply (move_assign_shrinking_undefined _ _ _ [3] H);
    [apply le_n|apply le_S, le_n|reflexivity|reflexivity].
Defined.

(** Three pushes and a pop. *)
Lemma push_pop_sequence_witness :
  pops_allowed 0 [Push 1; Push 2; Pop; Push 3] = true /\
  exists v' m',
    run_ops nat_moved_from true true Vector_default
            [Push 1; Push 2; Pop; Push 3] empty_mem = Ret v' m' /\
    1 <= 3 /\
    Size v' = 2 /\
    elements m' v' = Some [1; 3].
Proof.
  split; [reflexivity|].
  apply (push_pop_sequence nat_moved_from true true empty_mem
           [Push 1; Push 2; Pop; Push 3]).
  reflexivity.
Defined.

(** Inserting 9 in the middle of [1, 2] and erasing it again. *)
Lemma insert_erase_roundtrip_witness :
  owns (Mem [Some [Live 1; Live 2]] []) (MkVec (MkRaw (Some 0) 2) 2) [1; 2] /\
  1 <= length [1; 2] /\
  exists v1 it m1 v2 it2 m2,
    Insert nat_moved_from true true (MkVec (MkRaw (Some 0) 2) 2)
           (ptr_add (begin (MkVec (MkRaw (Some 0) 2) 2)) 1) 9
           (Mem [Some [Live 1; Live 2]] []) = Ret (v1, it) m1 /\
    Erase nat_moved_from v1 it m1 = Ret (v2, it2) m2 /\
    elements m2 v2 = Some [1; 2] /\
    Size v2 = Size (MkVec (MkRaw (Some 0) 2) 2).
Proof.
  assert (H : owns (Mem [Some [Live 1; Live 2]] [])
                   (MkVec (MkRaw (Some 0) 2) 2) [1; 2])
    by (split; [reflexivity|split; [apply le_n|reflexivity]]).
  split; [exact H|]. split; [apply le_S, le_n|].
  apply (insert_erase_roundtrip nat_moved_from true true _ _ [1; 2] 1 9 H).
  apply le_S, le_n.
Defined.

(** [Reserve (10)] on the empty vector. *)
Lemma reserve_amortizes_witness :
  owns (@empty_mem nat) Vector_default [] /\
  fits_size_t 4 10 /\
  exists v1 m1,
    Reserve nat_moved_from true true Vector_default 10 empty_mem = Ret v1 m1 /\
    10 <= Capacity v1 /\
    elements m1 v1 = Some [] /\
    (10 <= Capacity Vector_default -> v1 = Vector_default /\ m1 = empty_mem) /\
    (@nil nat = [] ->
     forall ys : list nat, length ys <= 10 ->
       exists v2 m2,
         run_ops nat_moved_from true true v1 (map Push ys) m1 = Ret v2 m2 /\
         data_ v2 = data_ v1 /\
         trace m2 = trace m1 /\
         elements m2 v2 = Some ys).
Proof.
  assert (H : owns (@empty_mem nat) Vector_default [])
    by (split; [reflexivity|split; [apply le_n|reflexivity]]).
  split; [exact H|]. split; [reflexivity|].
  apply (reserve_amortizes nat_moved_from true true 4 _ _ [] 10 H).
  intros _. reflexivity.
Defined.

(** Appending to the vector [1, 2], the only object of a program. *)
Lemma append_one_element_witness :
  [MkVec (MkRaw (Some 0) 2) 2] !! 0 = Some (MkVec (MkRaw (Some 0) 2) 2) /\
  owns (Mem [Some [Live 1; Live 2]] []) (MkVec (MkRaw (Some 0) 2) 2) [1; 2] /\
  exists v' p m',
    step nat_moved_from 0 true true (option nat) nat_construct
         [MkVec (MkRaw (Some 0) 2) 2] (OpEmplaceBack (option nat) 0 (Some 5))
         (Mem [Some [Live 1; Live 2]] []) =
      Ret (<[0 := v']> [MkVec (MkRaw (Some 0) 2) 2], RetRef p) m' /\
    elements m' v' = Some ([1; 2] ++ [5]) /\
    p = Ptr (buffer_ (data_ v')) (length [1; 2]) /\
    read p m' = Ret 5 m'.
Proof.
  assert (H : owns (Mem [Some [Live 1; Live 2]] [])
                   (MkVec (MkRaw (Some 0) 2) 2) [1; 2])
    by (split; [reflexivity|split; [apply le_n|reflexivity]]).
  split; [reflexivity|]. split; [exact H|].
  destruct (append_one_element nat_moved_from 0 true true (option nat)
              nat_construct _ [MkVec (MkRaw (Some 0) 2) 2] 0 _ [1; 2]
              eq_refl H) as (HE & _).
  apply (HE (Some 5) 5). reflexivity.
Defined.

(** [PushBack] on the empty vector hands back nothing, so no reference to
    the new element. *)
Lemma push_back_returns_no_reference :
  ~ exists vs' p m',
      step nat_moved_from 0 true true (option nat) nat_construct
           [Vector_default] (OpPushBack (option nat) 0 7) empty_mem =
      Ret (vs', RetRef p) m'.
Proof.
  intros (vs' & p & m' & H). vm_compute in H. discriminate H.
Qed.

(** A program which goes through every kind of call, one of them
    throwing, and the state it ends in. *)
Lemma size_within_capacity_witness :
  reachable nat_moved_from 0 true true (option nat) nat_construct
    [MkVec (MkRaw (Some 7) 2) 2; MkVec (MkRaw (Some 3) 10) 2;
     MkVec (MkRaw (Some 5) 3) 3; MkVec (MkRaw None 0) 0]
    (Mem [None; None; None;
          Some [Live 4; Live 1; Uninit; Uninit; Uninit; Uninit; Uninit;
                Uninit; Uninit; Uninit];
          Some [Uninit]; Some [Live 0; Live 0; Live 0]; None;
          Some [Live 1; Live 9]; Some [Uninit]]
         [EvAlloc 0 1; EvAlloc 1 2; EvMove 1; EvFree 0; EvAlloc 2 4;
          EvMove 1; EvMove 2; EvFree 1; EvAlloc 3 10; EvMove 1; EvMove 2;
          EvMove 3; EvFree 2; EvAlloc 4 1; EvAlloc 5 3; EvAlloc 6 2;
          EvCopy 1; EvCopy 9; EvAlloc 7 2; EvCopy 1; EvCopy 9; EvFree 6;
          EvAlloc 8 1]) /\
  [MkVec (MkRaw (Some 7) 2) 2; MkVec (MkRaw (Some 3) 10) 2;
   MkVec (MkRaw (Some 5) 3) 3; MkVec (MkRaw None 0) 0] !! 1 =
    Some (MkVec (MkRaw (Some 3) 10) 2) /\
  0 <= Size (MkVec (MkRaw (Some 3) 10) 2) /\
  Size (MkVec (MkRaw (Some 3) 10) 2) <= Capacity (MkVec (MkRaw (Some 3) 10) 2).
Proof.
  assert (H : reachable nat_moved_from 0 true true (option nat) nat_construct
    [MkVec (MkRaw (Some 7) 2) 2; MkVec (MkRaw (Some 3) 10) 2;
     MkVec (MkRaw (Some 5) 3) 3; MkVec (MkRaw None 0) 0]
    (Mem [None; None; None;
          Some [Live 4; Live 1; Uninit; Uninit; Uninit; Uninit; Uninit;
                Uninit; Uninit; Uninit];
          Some [Uninit]; Some [Live 0; Live 0; Live 0]; None;
          Some [Live 1; Live 9]; Some [Uninit]]
         [EvAlloc 0 1; EvAlloc 1 2; EvMove 1; EvFree 0; EvAlloc 2 4;
          EvMove 1; EvMove 2; EvFree 1; EvAlloc 3 10; EvMove 1; EvMove 2;
          EvMove 3; EvFree 2; EvAlloc 4 1; EvAlloc 5 3; EvAlloc 6 2;
          EvCopy 1; EvCopy 9; EvAlloc 7 2; EvCopy 1; EvCopy 9; EvFree 6;
          EvAlloc 8 1])).
  { apply (run_program_reachable nat_moved_from 0 true true (option nat)
             nat_construct
             [OpDefault (option nat);
              OpPushBack (option nat) 0 1;
              OpPushBack (option nat) 0 2;
              OpEmplaceBack (option nat) 0 (Some 3);
              OpReserve (option nat) 0 10;
              OpInsert (option nat) 0 1 9;
              OpErase (option nat) 0 2;
              OpResize (option nat) 0 5;
              OpResize (option nat) 0 2;
              OpNew (option nat) 3;
              OpCopy (option nat) 0;
              OpMove (option nat) 1;
              OpCopyAssign (option nat) 1 0;
              OpMoveAssign (option nat) 2 3;
              OpSwap (option nat) 0 1;
              OpEmplaceBack (option nat) 1 None;
              OpEmplace (option nat) 1 0 (Some 4);
              OpPopBack (option nat) 1]
             [] empty_mem); [apply reach_start|reflexivity]. }
  split; [exact H|]. split; [reflexivity|].
  apply (size_within_capacity _ _ _ _ _ _ _ _ H 1). reflexivity.
Defined.

(** Assigning the vector [1, 2] to itself. *)
Lemma self_assignment_unchanged_witness :
  [MkVec (MkRaw (Some 0) 2) 2] !! 0 = Some (MkVec (MkRaw (Some 0) 2) 2) /\
  step nat_moved_from 0 true true (option nat) nat_construct
       [MkVec (MkRaw (Some 0) 2) 2] (OpCopyAssign (option nat) 0 0)
       (Mem [Some [Live 1; Live 2]] []) =
    Ret ([MkVec (MkRaw (Some 0) 2) 2], RetThis 0)
        (Mem [Some [Live 1; Live 2]] []) /\
  step nat_moved_from 0 true true (option nat) nat_construct
       [MkVec (MkRaw (Some 0) 2) 2] (OpMoveAssign (option nat) 0 0)
       (Mem [Some [Live 1; Live 2]] []) =
    Ret ([MkVec (MkRaw (Some 0) 2) 2], RetThis 0)
        (Mem [Some [Live 1; Live 2]] []).
Proof.
  split; [reflexivity|].
  apply (self_assignment_unchanged nat_moved_from 0 true true (option nat)
           nat_construct _ [MkVec (MkRaw (Some 0) 2) 2] 0 _ eq_refl).
Defined.

(** * Examples for the further properties *)

(** Copying the vector [1, 2]. *)
Lemma copy_construct_deep_witness :
  owns (Mem [Some [Live 1; Live 2]] []) (MkVec (MkRaw (Some 0) 2) 2) [1; 2] /\
  exists v m',
    Vector_copy (MkVec (MkRaw (Some 0) 2) 2)
                (Mem [Some [Live 1; Live 2]] []) = Ret v m' /\
    elements m' v = Some [1; 2] /\
    elements m' (MkVec (MkRaw (Some 0) 2) 2) = Some [1; 2] /\
    Capacity v = 2 /\
    trace m' = [EvAlloc 1 2; EvCopy 1; EvCopy 2].
Proof.
  assert (H : owns (Mem [Some [Live 1; Live 2]] [])
                   (MkVec (MkRaw (Some 0) 2) 2) [1; 2])
    by (split; [reflexivity|split; [apply le_n|reflexivity]]).
  split; [exact H|].
  destruct (copy_construct_deep _ _ _ H)
    as (v & m' & Hrun & Hv & Ho & _ & Hc & _ & Htr).
  exists v, m'. repeat split; assumption.
Defined.

(** Moving from the vector [1, 2]. *)
Lemma move_construct_empties_source_witness :
  owns (Mem [Some [Live 1; Live 2]] []) (MkVec (MkRaw (Some 0) 2) 2) [1; 2] /\
  Size (snd (Vector_move (MkVec (MkRaw (Some 0) 2) 2))) = 0 /\
  Vector_dtor (snd (Vector_move (MkVec (MkRaw (Some 0) 2) 2)))
              (Mem [Some [Live 1; Live 2]] []) =
    Ret tt (Mem [Some [Live 1; Live 2]] []).
Proof.
  assert (H : owns (Mem [Some [Live 1; Live 2]] [])
                   (MkVec (MkRaw (Some 0) 2) 2) [1; 2])
    by (split; [reflexivity|split; [apply le_n|reflexivity]]).
  split; [exact H|].
  destruct (move_construct_empties_source _ _ _ H)
    as (_ & _ & Hs & _ & _ & Hd).
  split; assumption.
Defined.

(** Growing the vector [1, 2] to four elements and shrinking it to one. *)
Lemma resize_elements_witness :
  owns (Mem [Some [Live 1; Live 2]] []) (MkVec (MkRaw (Some 0) 2) 2) [1; 2] /\
  fits_size_t 4 4 /\
  (exists v' m',
     Resize nat_moved_from 7 true true (MkVec (MkRaw (Some 0) 2) 2) 4
            (Mem [Some [Live 1; Live 2]] []) = Ret v' m' /\
     elements m' v' = Some [1; 2; 7; 7] /\ Capacity v' = 4) /\
  (exists v' m',
     Resize nat_moved_from 7 true true (MkVec (MkRaw (Some 0) 2) 2) 1
            (Mem [Some [Live 1; Live 2]] []) = Ret v' m' /\
     elements m' v' = Some [1] /\ Capacity v' = 2).
Proof.
  assert (H : owns (Mem [Some [Live 1; Live 2]] [])
                   (MkVec (MkRaw (Some 0) 2) 2) [1; 2])
    by (split; [reflexivity|split; [apply le_n|reflexivity]]).
  split; [exact H|]. split; [reflexivity|]. split.
  - destruct (resize_elements nat_moved_from 7 true true 4 _ _ _ 4 H)
      as (v' & m' & Hrun & He & _ & Hc & _); [intros _; reflexivity|].
    exists v', m'. repeat split; assumption.
  - destruct (resize_elements nat_moved_from 7 true true 4 _ _ _ 1 H)
      as (v' & m' & Hrun & He & _ & Hc & _); [intros _; reflexivity|].
    exists v', m'. repeat split; assumption.
Defined.

(** Assigning [3] to the vector [1, 2]. *)
Lemma copy_assign_distinct_witness :
  owns (Mem [Some [Live 1; Live 2]; Some [Live 3]] [])
       (MkVec (MkRaw (Some 0) 2) 2) [1; 2] /\
  owns (Mem [Some [Live 1; Live 2]; Some [Live 3]] [])
       (MkVec (MkRaw (Some 1) 1) 1) [3] /\
  exists v' m',
    Vector_copy_assign false (MkVec (MkRaw (Some 0) 2) 2)
      (MkVec (MkRaw (Some 1) 1) 1)
      (Mem [Some [Live 1; Live 2]; Some [Live 3]] []) = Ret v' m' /\
    elements m' v' = Some [3] /\
    elements m' (MkVec (MkRaw (Some 1) 1) 1) = Some [3].
Proof.
  assert (Hv : owns (Mem [Some [Live 1; Live 2]; Some [Live 3]] [])
                    (MkVec (MkRaw (Some 0) 2) 2) [1; 2])
    by (split; [reflexivity|split; [apply le_n|reflexivity]]).
  assert (Hw : owns (Mem [Some [Live 1; Live 2]; Some [Live 3]] [])
                    (MkVec (MkRaw (Some 1) 1) 1) [3])
    by (split; [reflexivity|split; [apply le_n|reflexivity]]).
  split; [exact Hv|]. split; [exact Hw|].
  destruct (copy_assign_distinct _ _ _ _ _ Hv Hw)
    as (v' & m' & Hrun & He & _ & Hw' & _).
  - intros a [= <-]. discriminate.
  - exists v', m'. repeat split; assumption.
Defined.

(** Destroying the vector [1, 2]. *)
Lemma destructor_releases_block_witness :
  owns (Mem [Some [Live 1; Live 2]] []) (MkVec (MkRaw (Some 0) 2) 2) [1; 2] /\
  (exists m1 m',
     destroy_n (begin (MkVec (MkRaw (Some 0) 2) 2)) 2
               (Mem [Some [Live 1; Live 2]] []) = Ret tt m1 /\
     blk_at m1 0 [Uninit; Uninit] /\
     Vector_dtor (MkVec (MkRaw (Some 0) 2) 2)
                 (Mem [Some [Live 1; Live 2]] []) = Ret tt m' /\
     cells m' !! 0 = Some None /\
     Vector_dtor (MkVec (MkRaw (Some 0) 2) 2) m' = Undef) /\
  Vector_dtor (MkVec (MkRaw (Some 0) 2) 2)
              (Mem [Some [Live 1; Uninit]] []) = Undef.
Proof.
  assert (H : owns (Mem [Some [Live 1; Live 2]] [])
                   (MkVec (MkRaw (Some 0) 2) 2) [1; 2])
    by (split; [reflexivity|split; [apply le_n|reflexivity]]).
  split; [exact H|].
  destruct (destructor_releases_block _ _ _ H) as (Hfirst & Hraw).
  split.
  - destruct Hfirst as (m1 & m' & Hd & Hblk & _ & Hrun & Hrel & _).
    destruct (Hrel 0 eq_refl) as (H1 & H2).
    exists m1, m'. split; [exact Hd|]. split; [exact (Hblk 0 eq_refl)|].
    repeat split; assumption.
  - apply (Hraw (Mem [Some [Live 1; Uninit]] []) 0 [Live 1; Uninit] 1);
      [reflexivity|reflexivity|apply le_n|reflexivity].
Defined.

(** Indexing the vector [1, 2] at 1 and at 2. *)
Lemma index_access_witness :
  owns (Mem [Some [Live 1; Live 2]] []) (MkVec (MkRaw (Some 0) 2) 2) [1; 2] /\
  (exists p,
     Vector_index (MkVec (MkRaw (Some 0) 2) 2) 1
                  (Mem [Some [Live 1; Live 2]] []) =
       Ret p (Mem [Some [Live 1; Live 2]] []) /\
     read p (Mem [Some [Live 1; Live 2]] []) =
       Ret 2 (Mem [Some [Live 1; Live 2]] [])) /\
  Vector_index (MkVec (MkRaw (Some 0) 2) 2) 2
               (Mem [Some [Live 1; Live 2]] []) = Undef.
Proof.
  assert (H : owns (Mem [Some [Live 1; Live 2]] [])
                   (MkVec (MkRaw (Some 0) 2) 2) [1; 2])
    by (split; [reflexivity|split; [apply le_n|reflexivity]]).
  split; [exact H|].
  destruct (index_access _ _ _ H) as (Hin & Hout).
  split; [apply (Hin 1 2 eq_refl)|apply (Hout 2), le_n].
Defined.

(** Removing from the empty vector. *)
Lemma removal_needs_an_element_witness :
  size_ Vector_default = 0 /\
  PopBack Vector_default (@empty_mem nat) = Undef /\
  Erase nat_moved_from Vector_default (ptr_add (begin Vector_default) 0)
        (@empty_mem nat) = Undef.
Proof.
  split; [reflexivity|].
  destruct (removal_needs_an_element nat_moved_from (@empty_mem nat)
              Vector_default) as (Hp & He).
  split; [apply Hp; reflexivity|apply (He 0), le_n].
Defined.

(** Removing the last element of [1, 2]. *)
Lemma pop_back_removes_last_witness :
  owns (Mem [Some [Live 1; Live 2]] []) (MkVec (MkRaw (Some 0) 2) 2)
       ([1] ++ [2]) /\
  exists v' m',
    PopBack (MkVec (MkRaw (Some 0) 2) 2) (Mem [Some [Live 1; Live 2]] []) =
      Ret v' m' /\
    (exists blk, blk_at m' 0 blk /\ blk !! 1 = Some Uninit) /\
    elements m' v' = Some [1] /\
    data_ v' = MkRaw (Some 0) 2.
Proof.
  assert (H : owns (Mem [Some [Live 1; Live 2]] [])
                   (MkVec (MkRaw (Some 0) 2) 2) ([1] ++ [2]))
    by (split; [reflexivity|split; [apply le_n|reflexivity]]).
  split; [exact H|].
  destruct (pop_back_removes_last _ _ _ _ H)
    as (v' & m' & Hrun & _ & Hraw & He & _ & Hd & _).
  exists v', m'. split; [exact Hrun|]. split; [exact (Hraw 0 eq_refl)|].
  split; assumption.
Defined.

(** Erasing the first element of [1, 2]. *)
Lemma erase_shifts_left_witness :
  owns (Mem [Some [Live 1; Live 2]] []) (MkVec (MkRaw (Some 0) 2) 2)
       ([] ++ 1 :: [2]) /\
  exists v' m',
    Erase nat_moved_from (MkVec (MkRaw (Some 0) 2) 2)
          (ptr_add (begin (MkVec (MkRaw (Some 0) 2) 2)) 0)
          (Mem [Some [Live 1; Live 2]] []) =
      Ret (v', ptr_add (begin v') 0) m' /\
    elements m' v' = Some [2] /\
    read (ptr_add (begin v') 0) m' = Ret 2 m'.
Proof.
  assert (H : owns (Mem [Some [Live 1; Live 2]] [])
                   (MkVec (MkRaw (Some 0) 2) 2) ([] ++ 1 :: [2]))
    by (split; [reflexivity|split; [apply le_n|reflexivity]]).
  split; [exact H|].
  destruct (erase_shifts_left nat_moved_from _ _ _ _ _ H)
    as (v' & m' & Hrun & He & _ & _ & _ & Hnext).
  exists v', m'. split; [exact Hrun|]. split; [exact He|].
  apply (Hnext 2 eq_refl).
Defined.

(** Inserting 9 before the last element of [1, 2]. *)
Lemma insert_places_element_witness :
  owns (Mem [Some [Live 1; Live 2]] []) (MkVec (MkRaw (Some 0) 2) 2)
       ([1] ++ [2]) /\
  exists v' m',
    Insert nat_moved_from true true (MkVec (MkRaw (Some 0) 2) 2)
           (ptr_add (begin (MkVec (MkRaw (Some 0) 2) 2)) 1) 9
           (Mem [Some [Live 1; Live 2]] []) =
      Ret (v', ptr_add (begin v') 1) m' /\
    elements m' v' = Some [1; 9; 2] /\
    read (ptr_add (begin v') 1) m' = Ret 9 m'.
Proof.
  assert (H : owns (Mem [Some [Live 1; Live 2]] [])
                   (MkVec (MkRaw (Some 0) 2) 2) ([1] ++ [2]))
    by (split; [reflexivity|split; [apply le_n|reflexivity]]).
  split; [exact H|].
  destruct (insert_places_element nat_moved_from true true _ _ _ _ 9 H)
    as (v' & m' & Hrun & He & _ & Hr).
  exists v', m'. repeat split; assumption.
Defined.

(** Appending to the full vector [1, 2]. *)
Lemma append_growth_policy_witness :
  owns (Mem [Some [Live 1; Live 2]] []) (MkVec (MkRaw (Some 0) 2) 2) [1; 2] /\
  exists v' m',
    PushBack nat_moved_from true true (MkVec (MkRaw (Some 0) 2) 2) 5
             (Mem [Some [Live 1; Live 2]] []) = Ret v' m' /\
    Capacity v' = 4.
Proof.
  assert (H : owns (Mem [Some [Live 1; Live 2]] [])
                   (MkVec (MkRaw (Some 0) 2) 2) [1; 2])
    by (split; [reflexivity|split; [apply le_n|reflexivity]]).
  split; [exact H|].
  destruct (append_growth_policy nat_moved_from true true _ _ _ 5 H)
    as (v' & m' & Hrun & Hc & _).
  exists v', m'. split; assumption.
Defined.

(** [PushBack] on the full vector [1, 2], the only object of a program. *)
Lemma capacity_never_decreases_witness :
  step nat_moved_from 0 true true (option nat) nat_construct
       [MkVec (MkRaw (Some 0) 2) 2] (OpPushBack (option nat) 0 5)
       (Mem [Some [Live 1; Live 2]] []) =
    Ret ([MkVec (MkRaw (Some 1) 4) 3], RetVoid)
        (Mem [None; Some [Live 1; Live 2; Live 5; Uninit]]
             [EvAlloc 1 4; EvMove 1; EvMove 2; EvFree 0]) /\
  exists v',
    [MkVec (MkRaw (Some 1) 4) 3] !! 0 = Some v' /\
    Capacity (MkVec (MkRaw (Some 0) 2) 2) <= Capacity v'.
Proof.
  split; [reflexivity|].
  apply (capacity_never_decreases nat_moved_from 0 true true (option nat)
           nat_construct
           (Mem [Some [Live 1; Live 2]] [])
           (Mem [None; Some [Live 1; Live 2; Live 5; Uninit]]
                [EvAlloc 1 4; EvMove 1; EvMove 2; EvFree 0])
           [MkVec (MkRaw (Some 0) 2) 2] [MkVec (MkRaw (Some 1) 4) 3]
           (OpPushBack (option nat) 0 5) RetVoid 0
           (MkVec (MkRaw (Some 0) 2) 2) eq_refl eq_refl eq_refl eq_refl).
Defined.

(** A throwing constructor on the vector [1, 2] with capacity 3. *)
Lemma throwing_constructor_leaves_blocks_witness :
  nat_construct None = None /\
  size_ (MkVec (MkRaw (Some 0) 3) 2) <= Capacity (MkVec (MkRaw (Some 0) 3) 2) /\
  EmplaceBack nat_moved_from true true (option nat) nat_construct
    (MkVec (MkRaw (Some 0) 3) 2) None
    (Mem [Some [Live 1; Live 2; Uninit]] []) =
    Throw (Mem [Some [Live 1; Live 2; Uninit]] []) /\
  exists m',
    Emplace nat_moved_from true true (option nat) nat_construct
      (MkVec (MkRaw (Some 0) 3) 2)
      (ptr_add (begin (MkVec (MkRaw (Some 0) 3) 2)) 1) None
      (Mem [Some [Live 1; Live 2; Uninit]] []) = Throw m' /\
    blk_at m' 0 [Live 1; Live 2; Uninit].
Proof.
  split; [reflexivity|]. split; [apply le_S, le_n|].
  destruct (throwing_constructor_leaves_blocks nat_moved_from true true
              (option nat) nat_construct
              (Mem [Some [Live 1; Live 2; Uninit]] [])
              (MkVec (MkRaw (Some 0) 3) 2) None eq_refl
              (le_S _ _ (le_n _)) (or_introl (le_n _)))
    as ((m1 & Hrun1 & Hsame & _) & Hemp).
  split.
  - rewrite Hrun1. f_equal. apply Hsame. apply le_n.
  - destruct (Hemp 1 (le_n _)) as (m' & Hrun & Hkept).
    exists m'. split; [exact Hrun|]. apply Hkept. reflexivity.
Defined.

(** A throwing constructor in [Emplace] at the front of the full vector
    [1, 2]. *)
Lemma emplace_throw_when_full_witness :
  nat_construct None = None /\
  Emplace nat_moved_from true true (option nat) nat_construct
    (MkVec (MkRaw (Some 0) 2) 2)
    (ptr_add (begin (MkVec (MkRaw (Some 0) 2) 2)) 0) None
    (Mem [Some [Live 1; Live 2]] []) = Undef.
Proof.
  split; [reflexivity|].
  apply emplace_throw_when_full;
    [reflexivity|apply le_S, le_n|reflexivity].
Defined.

(** Inserting 9 before the last element of [1, 2] with capacity 3. *)
Lemma in_place_insert_keeps_scratch_block_witness :
  owns (Mem [Some [Live 1; Live 2; Uninit]] []) (MkVec (MkRaw (Some 0) 3) 2)
       ([1] ++ [] ++ [2]) /\
  exists v' it m',
    Insert nat_moved_from true true (MkVec (MkRaw (Some 0) 3) 2)
           (ptr_add (begin (MkVec (MkRaw (Some 0) 3) 2)) 1) 9
           (Mem [Some [Live 1; Live 2; Uninit]] []) = Ret (v', it) m' /\
    elements m' v' = Some [1; 9; 2] /\
    cells m' !! 1 = Some (Some [Uninit]) /\
    trace m' = [EvAlloc 1 1].
Proof.
  assert (H : owns (Mem [Some [Live 1; Live 2; Uninit]] [])
                   (MkVec (MkRaw (Some 0) 3) 2) ([1] ++ [] ++ [2]))
    by (split; [reflexivity|split; [apply le_S, le_n|reflexivity]]).
  split; [exact H|].
  apply (in_place_insert_keeps_scratch_block nat_moved_from true true
           _ _ [1] [] 2 9 H).
  apply le_n.
Defined.




(** The vector [7, 8, 9] is move-assigned to the vector [1, 2] of
    capacity 2: the source exceeds the capacity of the destination. *)
Lemma move_assign_takes_elements_witness :
  owns (Mem [Some [Live 1; Live 2]; Some [Live 7; Live 8; Live 9]] [])
       (MkVec (MkRaw (Some 0) 2) 2) [1; 2] /\
  owns (Mem [Some [Live 1; Live 2]; Some [Live 7; Live 8; Live 9]] [])
       (MkVec (MkRaw (Some 1) 3) 3) [7; 8; 9] /\
  exists v' w' m',
    Vector_move_assign false (MkVec (MkRaw (Some 0) 2) 2)
      (MkVec (MkRaw (Some 1) 3) 3)
      (Mem [Some [Live 1; Live 2]; Some [Live 7; Live 8; Live 9]] []) =
      Ret (v', w') m' /\
    elements m' v' = Some [7; 8; 9] /\
    data_ v' = MkRaw (Some 1) 3.
Proof.
  assert (Hv : owns (Mem [Some [Live 1; Live 2];
                          Some [Live 7; Live 8; Live 9]] [])
                    (MkVec (MkRaw (Some 0) 2) 2) [1; 2])
    by (split; [reflexivity|split; [apply le_n|reflexivity]]).
  assert (Hw : owns (Mem [Some [Live 1; Live 2];
                          Some [Live 7; Live 8; Live 9]] [])
                    (MkVec (MkRaw (Some 1) 3) 3) [7; 8; 9])
    by (split; [reflexivity|split; [apply le_n|reflexivity]]).
  split; [exact Hv|]. split; [exact Hw|].
  destruct (move_assign_takes_elements _ _ _ _ _ Hv Hw) as
    (v' & w' & m' & Hrun & He & _ & Hd).
  - intros a Ha Hb. cbn in Ha, Hb. congruence.
  - left. apply le_n.
  - exists v', w', m'. repeat split; assumption.
Defined.

(** Releasing block 0 beside block 1. *)
Lemma raw_memory_release_witness :
  blk_at (Mem [Some [Uninit; Uninit]; Some [Live 3]] []) 0 [Uninit; Uninit] /\
  exists m',
    RawMemory_dtor (MkRaw (Some 0) 2)
      (Mem [Some [Uninit; Uninit]; Some [Live 3]] []) = Ret tt m' /\
    cells m' !! 0 = Some None /\
    cells m' !! 1 = Some (Some [Live 3]) /\
    RawMemory_dtor (MkRaw (Some 0) 2) m' = Undef.
Proof.
  assert (H : blk_at (Mem [Some [Uninit; Uninit]; Some [Live 3]] []) 0
                     [Uninit; Uninit]) by reflexivity.
  split; [exact H|].
  destruct (raw_memory_release _ 0 2 _ H)
    as (m' & Hrun & Hrel & Hkeep & Hagain & _).
  exists m'. split; [exact Hrun|]. split; [exact Hrel|].
  split; [|exact Hagain].
  rewrite (Hkeep 1); [reflexivity|discriminate].
Defined.

(** [Vector (2)] and a copy of it: the copy owns its own two elements. *)
Lemma vectors_own_separate_blocks_witness :
  Forall (@op_fits nat (option nat) 4)
         [OpNew (option nat) 2; OpCopy (option nat) 0] /\
  run_program nat_moved_from 0 true true (option nat) nat_construct
    [OpNew (option nat) 2; OpCopy (option nat) 0] [] empty_mem =
    Some ([MkVec (MkRaw (Some 0) 2) 2; MkVec (MkRaw (Some 1) 2) 2],
          Mem [Some [Live 0; Live 0]; Some [Live 0; Live 0]]
              [EvAlloc 0 2; EvAlloc 1 2; EvCopy 0; EvCopy 0]) /\
  exists xs,
    owns (Mem [Some [Live 0; Live 0]; Some [Live 0; Live 0]]
              [EvAlloc 0 2; EvAlloc 1 2; EvCopy 0; EvCopy 0])
         (MkVec (MkRaw (Some 1) 2) 2) xs /\
    elements (Mem [Some [Live 0; Live 0]; Some [Live 0; Live 0]]
                  [EvAlloc 0 2; EvAlloc 1 2; EvCopy 0; EvCopy 0])
             (MkVec (MkRaw (Some 1) 2) 2) = Some xs /\
    Size (MkVec (MkRaw (Some 1) 2) 2) = length xs.
Proof.
  assert (Hfit : Forall (@op_fits nat (option nat) 4)
                        [OpNew (option nat) 2; OpCopy (option nat) 0])
    by (repeat constructor).
  split; [exact Hfit|]. split; [reflexivity|].
  exact (proj1 (vectors_own_separate_blocks nat_moved_from 0 true true
                  (option nat) nat_construct 4 _ _ _ Hfit eq_refl)
               1 (MkVec (MkRaw (Some 1) 2) 2) eq_refl).
Defined.

(** After [Vector (2)]: [Erase] returns exactly below position 2. *)
Lemma calls_return_when_preconditions_hold_witness :
  Forall (@op_fits nat (option nat) 4) [OpNew (option nat) 2] /\
  run_program nat_moved_from 0 true true (option nat) nat_construct
    [OpNew (option nat) 2] [] empty_mem =
    Some ([MkVec (MkRaw (Some 0) 2) 2],
          Mem [Some [Live 0; Live 0]] [EvAlloc 0 2]) /\
  [MkVec (MkRaw (Some 0) 2) 2] !! 0 = Some (MkVec (MkRaw (Some 0) 2) 2) /\
  forall pos,
    (exists vs' r m',
       step nat_moved_from 0 true true (option nat) nat_construct
            [MkVec (MkRaw (Some 0) 2) 2] (OpErase (option nat) 0 pos)
            (Mem [Some [Live 0; Live 0]] [EvAlloc 0 2]) = Ret (vs', r) m') <->
    pos < Size (MkVec (MkRaw (Some 0) 2) 2).
Proof.
  assert (Hfit : Forall (@op_fits nat (option nat) 4) [OpNew (option nat) 2])
    by (repeat constructor).
  split; [exact Hfit|]. split; [reflexivity|]. split; [reflexivity|].
  exact (proj2 (proj2
           (calls_return_when_preconditions_hold nat_moved_from 0 true true
              (option nat) nat_construct 4 _ _ _ 0 _ Hfit eq_refl eq_refl))).
Defined.

(** After [Vector (2)] and [Reserve (3)], [Emplace] before the end with a
    throwing constructor: the two elements are as they were. *)
Lemma throwing_call_changes_nothing_witness :
  Forall (@op_fits nat (option nat) 4)
         [OpNew (option nat) 2; OpReserve (option nat) 0 3] /\
  run_program nat_moved_from 0 true true (option nat) nat_construct
    [OpNew (option nat) 2; OpReserve (option nat) 0 3] [] empty_mem =
    Some ([MkVec (MkRaw (Some 1) 3) 2],
          Mem [None; Some [Live 0; Live 0; Uninit]]
              [EvAlloc 0 2; EvAlloc 1 3; EvMove 0; EvMove 0; EvFree 0]) /\
  nat_construct None = None /\
  step nat_moved_from 0 true true (option nat) nat_construct
       [MkVec (MkRaw (Some 1) 3) 2] (OpEmplace (option nat) 0 1 None)
       (Mem [None; Some [Live 0; Live 0; Uninit]]
            [EvAlloc 0 2; EvAlloc 1 3; EvMove 0; EvMove 0; EvFree 0]) =
    Throw (Mem [None; Some [Live 0; Live 0; Uninit]; None]
               [EvAlloc 0 2; EvAlloc 1 3; EvMove 0; EvMove 0; EvFree 0;
                EvAlloc 2 1; EvFree 2]) /\
  elements (Mem [None; Some [Live 0; Live 0; Uninit]; None]
                [EvAlloc 0 2; EvAlloc 1 3; EvMove 0; EvMove 0; EvFree 0;
                 EvAlloc 2 1; EvFree 2])
           (MkVec (MkRaw (Some 1) 3) 2) =
  elements (Mem [None; Some [Live 0; Live 0; Uninit]]
                [EvAlloc 0 2; EvAlloc 1 3; EvMove 0; EvMove 0; EvFree 0])
           (MkVec (MkRaw (Some 1) 3) 2).
Proof.
  assert (Hfit : Forall (@op_fits nat (option nat) 4)
                        [OpNew (option nat) 2; OpReserve (option nat) 0 3])
    by (repeat constructor).
  split; [exact Hfit|]. split; [reflexivity|]. split; [reflexivity|].
  split; [reflexivity|].
  exact (proj2 (throwing_call_changes_nothing nat_moved_from 0 true true
                  (option nat) nat_construct 4 _ _ _ _ 0 None Hfit eq_refl
                  eq_refl
                  (or_intror (ex_intro _ 1 eq_refl)))
               0 (MkVec (MkRaw (Some 1) 3) 2) eq_refl).
Defined.

(** The vector [7, 8, 9] is move-assigned to the vector [1, 2] of
    capacity 2: the block of [1, 2] is released and the source is left
    empty. *)
Lemma move_assign_leaves_source_witness :
  owns (Mem [Some [Live 1; Live 2]; Some [Live 7; Live 8; Live 9]] [])
       (MkVec (MkRaw (Some 0) 2) 2) [1; 2] /\
  owns (Mem [Some [Live 1; Live 2]; Some [Live 7; Live 8; Live 9]] [])
       (MkVec (MkRaw (Some 1) 3) 3) [7; 8; 9] /\
  exists m',
    Vector_move_assign false (MkVec (MkRaw (Some 0) 2) 2)
      (MkVec (MkRaw (Some 1) 3) 3)
      (Mem [Some [Live 1; Live 2]; Some [Live 7; Live 8; Live 9]] []) =
      Ret (MkVec (MkRaw (Some 1) 3) 3, Vector_default) m' /\
    cells m' !! 0 = Some None.
Proof.
  assert (Hv : owns (Mem [Some [Live 1; Live 2];
                          Some [Live 7; Live 8; Live 9]] [])
                    (MkVec (MkRaw (Some 0) 2) 2) [1; 2])
    by (split; [reflexivity|split; [apply le_n|reflexivity]]).
  assert (Hw : owns (Mem [Some [Live 1; Live 2];
                          Some [Live 7; Live 8; Live 9]] [])
                    (MkVec (MkRaw (Some 1) 3) 3) [7; 8; 9])
    by (split; [reflexivity|split; [apply le_n|reflexivity]]).
  split; [exact Hv|]. split; [exact Hw|].
  destruct (proj1 (move_assign_leaves_source _ _ _ _ _ Hv Hw) (le_n _))
    as (m' & Hrun & Hrel & _).
  exists m'. split; [exact Hrun|]. exact (Hrel 0 eq_refl).
Defined.

(** [Vector (3)] with a 4-byte element type. *)
Lemma construct_n_value_elements_witness :
  fits_size_t 4 3 /\
  exists v m',
    Vector_new 7 3 (@empty_mem nat) = Ret v m' /\
    Size v = 3 /\ Capacity v = 3 /\
    elements m' v = Some [7; 7; 7].
Proof.
  split; [reflexivity|].
  apply (construct_n_value_elements 7 4 empty_mem 3). reflexivity.
Defined.

(** [RawMemory (3)] with a 4-byte element type. *)
Lemma raw_memory_new_bounds_witness :
  fits_size_t 4 3 /\
  exists d m',
    RawMemory_new 3 (@empty_mem nat) = Ret d m' /\
    capacity_ d = 3 /\
    (forall a, buffer_ d = Some a -> blk_at m' a [Uninit; Uninit; Uninit]) /\
    RawMemory_plus d 3 m' = Ret (Ptr (buffer_ d) 3) m' /\
    RawMemory_index d 3 m' = Undef.
Proof.
  split; [reflexivity|].
  destruct (raw_memory_new_bounds 4 (@empty_mem nat) 3)
    as (d & m' & Hrun & Hc & _ & Hblk & _ & Hplus & Hidx); [reflexivity|].
  exists d, m'. split; [exact Hrun|]. split; [exact Hc|].
  split; [exact Hblk|]. split; [exact (Hplus 3)|exact (Hidx 3)].
Defined.
